(** * eth-sci: transaction submission and nonce coordination

    A shallow embedding of the transaction manager
    ([src/lib/modules/transactionManager.js]), of the bounded array of
    [src/lib/utils.js] and of the retry loop of
    [src/lib/interface/interface.js], with the properties of the
    specification stated over it.

    Conventions.  JavaScript numbers that hold nonces, ids, counters and
    timestamps are integers of [Z] (all within the safe-integer range, the
    id counter's wrap-around is written out).  A property that may be
    [undefined] is an [option]; [None] also stands for [NaN] where
    [Math.max] meets [undefined].  Objects that the code shares by reference
    (the [txMeta] passed to [addTx], [updateTx], [submitTx]) live in a heap
    and the record store [this.tx] is a list of references. *)

From Stdlib Require Import ZArith List Bool Lia.
From stdpp Require Import base option list gmap strings fin_maps.

Local Open Scope Z_scope.

(** ** JavaScript helpers *)

(** [String.prototype.includes]: [sub] occurs in [s]. *)
Fixpoint includes (s sub : string) : bool :=
  String.prefix sub s ||
  match s with
  | EmptyString => false
  | String _ s' => includes s' sub
  end.

(** Truthiness of a value that is a number or [undefined]/[null]. *)
Definition truthy (v : option Z) : bool :=
  match v with
  | Some z => negb (z =? 0)
  | None => false
  end.

(** [a || b] on such values. *)
Definition js_or (a : option Z) (b : Z) : Z :=
  match a with
  | Some z => if z =? 0 then b else z
  | None => b
  end.

(** [Math.max(a, b)] where either side may be [undefined] or [NaN]. *)
Definition Math_max (a b : option Z) : option Z :=
  match a, b with
  | Some x, Some y => Some (Z.max x y)
  | _, _ => None
  end.

(** [Number.MAX_SAFE_INTEGER]. *)
Definition MAX_SAFE_INTEGER : Z := 2 ^ 53 - 1.

(** ** utils.js: FixedLengthArray *)

Section FixedLengthArray.
Context {A : Type} `{EqDecision A}.

(** The array with the two constructor arguments it closes over.
    [lengthLimit = 0] stands for a limit that is falsy (absent or 0). *)
Record FixedLengthArray := mkFLA {
  items : list A;
  lengthLimit : nat;
  unique : bool
}.

Definition FixedLengthArray_new (limit : nat) (uniq : bool) : FixedLengthArray :=
  {| items := []; lengthLimit := limit; unique := uniq |}.

(** [array.has] and the inherited [includes]. *)
Definition fla_includes (x : A) (a : FixedLengthArray) : bool :=
  bool_decide (x ∈ items a).

(** [[...new Set(args)]]: first occurrences, in order. *)
Fixpoint js_Set (args : list A) : list A :=
  match args with
  | [] => []
  | x :: rest => x :: filter (λ y, y ≠ x) (js_Set rest)
  end.

(** [_truncate]: one [shift] per argument once the limit is reached. *)
Definition _truncate (args : list A) (a : FixedLengthArray) : FixedLengthArray :=
  if negb (Nat.eqb (lengthLimit a) 0)
     && Nat.leb (lengthLimit a) (length (items a))
     && Nat.ltb 0 (length args)
  then {| items := drop (length args) (items a);
          lengthLimit := lengthLimit a; unique := unique a |}
  else a.

Definition fla_append (args : list A) (a : FixedLengthArray) : FixedLengthArray :=
  {| items := items a ++ args; lengthLimit := lengthLimit a; unique := unique a |}.

Definition fla_add (args : list A) (a : FixedLengthArray) : FixedLengthArray :=
  let args' := js_Set (filter (λ x, x ∉ items a) args) in
  fla_append args' (_truncate args' a).

Definition fla_push (args : list A) (a : FixedLengthArray) : FixedLengthArray :=
  if unique a then fla_add args a
  else fla_append args (_truncate args a).

End FixedLengthArray.

Arguments FixedLengthArray A : clear implicits.

(** ** Data model *)

(** References to [txMeta] objects. *)
Abbreviation ref := nat (only parsing).

Inductive Status := pending | submitted | confirmed | failed.
Inductive TxType := call | send.

Global Instance Status_eq_dec : EqDecision Status.
Proof. solve_decision. Defined.
Global Instance TxType_eq_dec : EqDecision TxType.
Proof. solve_decision. Defined.

(** An error object; only its [message] is read. *)
Record Error := mkError { message : string }.

(** A receipt; [gasUsed] may be missing. *)
Record Receipt := mkReceipt { rc_blockNumber : Z; rc_gasUsed : option Z }.

(** The options bag of a call.  [opt_nonce = None] is an absent, [undefined]
    or [null] nonce. *)
Record Options := mkOptions {
  opt_from : string;
  opt_gas : option Z;
  opt_gasPrice : option Z;
  opt_nonce : option Z;
  opt_value : option Z;
  opt_data : option string
}.

(** A transaction record ([TransactionObject]).  The field [duration], which
    [updateTx] recomputes from [time] and [lastUpdate] as a fraction of
    seconds and which nothing reads, is left out. *)
Record TxMeta := mkTxMeta {
  tx_id : option Z;
  tx_from : string;
  tx_to : option string;
  tx_method : string;
  tx_methodArgs : list string;
  tx_options : Options;
  tx_txType : TxType;
  tx_nonce : option Z;
  tx_status : option Status;
  tx_time : option Z;
  tx_lastUpdate : option Z;
  tx_txHash : option string;
  tx_data : option string;
  tx_blockNumber : option Z;
  tx_gasUsed : option Z
}.

Definition set_opt_nonce (n : option Z) (o : Options) : Options :=
  mkOptions (opt_from o) (opt_gas o) (opt_gasPrice o) n (opt_value o) (opt_data o).
Definition set_opt_gasPrice (g : option Z) (o : Options) : Options :=
  mkOptions (opt_from o) (opt_gas o) g (opt_nonce o) (opt_value o) (opt_data o).
Definition set_opt_data (d : option string) (o : Options) : Options :=
  mkOptions (opt_from o) (opt_gas o) (opt_gasPrice o) (opt_nonce o) (opt_value o) d.

Definition set_id (v : option Z) (m : TxMeta) : TxMeta :=
  mkTxMeta v (tx_from m) (tx_to m) (tx_method m) (tx_methodArgs m) (tx_options m)
    (tx_txType m) (tx_nonce m) (tx_status m) (tx_time m) (tx_lastUpdate m)
    (tx_txHash m) (tx_data m) (tx_blockNumber m) (tx_gasUsed m).
Definition set_options (v : Options) (m : TxMeta) : TxMeta :=
  mkTxMeta (tx_id m) (tx_from m) (tx_to m) (tx_method m) (tx_methodArgs m) v
    (tx_txType m) (tx_nonce m) (tx_status m) (tx_time m) (tx_lastUpdate m)
    (tx_txHash m) (tx_data m) (tx_blockNumber m) (tx_gasUsed m).
Definition set_nonce (v : option Z) (m : TxMeta) : TxMeta :=
  mkTxMeta (tx_id m) (tx_from m) (tx_to m) (tx_method m) (tx_methodArgs m) (tx_options m)
    (tx_txType m) v (tx_status m) (tx_time m) (tx_lastUpdate m)
    (tx_txHash m) (tx_data m) (tx_blockNumber m) (tx_gasUsed m).
Definition set_status (v : option Status) (m : TxMeta) : TxMeta :=
  mkTxMeta (tx_id m) (tx_from m) (tx_to m) (tx_method m) (tx_methodArgs m) (tx_options m)
    (tx_txType m) (tx_nonce m) v (tx_time m) (tx_lastUpdate m)
    (tx_txHash m) (tx_data m) (tx_blockNumber m) (tx_gasUsed m).
Definition set_time (v : option Z) (m : TxMeta) : TxMeta :=
  mkTxMeta (tx_id m) (tx_from m) (tx_to m) (tx_method m) (tx_methodArgs m) (tx_options m)
    (tx_txType m) (tx_nonce m) (tx_status m) v (tx_lastUpdate m)
    (tx_txHash m) (tx_data m) (tx_blockNumber m) (tx_gasUsed m).
Definition set_lastUpdate (v : option Z) (m : TxMeta) : TxMeta :=
  mkTxMeta (tx_id m) (tx_from m) (tx_to m) (tx_method m) (tx_methodArgs m) (tx_options m)
    (tx_txType m) (tx_nonce m) (tx_status m) (tx_time m) v
    (tx_txHash m) (tx_data m) (tx_blockNumber m) (tx_gasUsed m).
Definition set_txHash (v : option string) (m : TxMeta) : TxMeta :=
  mkTxMeta (tx_id m) (tx_from m) (tx_to m) (tx_method m) (tx_methodArgs m) (tx_options m)
    (tx_txType m) (tx_nonce m) (tx_status m) (tx_time m) (tx_lastUpdate m)
    v (tx_data m) (tx_blockNumber m) (tx_gasUsed m).
Definition set_data (v : option string) (m : TxMeta) : TxMeta :=
  mkTxMeta (tx_id m) (tx_from m) (tx_to m) (tx_method m) (tx_methodArgs m) (tx_options m)
    (tx_txType m) (tx_nonce m) (tx_status m) (tx_time m) (tx_lastUpdate m)
    (tx_txHash m) v (tx_blockNumber m) (tx_gasUsed m).
Definition set_blockNumber (v : option Z) (m : TxMeta) : TxMeta :=
  mkTxMeta (tx_id m) (tx_from m) (tx_to m) (tx_method m) (tx_methodArgs m) (tx_options m)
    (tx_txType m) (tx_nonce m) (tx_status m) (tx_time m) (tx_lastUpdate m)
    (tx_txHash m) (tx_data m) v (tx_gasUsed m).
Definition set_gasUsed (v : option Z) (m : TxMeta) : TxMeta :=
  mkTxMeta (tx_id m) (tx_from m) (tx_to m) (tx_method m) (tx_methodArgs m) (tx_options m)
    (tx_txType m) (tx_nonce m) (tx_status m) (tx_time m) (tx_lastUpdate m)
    (tx_txHash m) (tx_data m) (tx_blockNumber m) v.

Definition emptyOptions : Options := mkOptions "" None None None None None.

Global Instance TxMeta_inhabited : Inhabited TxMeta :=
  populate (mkTxMeta None "" None "" [] emptyOptions send None None None None
              None None None None).

(** The transaction manager together with the objects it holds references
    to.  [_lockMap] maps an address to its mutex, [true] when it is held;
    [totalWeiSpent] is the sum that the code converts to ether. *)
Record State := mkState {
  heap : gmap ref TxMeta;
  tx : list ref;
  totalGasUsed : Z;
  totalWeiSpent : Z;
  retries : Z;
  _lockMap : gmap string bool;
  _nonceInUse : gmap string (FixedLengthArray (option Z));
  _idCounter : Z;
  clock : Z
}.

Definition set_heap (h : gmap ref TxMeta) (s : State) : State :=
  mkState h (tx s) (totalGasUsed s) (totalWeiSpent s) (retries s) (_lockMap s)
    (_nonceInUse s) (_idCounter s) (clock s).
Definition set_tx (l : list ref) (s : State) : State :=
  mkState (heap s) l (totalGasUsed s) (totalWeiSpent s) (retries s) (_lockMap s)
    (_nonceInUse s) (_idCounter s) (clock s).
Definition set_stat (g w : Z) (s : State) : State :=
  mkState (heap s) (tx s) g w (retries s) (_lockMap s)
    (_nonceInUse s) (_idCounter s) (clock s).
Definition set_retries (n : Z) (s : State) : State :=
  mkState (heap s) (tx s) (totalGasUsed s) (totalWeiSpent s) n (_lockMap s)
    (_nonceInUse s) (_idCounter s) (clock s).
Definition set_lockMap (l : gmap string bool) (s : State) : State :=
  mkState (heap s) (tx s) (totalGasUsed s) (totalWeiSpent s) (retries s) l
    (_nonceInUse s) (_idCounter s) (clock s).
Definition set_nonceInUse (u : gmap string (FixedLengthArray (option Z))) (s : State) : State :=
  mkState (heap s) (tx s) (totalGasUsed s) (totalWeiSpent s) (retries s) (_lockMap s)
    u (_idCounter s) (clock s).
Definition set_idCounter (c : Z) (s : State) : State :=
  mkState (heap s) (tx s) (totalGasUsed s) (totalWeiSpent s) (retries s) (_lockMap s)
    (_nonceInUse s) c (clock s).
Definition set_clock (c : Z) (s : State) : State :=
  mkState (heap s) (tx s) (totalGasUsed s) (totalWeiSpent s) (retries s) (_lockMap s)
    (_nonceInUse s) (_idCounter s) c.

(** The object behind a reference, and an in-place update of it. *)
Definition deref (s : State) (r : ref) : TxMeta := heap s !!! r.
Definition mutate (r : ref) (f : TxMeta → TxMeta) (s : State) : State :=
  set_heap (<[r := f (deref s r)]> (heap s)) s.

(** The constructor's state, for a given draw of the id counter. *)
Definition TransactionManager_new (idCounter now : Z) : State :=
  mkState ∅ [] 0 0 0 ∅ ∅ idCounter now.

(** ** Runs: state, exceptions, suspension and the observable trace *)

(** Who sleeps: the queue governor or the retry loop. *)
Inductive Sleeper := Governor | Backoff.

(** What a run does that the outside can observe. *)
Inductive Event :=
  | EvNonce (address : string) (nextNonce : Z)  (* getNonce returned *)
  | EvQueueCheck (awaiting : nat)               (* _waitQueue read the count *)
  | EvSleep (who : Sleeper) (ms : Z)            (* sleep(ms) *)
  | EvSubmitted (r : ref) (nonce : option Z)    (* record marked submitted *)
  | EvSend (r : ref) (o : Options)              (* ....send(options) *)
  | EvCall (r : ref)                            (* ....call(options) *)
  | EvSettled (r : ref) (err : option Error)    (* submitTx returned [err, result] *)
  | EvSubmitTx (r : ref) (counter : nat)        (* the retry loop calls submitTx *)
  | EvVerify (answer : bool).                   (* the verify predicate was called *)

(** A call returns, throws, or stays suspended at an [await] that nothing in
    the given environment resolves. *)
Inductive outcome (A : Type) :=
  | Ok (a : A)
  | Throw (e : Error)
  | Blocked.
Arguments Ok {A} a.
Arguments Throw {A} e.
Arguments Blocked {A}.

Record Run (A : Type) := mkRun { out : outcome A; st : State; evs : list Event }.
Arguments mkRun {A} out st evs.
Arguments out {A} r.
Arguments st {A} r.
Arguments evs {A} r.

Definition M (A : Type) : Type := State → Run A.

Definition ret {A} (a : A) : M A := λ s, mkRun (Ok a) s [].
Definition throw {A} (e : Error) : M A := λ s, mkRun (Throw e) s [].
Definition blocked {A} : M A := λ s, mkRun Blocked s [].
Definition bind {A B} (m : M A) (f : A → M B) : M B :=
  λ s, let r := m s in
       match out r with
       | Ok a => let r' := f a (st r) in mkRun (out r') (st r') (evs r ++ evs r')
       | Throw e => mkRun (Throw e) (st r) (evs r)
       | Blocked => mkRun Blocked (st r) (evs r)
       end.
Definition get : M State := λ s, mkRun (Ok s) s [].
Definition modify (f : State → State) : M unit := λ s, mkRun (Ok tt) (f s) [].
Definition emit (e : Event) : M unit := λ s, mkRun (Ok tt) s [e].

Notation "'let*' x := m 'in' k" := (bind m (λ x, k))
  (at level 10, x name, m at level 100, k at level 200).
Notation "m >>> k" := (bind m (λ _, k))
  (at level 100, right associativity).

(** [sleep(ms)]: the clock moves on by [ms]. *)
Definition sleep (who : Sleeper) (ms : Z) : M unit :=
  emit (EvSleep who ms) >>> modify (λ s, set_clock (clock s + ms) s).

(** A run that always completes, seen as a state change. *)
Definition exec {A} (m : M A) (s : State) : State := st (m s).

(** ** transactionManager.js *)

(** The keys that the code filters the store by. *)
Inductive Filter :=
  | ById (id : option Z)
  | ByStatus (status : Status)
  | ByFrom (address : string).

(** [txMeta[key] === value]. *)
Definition matches (f : Filter) (m : TxMeta) : Prop :=
  match f with
  | ById i => tx_id m = i
  | ByStatus st => tx_status m = Some st
  | ByFrom a => tx_from m = a
  end.

Global Instance matches_dec f m : Decision (matches f m).
Proof. destruct f; simpl; apply _. Defined.

(** An array is an object, and an object is truthy, also when it is empty. *)
Definition array_truthy {A} (l : list A) : bool := true.

(** The error that [this.tx[-1][key] = ...] raises. *)
Definition TypeError : Error :=
  mkError "TypeError: Cannot set property of undefined".

(** An own key with a value overwrites the target's; an absent key leaves it. *)
Definition over {A} (new old : option A) : option A :=
  match new with
  | Some _ => new
  | None => old
  end.

(** [Object.keys(source).forEach(key => target[key] = source[key])].  The
    options bag is copied by value; the code shares it, which shows only
    when two distinct objects carry one id. *)
Definition assign (source target : TxMeta) : TxMeta :=
  mkTxMeta (over (tx_id source) (tx_id target))
    (tx_from source) (tx_to source) (tx_method source) (tx_methodArgs source)
    (tx_options source) (tx_txType source)
    (over (tx_nonce source) (tx_nonce target))
    (over (tx_status source) (tx_status target))
    (over (tx_time source) (tx_time target))
    (over (tx_lastUpdate source) (tx_lastUpdate target))
    (over (tx_txHash source) (tx_txHash target))
    (over (tx_data source) (tx_data target))
    (over (tx_blockNumber source) (tx_blockNumber target))
    (over (tx_gasUsed source) (tx_gasUsed target)).

Definition getTxsByMetaData (f : Filter) (txList : list ref) (s : State) : list ref :=
  filter (λ q, matches f (deref s q)) txList.

(** [getFilteredTxList(opts)] for a filter with at least one key: the
    first key filters [this.tx], the next ones what is left. *)
Definition getFilteredTxList (opts : list Filter) (s : State) : list ref :=
  fold_left (λ txList f, getTxsByMetaData f txList s) opts (tx s).

(** [address] is [None] or empty when the caller gave none. *)
Definition _filterTxByStatus (address : option string) (status : Status) (s : State)
  : list ref :=
  getFilteredTxList
    (ByStatus status ::
     match address with
     | Some a => if bool_decide (a = "") then [] else [ByFrom a]
     | None => []
     end) s.

Definition getFailedTransactions a := _filterTxByStatus a failed.
Definition getConfirmedTransactions a := _filterTxByStatus a confirmed.
Definition getPendingTransactions a := _filterTxByStatus a pending.
Definition getSubmittedTransactions a := _filterTxByStatus a submitted.

Definition updateTx (r : ref) (status : Status) : M unit := λ s,
  let s1 := mutate r (λ m, set_lastUpdate (Some (clock s)) (set_status (Some status) m)) s in
  match list_find (λ q, tx_id (deref s1 q) = tx_id (deref s1 r)) (tx s1) with
  | Some (_, q) => mkRun (Ok tt) (mutate q (assign (deref s1 r)) s1) []
  | None => mkRun (Throw TypeError) s1 []
  end.

Definition _createRandomId : M Z := λ s,
  let c := Z.rem (_idCounter s) MAX_SAFE_INTEGER in
  mkRun (Ok c) (set_idCounter (c + 1) s) [].

Definition addTx (r : ref) : M unit :=
  modify (mutate r (λ m, set_data None (set_txHash None m))) >>>
  let* s := get in
  let id := tx_id (deref s r) in
  modify (mutate r (λ m, set_time (Some (js_or (tx_time m) (clock s))) m)) >>>
  if truthy id then
    let txs := getFilteredTxList [ById id] s in
    if array_truthy txs then updateTx r pending else ret tt
  else
    let* newId := _createRandomId in
    modify (mutate r (set_id (Some newId))) >>>
    modify (λ s, set_tx (tx s ++ [r]) s).

Definition _finalizeTx (r : ref) (err : option Error) : M unit :=
  updateTx r (match err with Some _ => failed | None => confirmed end).

Definition updateStat (gasUsed gasPrice : Z) (s : State) : State :=
  set_stat (totalGasUsed s + gasUsed) (totalWeiSpent s + gasUsed * gasPrice) s.

(** The part of [_calculateGasExpenses] that concerns the manager. *)
Definition _calculateGasExpenses (r : ref) (gasUsed : option Z) : M unit :=
  let g := default 0 gasUsed in
  modify (mutate r (set_gasUsed (Some g))) >>>
  modify (λ s, updateStat g (default 0 (opt_gasPrice (tx_options (deref s r)))) s).

(** What the node answers to [getBlock] and [getTransactionCount]. *)
Inductive NetResp :=
  | NetCount (nextNetworkNonce : Z)
  | NetError (e : Error).

(** What a call resolves with: a receipt for [send], a value for [call]. *)
Inductive Result :=
  | Mined (receipt : Receipt)
  | Value (v : string).

(** The outside of one [submitTx]: the node's answers, the [send] events,
    and, for every sleep of the queue governor, the other submissions that
    settle in the meantime (with their errors, if any). *)
Record SubmitEnv := mkSubmitEnv {
  env_call : option Error * option Result;
  env_net : NetResp;
  env_world : list (list (ref * option Error));
  env_hash : option string;
  env_send : Receipt + Error
}.

Definition awaitLimit : nat := 100.
Definition awaitTime : Z := 60.

(** The messages after which a nonce is taken to be stuck. *)
Definition stuckNonce (msg : string) : bool :=
  includes msg "nonce too low" ||
  includes msg "Transaction was not mined within" ||
  includes msg "known transaction" ||
  includes msg "replacement transaction underpriced".

(** [tx.nonce > 0]. *)
Definition nonce_positive (m : TxMeta) : bool :=
  match tx_nonce m with
  | Some n => 0 <? n
  | None => false
  end.

(** [nonces.reduce((a, b) => Math.max(a, b))], [null] on the empty list;
    the result is [Some] exactly when [Number.isInteger] holds of it. *)
Definition _getHighestNonce (txList : list ref) (s : State) : option Z :=
  match (λ q, tx_nonce (deref s q)) <$> txList with
  | [] => None
  | n :: rest => fold_left Math_max rest n
  end.

(** The loop [while (inUse(highest)) highest++], at most [fuel] rounds. *)
Fixpoint scan (fuel : nat) (used : Z → bool) (highest : Z) : Z :=
  match fuel with
  | O => highest
  | S fuel' => if used highest then scan fuel' used (highest + 1) else highest
  end.

Definition inUseAt (nonces : list (option Z)) (address : string)
    (inUse : option (FixedLengthArray (option Z))) (highest : Z) : bool :=
  bool_decide (Some highest ∈ nonces) ||
  (negb (bool_decide (address = "")) &&
   match inUse with
   | Some a => fla_includes (Some highest) a
   | None => false
   end).

Section Engine.
(** [web3-utils]' [toChecksumAddress], composed with the lower-casing of
    [utils.toChecksum]. *)
Variable toChecksum : string → string.

Definition _getHighestLocallyConfirmed (address : string) (s : State) : Z :=
  match _getHighestNonce (getConfirmedTransactions (Some address) s) s with
  | Some highest => highest + 1
  | None => 0
  end.

(** The loop runs once per value in use above the start, so the number of
    values at hand bounds it (see [scan_not_used]). *)
Definition _getHighestContinuousFrom (txList : list ref) (startPoint : Z)
    (address : string) (s : State) : Z :=
  let address := if bool_decide (address = "") then address else toChecksum address in
  let nonces := (λ q, tx_nonce (deref s q)) <$> txList in
  let inUse := _nonceInUse s !! address in
  scan (S (length nonces + length (from_option items [] inUse)))
    (inUseAt nonces address inUse) startPoint.

(** The body of [getNonce] between the node's answer and the return. *)
Definition nextNonceOf (address : string) (nextNetworkNonce : Z) (s : State) : Z :=
  let highestLocallyConfirmed := _getHighestLocallyConfirmed address s in
  let highestSuggested := Z.max nextNetworkNonce highestLocallyConfirmed in
  let submittedTxs := getSubmittedTransactions (Some address) s in
  let pendingTxs :=
    filter (λ q, nonce_positive (deref s q) = true)
      (getPendingTransactions (Some address) s) in
  let localNonceResult :=
    js_or (Some (_getHighestContinuousFrom (submittedTxs ++ pendingTxs)
                   highestSuggested address s)) 0 in
  Z.max nextNetworkNonce localNonceResult.

(** [_lookupMutex]: the mutex of [lockId], created free when missing;
    the result tells whether it is held. *)
Definition _lookupMutex (lockId : string) : M bool := λ s,
  match _lockMap s !! lockId with
  | Some held => mkRun (Ok held) s []
  | None => mkRun (Ok false) (set_lockMap (<[lockId := false]> (_lockMap s)) s) []
  end.

(** [_getLock]: [acquire] resolves once the mutex is free; the release
    function it resolves with is named by the key of the mutex. *)
Definition _getLock (address : string) : M string :=
  let* held := _lookupMutex address in
  if held then blocked
  else modify (λ s, set_lockMap (<[address := true]> (_lockMap s)) s) >>>
       ret address.

Definition releaseNonceLock (handle : string) : M unit :=
  modify (λ s, set_lockMap (<[handle := false]> (_lockMap s)) s).

Definition getNonce (address : string) (net : NetResp) : M (Z * string) :=
  let address := toChecksum address in
  let* release := _getLock address in
  match net with
  | NetCount nextNetworkNonce =>
      let* s := get in
      let nextNonce := nextNonceOf address nextNetworkNonce s in
      emit (EvNonce address nextNonce) >>>
      ret (nextNonce, release)
  | NetError e =>
      releaseNonceLock release >>>
      throw (mkError ("Error: " +:+ message e))
  end.

Definition _checkError (err : Error) (address : string) (r : ref) : M unit :=
  modify (λ s,
    let address := toChecksum address in
    let nonce := tx_nonce (deref s r) in
    if stuckNonce (message err) then
      let arr := default (FixedLengthArray_new 200 true) (_nonceInUse s !! address) in
      set_nonceInUse (<[address := fla_push [nonce] arr]> (_nonceInUse s)) s
    else s).

(** Another submission settles: its [_finalizeTx], whose exception, if
    any, is not ours. *)
Definition settle_other (qe : ref * option Error) : M unit := λ s,
  mkRun (Ok tt) (st (_finalizeTx qe.1 qe.2 s)) [].

Fixpoint settle_others (w : list (ref * option Error)) : M unit :=
  match w with
  | [] => ret tt
  | qe :: w' => settle_other qe >>> settle_others w'
  end.

Definition awaiting_now (s : State) : nat :=
  length (getSubmittedTransactions None s).

(** The loop of [_waitQueue], entered with the limit reached. *)
Fixpoint _waitQueue_loop (world : list (list (ref * option Error))) : M unit :=
  sleep Governor (awaitTime * 1000) >>>
  match world with
  | [] => blocked
  | w :: world' =>
      settle_others w >>>
      let* s := get in
      let awaiting := awaiting_now s in
      emit (EvQueueCheck awaiting) >>>
      if Nat.leb awaitLimit awaiting then _waitQueue_loop world' else ret tt
  end.

Definition _waitQueue (world : list (list (ref * option Error))) : M unit :=
  let* s := get in
  let awaiting := awaiting_now s in
  emit (EvQueueCheck awaiting) >>>
  if Nat.leb awaitLimit awaiting then _waitQueue_loop world else ret tt.

(** [submitTx] between the wait and the ledger round trip: the nonce is
    settled, the record marked, the mutex given back and [send(options)]
    called. *)
Definition submitTx_claim (r : ref) (nextNonce : Z) (release : string) : M unit :=
  modify (mutate r (λ m,
    set_options (set_opt_nonce
      (Some (js_or (opt_nonce (tx_options m)) nextNonce)) (tx_options m)) m)) >>>
  modify (mutate r (λ m, set_nonce (opt_nonce (tx_options m)) m)) >>>
  updateTx r submitted >>>
  let* s := get in
  emit (EvSubmitted r (tx_nonce (deref s r))) >>>
  releaseNonceLock release >>>
  emit (EvSend r (tx_options (deref s r))).

(** [submitTx] on a [send], up to the call of [send(options)]: the part that
    runs before the ledger round trip. *)
Definition submitTx_dispatch (env : SubmitEnv) (r : ref) : M unit :=
  addTx r >>>
  let* s := get in
  let* nl := getNonce (opt_from (tx_options (deref s r))) (env_net env) in
  _waitQueue (env_world env) >>>
  submitTx_claim r nl.1 nl.2.

(** The rest of it: the events of [send] and the settlement. *)
Definition submitTx_settle (env : SubmitEnv) (r : ref)
  : M (option Error * option Result) :=
  match env_hash env with
  | Some hash => modify (mutate r (set_txHash (Some hash)))
  | None => ret tt
  end >>>
  let* res :=
    match env_send env with
    | inl receipt =>
        modify (mutate r (set_blockNumber (Some (rc_blockNumber receipt)))) >>>
        _calculateGasExpenses r (rc_gasUsed receipt) >>>
        ret (None, Some (Mined receipt))
    | inr e =>
        let* s := get in
        _checkError e (opt_from (tx_options (deref s r))) r >>>
        ret (Some e, None)
    end in
  _finalizeTx r res.1 >>>
  emit (EvSettled r res.1) >>>
  ret res.

Definition submitTx (env : SubmitEnv) (r : ref) : M (option Error * option Result) :=
  let* s := get in
  match tx_txType (deref s r) with
  | call =>
      emit (EvCall r) >>>
      emit (EvSettled r (env_call env).1) >>>
      ret (env_call env)
  | send => submitTx_dispatch env r >>> submitTx_settle env r
  end.

(** ** interface.js: sendWithRetry *)

(** The retry options.  [ro_gasPriceAt c] is the value of
    [Math.ceil(+gasPrice * incBase ** c)], which the code computes in
    double-precision arithmetic from the options' [gasPrice] and [incBase];
    [ro_verify], when configured, gives the predicate's answer at an attempt,
    before ([false]) and after ([true]) the sleep. *)
Record RetryOptions := mkRetryOptions {
  ro_delay : option Z;
  ro_retry : option nat;
  ro_gasPriceAt : nat → Z;
  ro_verify : option (nat → bool → bool)
}.

Definition retry_of (ro : RetryOptions) : nat :=
  match ro_retry ro with
  | Some (S n) => S n
  | _ => 3%nat
  end.

Definition delay_of (ro : RetryOptions) : Z := js_or (ro_delay ro) 10.

Definition updateNonce (e : string) (n : option Z) : option Z :=
  if includes e "Transaction was not mined within" then n else None.

(** The local [updateTx] of [sendWithRetry]. *)
Definition markConfirmed (r : ref) (result : option Result)
  : M (option Error * option Result) :=
  let* s := get in
  (if bool_decide (tx_status (deref s r) = Some confirmed) then ret tt
   else updateTx r confirmed) >>>
  ret (None, result).

Definition _verify (ro : RetryOptions) (err : option Error) (counter : nat)
    (afterSleep : bool) : M bool :=
  match err with
  | Some _ =>
      match ro_verify ro with
      | Some verify =>
          let answer := verify counter afterSleep in
          emit (EvVerify answer) >>> ret answer
      | None => ret false
      end
  | None => ret true
  end.

(** The body of the [do ... while] loop from the return of [submitTx] on;
    [next] is the next round. *)
Definition retry_decide (next : M (option Error * option Result))
    (ro : RetryOptions) (r : ref) (counter : nat)
    (er : option Error * option Result) : M (option Error * option Result) :=
  modify (mutate r (λ m, set_options (set_opt_data None (tx_options m)) m)) >>>
  let* ok := _verify ro er.1 counter false in
  if ok then markConfirmed r er.2
  else if Nat.eqb (retry_of ro) counter then ret er
  else
    sleep Backoff (delay_of ro * (Z.of_nat counter + 1) * 1000) >>>
    let* ok := _verify ro er.1 counter true in
    if ok then markConfirmed r er.2
    else
      modify (mutate r (λ m,
        set_options (set_opt_nonce
          (updateNonce (from_option message "" er.1) (tx_nonce m))
          (tx_options m)) m)) >>>
      modify (λ s, set_retries (retries s + 1) s) >>>
      if Nat.leb (S counter) (retry_of ro) then next else ret er.

(** The loop; [fuel] bounds the rounds, and one more than [retry] is enough
    of it (see [retry_loop_fuel]). *)
Fixpoint retry_loop (fuel : nat) (ro : RetryOptions) (env : nat → SubmitEnv)
    (r : ref) (counter : nat) : M (option Error * option Result) :=
  match fuel with
  | O => blocked
  | S fuel' =>
      modify (mutate r (λ m,
        set_options (set_opt_gasPrice (Some (ro_gasPriceAt ro counter)) (tx_options m)) m)) >>>
      emit (EvSubmitTx r counter) >>>
      let* er := submitTx (env counter) r in
      retry_decide (retry_loop fuel' ro env r (S counter)) ro r counter er
  end.

Definition sendWithRetry (ro : RetryOptions) (env : nat → SubmitEnv) (r : ref)
  : M (option Error * option Result) :=
  retry_loop (S (retry_of ro)) ro env r 0.

End Engine.

(** ** The specification's words, for comparison with the code *)



(** ** Invariants *)

(** The exclusion sets as [_checkError] makes them. *)
Definition exclusion_ok (a : FixedLengthArray (option Z)) : Prop :=
  NoDup (items a) ∧ (length (items a) ≤ 200)%nat ∧
  lengthLimit a = 200%nat ∧ unique a = true.

Definition exclusion_sets_ok (s : State) : Prop :=
  ∀ A a, _nonceInUse s !! A = Some a → exclusion_ok a.

(** The ids of the store: pairwise distinct, non-zero and below the counter. *)
Definition ids_ok (s : State) : Prop :=
  NoDup ((λ q, tx_id (deref s q)) <$> tx s) ∧
  (∀ q, q ∈ tx s → ∃ i, tx_id (deref s q) = Some i ∧ 0 < i < _idCounter s) ∧
  0 < _idCounter s.

(** A record with the id of [r] is in the store. *)
Definition found (r : ref) (s : State) : Prop :=
  ∃ q, q ∈ tx s ∧ tx_id (deref s q) = tx_id (deref s r).



(** ** Traces *)

(** The events of the checks of the queue governor that found the limit
    reached, with the counts [ks] they read. *)
Definition blocked_trace (ks : list nat) : list Event :=
  ks ≫= λ k', [EvQueueCheck k'; EvSleep Governor 60000].

(** The events of the queue governor for the counts [ks] that reached the
    limit and the count [k] that did not. *)
Definition wait_trace (ks : list nat) (k : nat) : list Event :=
  blocked_trace ks ++ [EvQueueCheck k].


Definition is_EvSubmitTx (e : Event) : bool :=
  match e with
  | EvSubmitTx _ _ => true
  | _ => false
  end.

(** How many times the retry loop called [submitTx]. *)
Definition submissions (l : list Event) : nat :=
  length (List.filter is_EvSubmitTx l).

(** The nonces that [getNonce] returned, in order. *)
Definition returned_nonces (l : list Event) : list Z :=
  omap (λ e, match e with EvNonce _ n => Some n | _ => None end) l.

(** The nonces of the options that [send] was called with, in order. *)
Definition sent_nonces (l : list Event) : list (option Z) :=
  omap (λ e, match e with EvSend _ o => Some (opt_nonce o) | _ => None end) l.

(** The events that leave the discipline of the retry loop alone and are
    no call of [submitTx]. *)
Definition quiet (e : Event) : bool :=
  match e with
  | EvVerify _ | EvSleep Backoff _ | EvSettled _ (Some _) | EvSubmitTx _ _ => false
  | _ => true
  end.

(** A run all of whose events are quiet. *)
Definition quiet_run {A} (m : M A) : Prop := ∀ s, Forall (λ e, quiet e = true) (evs (m s)).


(** ** Frames *)

(** A relation between the state before and after that a run keeps, however
    it ends. *)
Definition framed (R : State → State → Prop) {A} (m : M A) : Prop :=
  ∀ s, R s (st (m s)).

(** The store and every id are the same before and after. *)
Definition ids_frame (s s' : State) : Prop :=
  tx s' = tx s ∧ ∀ q, tx_id (deref s' q) = tx_id (deref s q).

(** A run from a state whose exclusion sets are in order ends in one. *)
Definition keeps_exclusion (s s' : State) : Prop :=
  exclusion_sets_ok s → exclusion_sets_ok s'.

(** ** Further code of the manager and of [utils.js] *)

(** [getTxStat()]: the counts by status over all addresses, the retries and
    the gas used (the number that [toString] prints).  [totalEthSpent], a
    floating-point sum, is left out. *)
Record TxStat := mkTxStat {
  stat_submitted : nat;
  stat_pending : nat;
  stat_failed : nat;
  stat_confirmed : nat;
  stat_retries : Z;
  stat_totalGasUsed : Z
}.

Definition getTxStat (s : State) : TxStat :=
  mkTxStat (length (getSubmittedTransactions None s))
    (length (getPendingTransactions None s))
    (length (getFailedTransactions None s))
    (length (getConfirmedTransactions None s))
    (retries s) (totalGasUsed s).

(** The records that [addTx] has appended and that no [updateTx] has
    reached yet: their [status] is [undefined]. *)
Definition unmarked (s : State) : list ref :=
  filter (λ q, tx_status (deref s q) = None) (tx s).

(** Whether the mutex of [A] is held. *)
Definition held (A : string) (s : State) : bool :=
  bool_decide (_lockMap s !! A = Some true).

(** A part [f] of the state is the same before and after. *)
Definition keeps {X} (f : State → X) (s s' : State) : Prop := f s' = f s.

(** The sleeps of the retry loop, in order. *)
Definition backoff_sleeps (l : list Event) : list Z :=
  omap (λ e, match e with EvSleep Backoff ms => Some ms | _ => None end) l.

(** The sleep that follows the failed attempt [c]: [delay * (c + 1) * 1000]. *)
Definition backoff_of (ro : RetryOptions) (c : nat) : Z :=
  delay_of ro * (Z.of_nat c + 1) * 1000.

(** *** utils.js: returnValue *)

(** What [returnValue] finds in the places of [defer] and [callback]:
    nothing ([undefined] or [null]), a function, or a deferred with the
    number of [error] listeners of its emitter. *)
Inductive Handler :=
  | NoHandler
  | Callback (f : nat)
  | Deferred (d : nat) (errorListeners : nat).

(** What [returnValue] does to them. *)
Inductive Effect :=
  | Called (f : nat) (err : option Error) (result : option Result)
  | Suppressed (d : nat)                          (* catch(...) and removeAllListeners() *)
  | RejectScheduled (d : nat) (err : Error)       (* setTimeout(() => defer.reject(err), 1) *)
  | Resolved (d : nat) (result : option Result).  (* defer.resolve(result) *)

(** How it ends. *)
Inductive Returned :=
  | RetEmitter (d : nat)
  | RetResult (result : option Result)
  | RetUndefined
  | Thrown (e : Error).

Definition isFunction (h : Handler) : bool :=
  match h with
  | Callback _ => true
  | _ => false
  end.

Definition handler_truthy (h : Handler) : bool :=
  match h with
  | NoHandler => false
  | _ => true
  end.

(** The first statement: the callback, wherever it stands, is called, and a
    callback in the place of [defer] leaves that place empty. *)
Definition returnValue_callback (err : option Error) (result : option Result)
    (defer callback : Handler) : list Effect * Handler * Handler :=
  match callback, defer with
  | Callback f, _ => ([Called f err result], defer, callback)
  | _, Callback g => ([Called g err result], NoHandler, Callback g)
  | _, _ => ([], defer, callback)
  end.

(** The errors of reading [eventEmitter.catch] and of calling [resolve] on
    a function. *)
Definition NoEmitter : Error :=
  mkError "TypeError: Cannot read property 'catch' of undefined".
Definition NoResolve : Error :=
  mkError "TypeError: defer.resolve is not a function".

(** The second statement, on what the first has left.  A function in the
    place of [defer] has no [eventEmitter] and no [resolve]: reading them
    throws. *)
Definition returnValue_settle (err : option Error) (result : option Result)
    (defer callback : Handler) : list Effect * Returned :=
  match err, defer with
  | Some e, Deferred d listeners =>
      ((if handler_truthy callback || negb (Nat.eqb listeners 0)
        then [Suppressed d] else []) ++ [RejectScheduled d e],
       RetEmitter d)
  | Some e, Callback _ => ([], Thrown NoEmitter)
  | Some e, NoHandler =>
      if negb (isFunction callback) then ([], Thrown e)
      else ([], RetResult result)
  | None, Deferred d _ => ([Resolved d result], RetUndefined)
  | None, Callback _ => ([], Thrown NoResolve)
  | None, NoHandler => ([], RetResult result)
  end.

Definition returnValue (err : option Error) (result : option Result)
    (defer callback : Handler) : list Effect * Returned :=
  let '(called, defer', callback') := returnValue_callback err result defer callback in
  let '(settled, returned) := returnValue_settle err result defer' callback' in
  (called ++ settled, returned).

(** The calls of a callback among the effects. *)
Definition calls (l : list Effect) : list (nat * option Error * option Result) :=
  omap (λ e, match e with Called f err result => Some (f, err, result) | _ => None end) l.

(** What happens to the deferred [d] among the effects. *)
Definition settles (d : nat) (e : Effect) : bool :=
  match e with
  | RejectScheduled d' _ | Resolved d' _ => Nat.eqb d' d
  | _ => false
  end.

Definition settlements (d : nat) (l : list Effect) : list Effect :=
  List.filter (settles d) l.

(** The calls of [verify] among the events. *)
Definition is_EvVerify (e : Event) : bool :=
  match e with
  | EvVerify _ => true
  | _ => false
  end.

(** What the rounds of the retry loop add up to, from the attempt [c] on:
    after the [first] calls of [submitTx] at hand, [m] more of them, each
    counted in [retries], and [k] sleeps, either one before each of the [m]
    or one more, of the lengths that belong to the attempts [c], [c + 1],
    ... *)
Definition rounds_counted (ro : RetryOptions) (c first : nat) (s : State)
    {A} (run : Run A) : Prop :=
  ∃ m k : nat,
    submissions (evs run) = (first + m)%nat ∧
    retries (st run) = retries s + Z.of_nat m ∧
    (m ≤ k ≤ m + 1)%nat ∧
    (k ≤ retry_of ro - c)%nat ∧
    backoff_sleeps (evs run) = backoff_of ro <$> seq c k.

(** *** transactionObject.js *)

(** The objects that [new TransactionObject] has made, the object of the
    reference [i] at the place [i], and the static [_ids], absent before the
    first construction. *)
Record Objects := mkObjects {
  objects : list TxMeta;
  _ids : option (gmap Z ref)
}.

(** [new TransactionObject(txMeta)]: the object registered under the id of
    [txMeta], or else a new one with the fields of [txMeta], registered when
    it has an id. *)
Definition TransactionObject_new (txMeta : TxMeta) (o : Objects) : ref * Objects :=
  let id := tx_id txMeta in
  let known :=
    if truthy id then
      match _ids o with
      | Some ids => ids !! default 0 id
      | None => None
      end
    else None in
  match known with
  | Some this => (this, o)
  | None =>
      let ids := default ∅ (_ids o) in
      let this := length (objects o) in
      (this,
       mkObjects (objects o ++ [txMeta])
         (Some (if truthy id then <[default 0 id := this]> ids else ids)))
  end.

(** *** interface.js: the methods of the proxy *)

(** An item of the ABI, as far as [_setProxyMethods] reads it; [type] and
    [stateMutability] may be missing. *)
Record AbiItem := mkAbiItem {
  abi_name : string;
  abi_type : option string;
  abi_stateMutability : option string
}.

Definition _callStates : list string := ["pure"; "view"].

(** [_callStates.includes(item.stateMutability)]. *)
Definition in_callStates (item : AbiItem) : bool :=
  match abi_stateMutability item with
  | Some m => bool_decide (m ∈ _callStates)
  | None => false
  end.

(** [item.type === t]. *)
Definition has_type (t : string) (item : AbiItem) : bool :=
  bool_decide (abi_type item = Some t).

Record ProxyMethods := mkProxyMethods {
  _sent : list string;
  _call : list string;
  _events : list string;
  _misc : list string;
  proxyMethods : list string
}.

Definition _setProxyMethods (abi : list AbiItem) : ProxyMethods :=
  let sent :=
    abi_name <$>
      filter (λ item, in_callStates item = false ∧ has_type "function" item = true) abi in
  let called :=
    abi_name <$>
      filter (λ item, in_callStates item = true ∧ has_type "function" item = true) abi in
  let events :=
    (λ item, "on" +:+ abi_name item) <$> filter (λ item, has_type "event" item = true) abi in
  let misc := ["_deploy"] in
  mkProxyMethods sent called events misc (sent ++ misc ++ called ++ events).

(** *** transactionManager.js: getTxMeta *)

(** What [getTxMeta] reads of the interface [obj], after its awaits: the
    wallet, the names of [obj._call], the gas limit, the gas price that is
    set on the interface, if any, the address of the contract, and
    [Math.ceil(blockGasPrice * 1.2)], which the code computes in
    double-precision arithmetic from the node's gas price. *)
Record MetaEnv := mkMetaEnv {
  me_wallet : string;
  me_call : list string;
  me_gasLimit : Z;
  me_gasPrice : option Z;
  me_address : option string;
  me_blockGasPrice120 : Z
}.

(** The fields that [getTxMeta] hands to [new TransactionObject], for a
    call with the arguments [methodArgs] and, when the last argument is a
    plain object, the options in it. *)
Definition getTxMeta (obj : MetaEnv) (method : string) (methodArgs : list string)
    (options : option Options) : TxMeta :=
  let options := default emptyOptions options in
  let from := if bool_decide (opt_from options = "") then me_wallet obj else opt_from options in
  if bool_decide (method ∈ me_call obj) then
    mkTxMeta None from (me_address obj) method methodArgs
      (mkOptions from (opt_gas options) (opt_gasPrice options) (opt_nonce options)
         (opt_value options) (opt_data options))
      call None None None None None None None None
  else
    let gas := js_or (opt_gas options) (me_gasLimit obj) in
    let gasPrice :=
      if truthy (opt_gasPrice options) then opt_gasPrice options
      else if truthy (me_gasPrice obj) then me_gasPrice obj
      else Some (me_blockGasPrice120 obj) in
    mkTxMeta None from (me_address obj) method methodArgs
      (mkOptions from (Some gas) gasPrice (opt_nonce options)
         (opt_value options) (opt_data options))
      send None None None None None None None None.

(** The store after holds the records of the store before, in their
    places, and maybe more behind them. *)
Definition grows (s s' : State) : Prop := tx s `prefix_of` tx s'.

(** ** Example inputs *)

(** [toChecksum] on addresses that are in checksum form already. *)
Definition toChecksum_fixed (a : string) : string := a.

Definition addrA : string := "0x52908400098527886E0F7030069857D2E4169EE7".
Definition addrB : string := "0x8617E340B3D01FA5F11F306F4090FD50E238070D".

(** A [send] record as [getTxMeta] builds it, with the caller's nonce. *)
Definition fresh (from : string) (nonce : option Z) : TxMeta :=
  mkTxMeta None from (Some "0xde0B295669a9FD93d5F28D9Ec85E40f4cb697BAe") "transfer"
    ["0x27b1fdb04752bbc536007a920d24acb045561c26"; "1000"]
    (mkOptions from (Some 6000000) (Some 3000000000) nonce None None)
    send None None None None None None None None.

(** A record of [from] with id [i], in the given status and with nonce [n]. *)
Definition recorded (from : string) (i : Z) (status : Status) (n : Z) : TxMeta :=
  mkTxMeta (Some i) from (Some "0xde0B295669a9FD93d5F28D9Ec85E40f4cb697BAe") "transfer"
    ["0x27b1fdb04752bbc536007a920d24acb045561c26"; "1000"]
    (mkOptions from (Some 6000000) (Some 3000000000) (Some n) None None)
    send (Some n) (Some status) (Some 0) (Some 0) None None None None.

(** The objects [ms] at the references [0, 1, ...], the first [k] of them in
    the store of a manager whose counter stands at [idCounter]. *)
Definition with_objects (ms : list TxMeta) (k : nat) (idCounter : Z) : State :=
  mkState (list_to_map (imap (λ i m, (i, m)) ms)) (seq 0 k) 0 0 0 ∅ ∅ idCounter 1000.

(** A new manager and one fresh record of [addrA]. *)
Definition s_one : State := with_objects [fresh addrA None] 0 7.


(** 100 submitted records of [addrB], and a fresh record of [addrA]. *)
Definition s_full : State :=
  with_objects
    (((λ i, recorded addrB (Z.of_nat i + 1) submitted (Z.of_nat i)) <$> seq 0 100)
       ++ [fresh addrA None]) 100 101.


(** The transaction with nonce 0 of [addrA] is in flight, and the caller
    asks for 0 again, to replace it. *)
Definition s_replace : State :=
  with_objects [recorded addrA 1 submitted 0; fresh addrA (Some 0)] 1 2.

(** Confirmed records of [addrA] with nonces 3 and 5, one of [addrB]. *)
Definition s_confirmed : State :=
  with_objects
    [recorded addrA 1 confirmed 3; recorded addrB 2 confirmed 8;
     recorded addrA 3 confirmed 5; fresh addrA None] 3 4.

(** The exclusion set of [addrA] holds 5. *)
Definition s_excluded : State :=
  set_nonceInUse {[ addrA := mkFLA [Some 5] 200 true ]} s_one.

(** The exclusion set of [addrA] is full, with the nonces 0 to 199, and a
    record of [addrA] has failed with the nonce 200. *)
Definition s_crowded : State :=
  set_nonceInUse
    {[ addrA := mkFLA ((λ i, Some (Z.of_nat i)) <$> seq 0 200) 200 true ]}
    (with_objects [recorded addrA 1 failed 200] 1 2).

Definition mining_timeout : Error :=
  mkError "Transaction was not mined within 750 seconds, please make sure your transaction was properly sent.".
Definition nonce_too_low : Error :=
  mkError "Returned error: nonce too low".
Definition reverted : Error :=
  mkError "Transaction has been reverted by the EVM".

(** The node counts [n] transactions, nothing else settles, and [send]
    ends as given. *)
Definition env_of (n : Z) (hash : option string) (result : Receipt + Error) : SubmitEnv :=
  mkSubmitEnv (None, None) (NetCount n) [] hash result.

(** [retry: 1], a constant gas price, and [verify] as given. *)
Definition retry_once (verify : option (nat → bool → bool)) : RetryOptions :=
  mkRetryOptions None (Some 1%nat) (λ _, 3000000000) verify.

(** A read-only call of [addrA], as [getTxMeta] builds it. *)
Definition asked : TxMeta :=
  mkTxMeta None addrA (Some "0xde0B295669a9FD93d5F28D9Ec85E40f4cb697BAe") "balanceOf"
    ["0x27b1fdb04752bbc536007a920d24acb045561c26"]
    (mkOptions addrA None None None None None)
    call None None None None None None None None.

(** A new manager and the call. *)
Definition s_call : State := with_objects [asked] 0 7.

(** The node answers the call; nothing else is asked of it. *)
Definition env_answer : SubmitEnv :=
  mkSubmitEnv (None, Some (Value "1000")) (NetCount 0) [] None (inr reverted).

(** A new manager whose id counter has been drawn as 0, and a fresh record. *)
Definition s_zero : State := with_objects [fresh addrA None] 0 0.

(** A receipt of block 12 with the gas of a transfer. *)
Definition mined : Receipt := mkReceipt 12 (Some 21000).

(** A token with a view function, a function that writes, and an event. *)
Definition token_abi : list AbiItem :=
  [mkAbiItem "balanceOf" (Some "function") (Some "view");
   mkAbiItem "transfer" (Some "function") (Some "nonpayable");
   mkAbiItem "Transfer" (Some "event") None].

(** The interface of the token, without a gas price of its own. *)
Definition token_interface : MetaEnv :=
  mkMetaEnv addrA (_call (_setProxyMethods token_abi)) 6000000 None
    (Some "0xde0B295669a9FD93d5F28D9Ec85E40f4cb697BAe") 3600000000.

(** * Properties *)

(** ** Runs *)

Section Runs.
Context {A B : Type}.
Implicit Types (m : M A) (k : A → M B) (s : State).

Lemma run_eta (r : Run A) : mkRun (out r) (st r) (evs r) = r.
Proof. by destruct r. Qed.

Lemma bind_ret (a : A) k s : bind (ret a) k s = k a s.
Proof. unfold bind, ret. simpl. by destruct (k a s). Qed.

Lemma bind_throw e k s : bind (throw e) k s = mkRun (Throw e) s [].
Proof. done. Qed.

Lemma bind_blocked k s : bind blocked k s = mkRun Blocked s [].
Proof. done. Qed.

Lemma bind_Ok m k s a :
  out (m s) = Ok a →
  bind m k s = mkRun (out (k a (st (m s)))) (st (k a (st (m s))))
                 (evs (m s) ++ evs (k a (st (m s)))).
Proof. intros H. unfold bind. by rewrite H. Qed.

Lemma bind_Ok_inv m k s b :
  out (bind m k s) = Ok b →
  ∃ a, out (m s) = Ok a ∧ out (k a (st (m s))) = Ok b.
Proof. unfold bind. destruct (out (m s)) eqn:E; simpl; eauto; done. Qed.

Lemma bind_not_Ok m k s :
  (∀ a, out (m s) ≠ Ok a) → bind m k s = mkRun
    (match out (m s) with Ok _ => Blocked | Throw e => Throw e | Blocked => Blocked end)
    (st (m s)) (evs (m s)).
Proof. intros H. unfold bind. destruct (out (m s)) eqn:E; try done. by destruct (H a). Qed.
End Runs.

Section RunsUnit.
Context {B : Type}.
Implicit Types (s : State).

Lemma bind_get (k : State → M B) s : bind get k s = k s s.
Proof. unfold bind, get. simpl. by destruct (k s s). Qed.

Lemma bind_modify f (k : unit → M B) s : bind (modify f) k s = k tt (f s).
Proof. unfold bind, modify. simpl. by destruct (k tt (f s)). Qed.

Lemma bind_emit e (k : unit → M B) s :
  bind (emit e) k s = mkRun (out (k tt s)) (st (k tt s)) (e :: evs (k tt s)).
Proof. done. Qed.

Lemma bind_sleep who ms (k : unit → M B) s :
  bind (sleep who ms) k s =
    let r := k tt (set_clock (clock s + ms) s) in
    mkRun (out r) (st r) (EvSleep who ms :: evs r).
Proof.
  unfold sleep, bind, emit, modify. simpl.
  by destruct (k tt (set_clock (clock s + ms) s)).
Qed.
End RunsUnit.

Section Framed.
Context (R : State → State → Prop) `{!Reflexive R} `{!Transitive R}.

Lemma framed_ret {A} (a : A) : framed R (ret a).
Proof. intros s. simpl. reflexivity. Qed.
Lemma framed_throw {A} e : framed R (@throw A e).
Proof. intros s. simpl. reflexivity. Qed.
Lemma framed_blocked {A} : framed R (@blocked A).
Proof. intros s. simpl. reflexivity. Qed.
Lemma framed_get : framed R get.
Proof. intros s. simpl. reflexivity. Qed.
Lemma framed_emit e : framed R (emit e).
Proof. intros s. simpl. reflexivity. Qed.
Lemma framed_modify f : (∀ s, R s (f s)) → framed R (modify f).
Proof. intros H s. apply H. Qed.
Lemma framed_bind {A B} (m : M A) (k : A → M B) :
  framed R m → (∀ a, framed R (k a)) → framed R (bind m k).
Proof.
  intros Hm Hk s. unfold bind. specialize (Hm s).
  destruct (out (m s)) eqn:E; simpl; try done.
  etrans; [exact Hm | apply Hk].
Qed.
Lemma framed_sleep who ms :
  (∀ s c, R s (set_clock c s)) → framed R (sleep who ms).
Proof.
  intros H. unfold sleep. apply framed_bind; [apply framed_emit |].
  intros _. apply framed_modify. intros s. apply H.
Qed.
End Framed.


(** ** The bounded array *)

Section FixedLengthArrayFacts.
Context {A : Type} `{EqDecision A}.
Implicit Types (a : FixedLengthArray A) (x : A).

Lemma fla_push_unique_known x a :
  unique a = true → x ∈ items a → fla_push [x] a = a.
Proof.
  intros Hu Hin. unfold fla_push, fla_add. rewrite Hu.
  rewrite filter_cons_False by (intros Hn; exact (Hn Hin)).
  rewrite filter_nil. simpl.
  unfold _truncate. simpl. rewrite andb_false_r.
  destruct a; unfold fla_append; simpl. by rewrite app_nil_r.
Qed.

Lemma fla_push_unique_new x a :
  unique a = true → x ∉ items a →
  items (fla_push [x] a) =
    (if negb (Nat.eqb (lengthLimit a) 0) && Nat.leb (lengthLimit a) (length (items a))
     then drop 1 (items a) else items a) ++ [x].
Proof.
  intros Hu Hnin. unfold fla_push, fla_add. rewrite Hu.
  rewrite filter_cons_True by done.
  rewrite filter_nil. simpl. rewrite filter_nil.
  unfold _truncate. simpl. rewrite andb_true_r.
  by destruct (negb (Nat.eqb (lengthLimit a) 0) && Nat.leb (lengthLimit a) (length (items a))).
Qed.

Lemma fla_push_limit (args : list A) a :
  lengthLimit (fla_push args a) = lengthLimit a.
Proof.
  unfold fla_push, fla_add, fla_append, _truncate.
  repeat (case_match; simpl); done.
Qed.

Lemma fla_push_unique_flag (args : list A) a :
  unique (fla_push args a) = unique a.
Proof.
  unfold fla_push, fla_add, fla_append, _truncate.
  repeat (case_match; simpl); done.
Qed.

Lemma fla_push_includes x a : unique a = true → x ∈ items (fla_push [x] a).
Proof.
  intros Hu. destruct (decide (x ∈ items a)) as [Hin | Hnin].
  - by rewrite fla_push_unique_known.
  - rewrite fla_push_unique_new by done. apply elem_of_app. right. by apply list_elem_of_singleton.
Qed.

Lemma NoDup_drop (l : list A) (n : nat) : NoDup l → NoDup (drop n l).
Proof.
  intros Hl. rewrite <- (take_drop n l) in Hl. by apply NoDup_app in Hl as (_ & _ & Hl).
Qed.

Lemma elem_of_drop x (l : list A) (n : nat) : x ∈ drop n l → x ∈ l.
Proof.
  intros Hx. rewrite <- (take_drop n l). apply elem_of_app. by right.
Qed.

Lemma NoDup_snoc_fresh (l : list A) x : NoDup l → x ∉ l → NoDup (l ++ [x]).
Proof.
  intros Hl Hx. apply NoDup_app. split_and!; [done | | apply NoDup_singleton].
  intros y Hy Hy'. apply list_elem_of_singleton in Hy'. by subst.
Qed.
End FixedLengthArrayFacts.

Lemma fla_push_exclusion_ok (x : option Z) (a : FixedLengthArray (option Z)) :
  exclusion_ok a → exclusion_ok (fla_push [x] a).
Proof.
  intros (Hnd & Hlen & Hlim & Hu). unfold exclusion_ok.
  rewrite fla_push_limit, fla_push_unique_flag. split_and!; try done.
  - destruct (decide (x ∈ items a)) as [Hin | Hnin].
    + by rewrite fla_push_unique_known.
    + rewrite fla_push_unique_new by done. apply NoDup_snoc_fresh.
      * case_match; [by apply NoDup_drop | done].
      * case_match; [| done]. intros Hx. by apply elem_of_drop in Hx.
  - destruct (decide (x ∈ items a)) as [Hin | Hnin].
    + by rewrite fla_push_unique_known.
    + rewrite fla_push_unique_new by done. rewrite length_app. simpl.
      rewrite Hlim.
      destruct (Nat.leb 200 (length (items a))) eqn:E; simpl.
      * rewrite length_drop. lia.
      * apply Nat.leb_gt in E. lia.
Qed.

(** ** The scan of [_getHighestContinuousFrom] *)

Lemma scan_ge fuel used h : h ≤ scan fuel used h.
Proof.
  revert h. induction fuel as [| fuel IH]; intros h; simpl; [lia |].
  destruct (used h); [| lia]. specialize (IH (h + 1)). lia.
Qed.

Lemma scan_skipped fuel used h k :
  h ≤ k < scan fuel used h → used k = true.
Proof.
  revert h. induction fuel as [| fuel IH]; intros h; simpl; [lia |].
  destruct (used h) eqn:E; [| lia].
  intros Hk. destruct (decide (k = h)) as [-> | Hne]; [done |].
  apply (IH (h + 1)). lia.
Qed.

(** When every value in use is among the [l] at hand, more rounds than [l]
    is long are enough: the scan stops on a value that is not in use. *)
Lemma scan_not_used (l : list (option Z)) fuel used h :
  (∀ k, h ≤ k → used k = true → Some k ∈ l) →
  (length l < fuel)%nat →
  used (scan fuel used h) = false.
Proof.
  revert l h. induction fuel as [| fuel IH]; intros l h Hl Hlen; [lia |].
  simpl. destruct (used h) eqn:E; [| done].
  assert (Some h ∈ l) as Hin by (apply Hl; [lia | done]).
  apply (IH (filter (λ x, x ≠ Some h) l)).
  - intros k Hk Hu. apply list_elem_of_filter. split.
    + intros [= ->]. lia.
    + apply Hl; [lia | done].
  - assert (¬ (Some h ≠ Some h)) as Hn by (intros Hc; by apply Hc).
    pose proof (length_filter_lt (λ x, x ≠ Some h) l (Some h) Hin Hn). lia.
Qed.


(** ** The filters of the store *)

Lemma filterTxByStatus_all (status : Status) (s : State) :
  _filterTxByStatus None status s =
    filter (λ q, tx_status (deref s q) = Some status) (tx s).
Proof. done. Qed.



(** ** The nonce coordinator *)

Lemma js_or_Some_0 (z : Z) : js_or (Some z) 0 = z.
Proof. unfold js_or. destruct (Z.eqb_spec z 0); lia. Qed.

Lemma fold_left_Z_max_le (l : list Z) (n : Z) : n ≤ fold_left Z.max l n.
Proof.
  revert n. induction l as [| x l IH]; intros n; simpl; [lia |].
  specialize (IH (Z.max n x)). lia.
Qed.




Section Coordinator.
Variable toChecksum : string → string.

Lemma getHighestContinuousFrom_ge txList start a s :
  start ≤ _getHighestContinuousFrom toChecksum txList start a s.
Proof. apply scan_ge. Qed.

(** The value found is in use neither by a record of the list nor in the
    exclusion set: the loop has run to its end. *)
Lemma getHighestContinuousFrom_free txList start a s :
  let a' := if bool_decide (a = "") then a else toChecksum a in
  inUseAt ((λ q, tx_nonce (deref s q)) <$> txList) a' (_nonceInUse s !! a')
    (_getHighestContinuousFrom toChecksum txList start a s) = false.
Proof.
  intros a'. unfold _getHighestContinuousFrom. fold a'.
  set (nonces := (λ q, tx_nonce (deref s q)) <$> txList).
  set (inUse := _nonceInUse s !! a').
  apply (scan_not_used (nonces ++ from_option items [] inUse)).
  - intros k _ Hk. unfold inUseAt in Hk. apply elem_of_app.
    apply orb_true_iff in Hk as [Hk | Hk].
    + left. by apply bool_decide_eq_true in Hk.
    + right. apply andb_true_iff in Hk as [_ Hk].
      destruct inUse as [arr |]; [| done]. simpl.
      by apply bool_decide_eq_true in Hk.
  - rewrite length_app. lia.
Qed.

Lemma nextNonceOf_eq a n s :
  nextNonceOf toChecksum a n s =
    _getHighestContinuousFrom toChecksum
      (getSubmittedTransactions (Some a) s ++
       filter (λ q, nonce_positive (deref s q) = true) (getPendingTransactions (Some a) s))
      (Z.max n (_getHighestLocallyConfirmed a s)) a s.
Proof.
  unfold nextNonceOf. rewrite js_or_Some_0.
  match goal with |- Z.max _ ?R = _ => pose proof (getHighestContinuousFrom_ge
    (getSubmittedTransactions (Some a) s ++
       filter (λ q, nonce_positive (deref s q) = true) (getPendingTransactions (Some a) s))
    (Z.max n (_getHighestLocallyConfirmed a s)) a s) end.
  lia.
Qed.

Lemma nextNonceOf_ge a n s :
  Z.max n (_getHighestLocallyConfirmed a s) ≤ nextNonceOf toChecksum a n s.
Proof. rewrite nextNonceOf_eq. apply getHighestContinuousFrom_ge. Qed.


(** Nor is it in the exclusion set of [a]. *)
Lemma nextNonceOf_not_excluded a n s arr :
  a ≠ "" → toChecksum a = a →
  _nonceInUse s !! a = Some arr →
  Some (nextNonceOf toChecksum a n s) ∉ items arr.
Proof.
  intros Ha Hfix Harr Hin. rewrite nextNonceOf_eq in Hin.
  match type of Hin with Some (_getHighestContinuousFrom _ ?l ?st _ _) ∈ _ =>
    pose proof (getHighestContinuousFrom_free l st a s) as Hfree end.
  simpl in Hfree. rewrite bool_decide_eq_false_2 in Hfree by done.
  rewrite Hfix, Harr in Hfree. unfold inUseAt in Hfree.
  apply orb_false_iff in Hfree as [_ Hfree].
  rewrite bool_decide_eq_false_2 in Hfree by done. simpl in Hfree.
  by apply bool_decide_eq_false in Hfree.
Qed.

Lemma nextNonceOf_lockMap a n l s :
  nextNonceOf toChecksum a n (set_lockMap l s) = nextNonceOf toChecksum a n s.
Proof. done. Qed.

(** [getNonce] on a free mutex: it takes the mutex and returns. *)
Lemma getNonce_returns A n s :
  _lockMap s !! toChecksum A ≠ Some true →
  getNonce toChecksum A (NetCount n) s =
    mkRun (Ok (nextNonceOf toChecksum (toChecksum A) n s, toChecksum A))
      (set_lockMap (<[toChecksum A := true]> (_lockMap s)) s)
      [EvNonce (toChecksum A) (nextNonceOf toChecksum (toChecksum A) n s)].
Proof.
  intros Hfree. unfold getNonce, _getLock, _lookupMutex, bind. simpl.
  destruct (_lockMap s !! toChecksum A) as [[|] |] eqn:E; simpl; try done.
  unfold set_lockMap at 1. simpl. by rewrite insert_insert_eq.
Qed.

(** [getNonce] on a held mutex: it stays suspended and does nothing. *)
Lemma getNonce_blocked A net s :
  _lockMap s !! toChecksum A = Some true →
  getNonce toChecksum A net s = mkRun Blocked s [].
Proof.
  intros Hheld. unfold getNonce, _getLock, _lookupMutex, bind. simpl.
  by rewrite Hheld.
Qed.

(** A failing query gives the mutex back before the error goes up. *)
Lemma getNonce_error A e s :
  _lockMap s !! toChecksum A ≠ Some true →
  out (getNonce toChecksum A (NetError e) s) = Throw (mkError ("Error: " +:+ message e)) ∧
  _lockMap (st (getNonce toChecksum A (NetError e) s)) !! toChecksum A = Some false.
Proof.
  intros Hfree. unfold getNonce, _getLock, _lookupMutex, bind. simpl.
  destruct (_lockMap s !! toChecksum A) as [[|] |] eqn:E; simpl; try done.
  - split; [done |]. by rewrite lookup_insert_eq.
  - split; [done |]. by rewrite lookup_insert_eq.
Qed.
End Coordinator.


(** ** The exclusion set (C10) *)

Section Exclusion.
Variable toChecksum : string → string.

(** What [_checkError] does to the exclusion sets. *)
Lemma checkError_exclusion (err : Error) (A : string) (r : ref) (s : State) :
  exclusion_sets_ok s →
  let s' := exec (_checkError toChecksum err A r) s in
  let x := tx_nonce (deref s r) in
  let old := from_option items [] (_nonceInUse s !! toChecksum A) in
  let new := from_option items [] (_nonceInUse s' !! toChecksum A) in
  exclusion_sets_ok s' ∧
  (∀ B, B ≠ toChecksum A → _nonceInUse s' !! B = _nonceInUse s !! B) ∧
  (stuckNonce (message err) = false → _nonceInUse s' = _nonceInUse s) ∧
  (stuckNonce (message err) = true →
     x ∈ new ∧
     (x ∈ old → new = old) ∧
     (x ∉ old → (length old < 200)%nat → new = old ++ [x]) ∧
     (x ∉ old → length old = 200%nat → new = drop 1 old ++ [x])).
Proof.
  intros Hok s' x old new. subst s'. unfold exec, _checkError, modify in *. simpl in *.
  fold x in new |- *.
  destruct (stuckNonce (message err)) eqn:Hstuck; simpl in *; [| by split_and!].
  set (arr := default (FixedLengthArray_new 200 true) (_nonceInUse s !! toChecksum A)) in *.
  assert (exclusion_ok arr) as Harr.
  { subst arr. destruct (_nonceInUse s !! toChecksum A) as [a |] eqn:E; simpl.
    - by apply (Hok (toChecksum A)).
    - split_and!; [apply NoDup_nil_2 | simpl; lia | done | done]. }
  assert (old = items arr) as Hold.
  { subst old arr. by destruct (_nonceInUse s !! toChecksum A). }
  assert (new = items (fla_push [x] arr)) as Hnew.
  { subst new. by rewrite lookup_insert_eq. }
  destruct Harr as (Hnd & Hlen & Hlim & Hu).
  split_and!.
  - intros B a HB. simpl in HB. destruct (decide (B = toChecksum A)) as [-> | Hne].
    + rewrite lookup_insert_eq in HB. injection HB as <-.
      by apply fla_push_exclusion_ok.
    + rewrite lookup_insert_ne in HB by done. by apply (Hok B).
  - intros B HB. by rewrite lookup_insert_ne.
  - done.
  - intros _. rewrite Hnew, Hold. split_and!.
    + by apply fla_push_includes.
    + intros Hin. by rewrite fla_push_unique_known.
    + intros Hnin Hlt. rewrite fla_push_unique_new by done. rewrite Hlim.
      replace (Nat.leb 200 (length (items arr))) with false; [done |].
      symmetry. apply Nat.leb_gt. lia.
    + intros Hnin Heq. rewrite fla_push_unique_new by done. rewrite Hlim, Heq. done.
Qed.

Lemma exclusion_sets_ok_new (idCounter now : Z) :
  exclusion_sets_ok (TransactionManager_new idCounter now).
Proof. intros A a H. simpl in H. by rewrite lookup_empty in H. Qed.
End Exclusion.

(** ** The bounds on the nonce (C2, C5) *)

Section Bounds.
Variable toChecksum : string → string.



(** A value of the exclusion set of [A] is not what [getNonce] returns. *)
Lemma getNonce_skips_excluded (A : string) (n k : Z) (s : State)
    (arr : FixedLengthArray (option Z)) :
  toChecksum (toChecksum A) = toChecksum A →
  toChecksum A ≠ "" →
  _lockMap s !! toChecksum A ≠ Some true →
  _nonceInUse s !! toChecksum A = Some arr →
  Some k ∈ items arr →
  ∃ nextNonce release,
    out (getNonce toChecksum A (NetCount n) s) = Ok (nextNonce, release) ∧
    n ≤ nextNonce ∧ nextNonce ≠ k.
Proof.
  intros Hidem Ha Hfree Harr Hk. rewrite getNonce_returns by done. simpl.
  eexists _, _. split; [done |].
  pose proof (nextNonceOf_ge toChecksum (toChecksum A) n s) as Hge.
  pose proof (nextNonceOf_not_excluded toChecksum (toChecksum A) n s arr Ha Hidem Harr)
    as Hex.
  split; [lia |]. intros Heq. rewrite Heq in Hex. done.
Qed.

(** C5. The exclusion set of [A] holds 5 and the node counts 5
    transactions of [A]: [getNonce] returns more than 5. *)
Theorem excluded_nonce_skipped (A : string) (s : State)
    (arr : FixedLengthArray (option Z)) :
  toChecksum (toChecksum A) = toChecksum A →
  toChecksum A ≠ "" →
  _lockMap s !! toChecksum A ≠ Some true →
  _nonceInUse s !! toChecksum A = Some arr →
  Some 5 ∈ items arr →
  ∃ nextNonce release,
    out (getNonce toChecksum A (NetCount 5) s) = Ok (nextNonce, release) ∧
    5 < nextNonce.
Proof.
  intros Hidem Ha Hfree Harr H5.
  destruct (getNonce_skips_excluded A 5 5 s arr Hidem Ha Hfree Harr H5)
    as (nextNonce & release & Ho & Hge & Hne).
  exists nextNonce, release. split; [done | lia].
Qed.

(** The scenario from its start: the nonce 5 of a record gets into the
    exclusion set through an error that says "nonce too low", and the next
    [getNonce] steps over it. *)
Lemma nonce_too_low_excluded (A : string) (s : State) (r : ref) (err : Error) :
  toChecksum (toChecksum A) = toChecksum A →
  toChecksum A ≠ "" →
  _lockMap s !! toChecksum A ≠ Some true →
  exclusion_sets_ok s →
  includes (message err) "nonce too low" = true →
  tx_nonce (deref s r) = Some 5 →
  ∃ nextNonce release,
    out (getNonce toChecksum A (NetCount 5) (exec (_checkError toChecksum err A r) s))
      = Ok (nextNonce, release) ∧
    5 < nextNonce.
Proof.
  intros Hidem Ha Hfree Hok Hmsg Hr.
  pose proof (checkError_exclusion toChecksum err A r s Hok) as (_ & _ & _ & Hpush).
  simpl in Hpush. rewrite Hr in Hpush.
  assert (stuckNonce (message err) = true) as Hstuck.
  { unfold stuckNonce. by rewrite Hmsg. }
  destruct (Hpush Hstuck) as (Hin & _).
  destruct (_nonceInUse (exec (_checkError toChecksum err A r) s) !! toChecksum A)
    as [arr |] eqn:E; simpl in Hin; [| by apply elem_of_nil in Hin].
  assert (_lockMap (exec (_checkError toChecksum err A r) s) !! toChecksum A ≠ Some true)
    as Hfree'.
  { unfold exec, _checkError, modify. simpl. by destruct (stuckNonce (message err)). }
  destruct (getNonce_skips_excluded A 5 5 (exec (_checkError toChecksum err A r) s) arr
              Hidem Ha Hfree' E Hin) as (nextNonce & release & Ho & Hge & Hne).
  exists nextNonce, release. split; [done | lia].
Qed.
End Bounds.


(** ** The record store (C4) *)

Lemma deref_mutate (r : ref) f (s : State) : deref (mutate r f s) r = f (deref s r).
Proof. unfold deref, mutate. simpl. by rewrite lookup_total_insert_eq. Qed.

Lemma deref_mutate_ne (r q : ref) f (s : State) :
  q ≠ r → deref (mutate r f s) q = deref s q.
Proof. intros H. unfold deref, mutate. simpl. by rewrite lookup_total_insert_ne. Qed.

Lemma deref_mutate_id (r q : ref) f (s : State) :
  (∀ m, tx_id (f m) = tx_id m) →
  tx_id (deref (mutate r f s) q) = tx_id (deref s q).
Proof.
  intros H. destruct (decide (q = r)) as [-> | Hne].
  - by rewrite deref_mutate.
  - by rewrite deref_mutate_ne.
Qed.

Lemma over_same {X} (a : option X) : over a a = a.
Proof. by destruct a. Qed.

Lemma assign_same (m : TxMeta) : assign m m = m.
Proof. destruct m. unfold assign. simpl. by rewrite !over_same. Qed.

Lemma assign_id (source target : TxMeta) :
  tx_id target = tx_id source → tx_id (assign source target) = tx_id target.
Proof. intros H. simpl. rewrite H. apply over_same. Qed.

Global Instance ids_frame_refl : Reflexive ids_frame.
Proof. by intros s. Qed.
Global Instance ids_frame_trans : Transitive ids_frame.
Proof. intros s1 s2 s3 [H1 H1'] [H2 H2']. split; [congruence |]. intros q. by rewrite H2'. Qed.

Lemma ids_frame_mutate (r : ref) f (s : State) :
  (∀ m, tx_id (f m) = tx_id m) → ids_frame s (mutate r f s).
Proof. intros H. split; [done |]. intros q. by apply deref_mutate_id. Qed.

Lemma ids_frame_found (r : ref) (s s' : State) :
  ids_frame s s' → found r s → found r s'.
Proof.
  intros [Htx Hid] (q & Hq & Hqr). exists q. rewrite Htx, !Hid. done.
Qed.

(** [updateTx] changes neither the store nor any id, whatever it ends in. *)
Lemma updateTx_framed (r : ref) (status : Status) : framed ids_frame (updateTx r status).
Proof.
  intros s. unfold updateTx.
  set (s1 := mutate r _ s).
  assert (ids_frame s s1) as H1 by (by apply ids_frame_mutate).
  destruct (list_find _ _) as [[i q] |] eqn:E; simpl; [| done].
  etrans; [exact H1 |]. apply list_find_Some in E as (_ & Hq & _).
  split; [done |]. intros q'.
  destruct (decide (q' = q)) as [-> | Hne].
  - rewrite deref_mutate. by apply assign_id.
  - by rewrite deref_mutate_ne.
Qed.

(** [updateTx] finds the record when one with the id is in the store. *)
Lemma updateTx_found (r : ref) (status : Status) (s : State) :
  found r s → out (updateTx r status s) = Ok tt.
Proof.
  intros (q & Hq & Hqr). unfold updateTx.
  set (s1 := mutate r _ s).
  destruct (list_find _ _) as [[i q'] |] eqn:E; simpl; [done |].
  apply list_find_None in E. rewrite Forall_forall in E.
  exfalso. apply (E q); [done |].
  subst s1. rewrite !deref_mutate_id by done. done.
Qed.

Lemma updateTx_status (r : ref) (status : Status) (s : State) :
  tx_status (deref (st (updateTx r status s)) r) = Some status.
Proof.
  unfold updateTx. set (s1 := mutate r _ s).
  assert (tx_status (deref s1 r) = Some status) as H1.
  { subst s1. by rewrite deref_mutate. }
  destruct (list_find _ _) as [[i q] |] eqn:E; simpl; [| done].
  destruct (decide (r = q)) as [<- | Hne].
  - rewrite deref_mutate. simpl. by rewrite H1.
  - by rewrite deref_mutate_ne.
Qed.

Lemma addTx_update (r : ref) (s : State) :
  truthy (tx_id (deref s r)) = true →
  addTx r s =
    updateTx r pending
      (mutate r (λ m, set_time (Some (js_or (tx_time m) (clock s))) m)
         (mutate r (λ m, set_data None (set_txHash None m)) s)).
Proof.
  intros H. unfold addTx. rewrite bind_modify, bind_get, bind_modify.
  rewrite deref_mutate_id by done. by rewrite H.
Qed.

Lemma addTx_alloc (r : ref) (s : State) :
  truthy (tx_id (deref s r)) = false →
  addTx r s =
    let c := Z.rem (_idCounter s) MAX_SAFE_INTEGER in
    let s2 := mutate r (λ m, set_time (Some (js_or (tx_time m) (clock s))) m)
                (mutate r (λ m, set_data None (set_txHash None m)) s) in
    let s4 := mutate r (set_id (Some c)) (set_idCounter (c + 1) s2) in
    mkRun (Ok tt) (set_tx (tx s ++ [r]) s4) [].
Proof.
  intros H. unfold addTx. rewrite bind_modify, bind_get, bind_modify.
  rewrite deref_mutate_id by done. rewrite H.
  unfold bind, _createRandomId, modify. simpl. done.
Qed.

Lemma updateTx_Ok_found (r : ref) (status : Status) (s : State) :
  out (updateTx r status s) = Ok tt → found r s.
Proof.
  unfold updateTx. set (s1 := mutate r _ s).
  destruct (list_find _ _) as [[i q] |] eqn:F; simpl; [| done].
  intros _. apply list_find_Some in F as (Hi & Hq & _).
  exists q. split.
  - apply list_elem_of_lookup. by exists i.
  - subst s1. by rewrite !deref_mutate_id in Hq.
Qed.

(** After [addTx] has returned, a record with the id of [r] is in the
    store. *)
Lemma addTx_found (r : ref) (s : State) :
  out (addTx r s) = Ok tt → found r (st (addTx r s)).
Proof.
  destruct (truthy (tx_id (deref s r))) eqn:E.
  - rewrite addTx_update by done. intros Hok.
    eapply ids_frame_found; [apply updateTx_framed |].
    by apply updateTx_Ok_found in Hok.
  - rewrite addTx_alloc by done. intros _. simpl.
    exists r. split; [| done]. apply elem_of_app. right. by apply list_elem_of_singleton.
Qed.






(** ** Projections of a bound run *)

Section BindProjections.
Context {A B : Type}.
Implicit Types (m : M A) (k : A → M B) (s : State).

Lemma out_bind_Ok m k s a :
  out (m s) = Ok a → out (bind m k s) = out (k a (st (m s))).
Proof. intros H. by rewrite (bind_Ok _ _ _ _ H). Qed.

Lemma evs_bind_Ok m k s a :
  out (m s) = Ok a → evs (bind m k s) = evs (m s) ++ evs (k a (st (m s))).
Proof. intros H. by rewrite (bind_Ok _ _ _ _ H). Qed.

Lemma st_bind_Ok m k s a :
  out (m s) = Ok a → st (bind m k s) = st (k a (st (m s))).
Proof. intros H. by rewrite (bind_Ok _ _ _ _ H). Qed.

Lemma out_bind_Throw m k s e :
  out (m s) = Throw e → out (bind m k s) = Throw e.
Proof. intros H. unfold bind. by rewrite H. Qed.

Lemma out_bind_Blocked m k s :
  out (m s) = Blocked → out (bind m k s) = Blocked.
Proof. intros H. unfold bind. by rewrite H. Qed.

Lemma evs_bind_stop m k s :
  (∀ a, out (m s) ≠ Ok a) → evs (bind m k s) = evs (m s).
Proof. intros H. by rewrite bind_not_Ok. Qed.

Lemma st_bind_stop m k s :
  (∀ a, out (m s) ≠ Ok a) → st (bind m k s) = st (m s).
Proof. intros H. by rewrite bind_not_Ok. Qed.
End BindProjections.

(** ** What the steps keep *)

Lemma settle_others_run (w : list (ref * option Error)) (s : State) :
  out (settle_others w s) = Ok tt ∧ evs (settle_others w s) = [].
Proof.
  revert s. induction w as [| qe w IH]; intros s; [done |].
  simpl. unfold bind. simpl. destruct (IH (st (_finalizeTx qe.1 qe.2 s))) as [-> ->]. done.
Qed.

(** Puts a run together from steps that keep [R]. *)
Ltac framed_steps R :=
  repeat first
    [ simple apply (framed_ret R) | simple apply (framed_throw R)
    | simple apply (framed_blocked R)
    | simple apply (framed_get R) | simple apply (framed_emit R)
    | simple apply (framed_bind R); [| intros ?]
    | simple apply (framed_sleep R); intros ? ? ].

Lemma settle_others_framed (w : list (ref * option Error)) :
  framed ids_frame (settle_others w).
Proof.
  induction w as [| qe w IH]; [apply (framed_ret ids_frame) |].
  simpl. apply (framed_bind ids_frame); [| done].
  intros s. apply updateTx_framed.
Qed.

Lemma waitQueue_loop_framed world : framed ids_frame (_waitQueue_loop world).
Proof.
  induction world as [| w world IH]; simpl.
  - framed_steps ids_frame; done.
  - framed_steps ids_frame; try done; [apply settle_others_framed |].
    case_match; [done | apply (framed_ret ids_frame)].
Qed.

Lemma waitQueue_framed world : framed ids_frame (_waitQueue world).
Proof.
  unfold _waitQueue. framed_steps ids_frame.
  case_match; [apply waitQueue_loop_framed | apply (framed_ret ids_frame)].
Qed.

Section StepsKeep.
Variable toChecksum : string → string.

Lemma getNonce_framed A net : framed ids_frame (getNonce toChecksum A net).
Proof.
  unfold getNonce, _getLock. framed_steps ids_frame.
  - intros s. unfold _lookupMutex. destruct (_lockMap s !! toChecksum A); done.
  - destruct a; framed_steps ids_frame; try by apply framed_modify.
  - destruct net; framed_steps ids_frame; try by apply framed_modify.
Qed.

Lemma checkError_framed err A r : framed ids_frame (_checkError toChecksum err A r).
Proof.
  apply framed_modify. intros s. by destruct (stuckNonce _).
Qed.
End StepsKeep.

(** ** The queue governor *)

Lemma wait_trace_cons (k0 : nat) (ks : list nat) (k : nat) :
  wait_trace (k0 :: ks) k = EvQueueCheck k0 :: EvSleep Governor 60000 :: wait_trace ks k.
Proof. done. Qed.

Lemma waitQueue_loop_nil :
  _waitQueue_loop [] = (sleep Governor (awaitTime * 1000) >>> blocked).
Proof. done. Qed.

Lemma waitQueue_loop_cons w world :
  _waitQueue_loop (w :: world) =
    (sleep Governor (awaitTime * 1000) >>>
     settle_others w >>>
     let* s := get in
     let awaiting := awaiting_now s in
     emit (EvQueueCheck awaiting) >>>
     if Nat.leb awaitLimit awaiting then _waitQueue_loop world else ret tt).
Proof. done. Qed.

(** The loop either comes to a check that finds room, or it is left
    sleeping; every check before found the limit reached and was followed
    by a sleep of 60000 ms. *)
Lemma waitQueue_loop_trace world s :
  let run := _waitQueue_loop world s in
  ∃ ks, Forall (λ k', awaitLimit ≤ k')%nat ks ∧
    ((out run = Blocked ∧
      evs run = EvSleep Governor 60000 :: blocked_trace ks) ∨
     (∃ k, (k < awaitLimit)%nat ∧ out run = Ok tt ∧ awaiting_now (st run) = k ∧
           evs run = EvSleep Governor 60000 :: blocked_trace ks ++ [EvQueueCheck k])).
Proof.
  cbv zeta. revert s. induction world as [| w world IH]; intros s.
  - rewrite waitQueue_loop_nil, bind_sleep. exists []. split; [done |]. by left.
  - rewrite waitQueue_loop_cons, bind_sleep. cbv zeta.
    set (s1 := set_clock _ s).
    destruct (settle_others_run w s1) as [Ho He].
    cbn [out st evs].
    rewrite (out_bind_Ok _ _ _ tt Ho), (evs_bind_Ok _ _ _ tt Ho), (st_bind_Ok _ _ _ tt Ho), He.
    set (s2 := st (settle_others w s1)).
    rewrite bind_get, bind_emit. cbn [out st evs app].
    destruct (Nat.leb awaitLimit (awaiting_now s2)) eqn:E.
    + destruct (IH s2) as (ks & Hks & Hcases).
      exists (awaiting_now s2 :: ks). split.
      { constructor; [by apply Nat.leb_le | done]. }
      destruct Hcases as [(Ho' & He') | (k & Hk & Ho' & Hst' & He')].
      * left. rewrite Ho', He'. done.
      * right. exists k. rewrite Ho', He', Hst'. done.
    + exists []. split; [done |]. right. exists (awaiting_now s2).
      apply Nat.leb_gt in E. done.
Qed.

Lemma waitQueue_trace world s :
  let run := _waitQueue world s in
  ∃ ks, Forall (λ k', awaitLimit ≤ k')%nat ks ∧
    ((out run = Blocked ∧ ks ≠ [] ∧ evs run = blocked_trace ks) ∨
     (∃ k, (k < awaitLimit)%nat ∧ out run = Ok tt ∧ awaiting_now (st run) = k ∧
           evs run = wait_trace ks k)).
Proof.
  cbv zeta. unfold _waitQueue. rewrite bind_get, bind_emit. cbn [out st evs].
  destruct (Nat.leb awaitLimit (awaiting_now s)) eqn:E.
  - destruct (waitQueue_loop_trace world s) as (ks & Hks & Hcases).
    exists (awaiting_now s :: ks). split.
    { constructor; [by apply Nat.leb_le | done]. }
    destruct Hcases as [(Ho' & He') | (k & Hk & Ho' & Hst' & He')].
    + left. rewrite Ho', He'. done.
    + right. exists k. rewrite Ho', He', Hst'. done.
  - exists []. split; [done |]. right. exists (awaiting_now s).
    apply Nat.leb_gt in E. done.
Qed.

(** Every sleep moves the clock on by one minute. *)
Lemma waitQueue_no_world_blocks s :
  (awaitLimit ≤ awaiting_now s)%nat →
  out (_waitQueue [] s) = Blocked ∧
  evs (_waitQueue [] s) = [EvQueueCheck (awaiting_now s); EvSleep Governor 60000] ∧
  clock (st (_waitQueue [] s)) = clock s + 60000.
Proof.
  intros H. unfold _waitQueue. rewrite bind_get, bind_emit. cbn [out st evs].
  apply Nat.leb_le in H. rewrite H. by rewrite waitQueue_loop_nil, bind_sleep.
Qed.


(** ** Submission (C3, C9) *)

Lemma updateTx_deref_self (r : ref) (status : Status) (s : State) :
  deref (st (updateTx r status s)) r =
    set_lastUpdate (Some (clock s)) (set_status (Some status) (deref s r)).
Proof.
  unfold updateTx. set (s1 := mutate r _ s).
  assert (deref s1 r = set_lastUpdate (Some (clock s)) (set_status (Some status) (deref s r)))
    as H1 by (subst s1; by rewrite deref_mutate).
  destruct (list_find _ _) as [[i q] |] eqn:E; simpl; [| done].
  destruct (decide (r = q)) as [<- | Hne].
  - rewrite deref_mutate. rewrite assign_same. done.
  - by rewrite deref_mutate_ne.
Qed.

Lemma updateTx_evs (r : ref) (status : Status) (s : State) :
  evs (updateTx r status s) = [].
Proof. unfold updateTx. by destruct (list_find _ _) as [[i q] |]. Qed.

Lemma updateTx_cases (r : ref) (status : Status) (s : State) :
  out (updateTx r status s) = Ok tt ∨ out (updateTx r status s) = Throw TypeError.
Proof. unfold updateTx. destruct (list_find _ _) as [[i q] |]; simpl; auto. Qed.

Lemma addTx_cases (r : ref) (s : State) :
  evs (addTx r s) = [] ∧
  (out (addTx r s) = Ok tt ∨ out (addTx r s) = Throw TypeError).
Proof.
  destruct (truthy (tx_id (deref s r))) eqn:E.
  - rewrite addTx_update by done. split; [apply updateTx_evs | apply updateTx_cases].
  - rewrite addTx_alloc by done. simpl. auto.
Qed.

Lemma addTx_options (r : ref) (s : State) :
  tx_options (deref (st (addTx r s)) r) = tx_options (deref s r).
Proof.
  destruct (truthy (tx_id (deref s r))) eqn:E.
  - rewrite addTx_update by done. rewrite updateTx_deref_self. simpl.
    by rewrite !deref_mutate.
  - rewrite addTx_alloc by done. cbv zeta. cbn [st].
    change (deref (set_tx ?l ?s') r) with (deref s' r).
    rewrite deref_mutate.
    change (deref (set_idCounter ?c ?s') r) with (deref s' r).
    by rewrite !deref_mutate.
Qed.

(** The claim of the nonce, when the record is in the store: the nonce of
    the options, or else the coordinator's, becomes the record's; the record
    is marked submitted; the mutex is given back; [send] gets the options. *)
Lemma submitTx_claim_found (r : ref) (nextNonce : Z) (release : string) (s : State) :
  found r s →
  let run := submitTx_claim r nextNonce release s in
  let n := Some (js_or (opt_nonce (tx_options (deref s r))) nextNonce) in
  out run = Ok tt ∧
  (∃ o, evs run = [EvSubmitted r n; EvSend r o] ∧ opt_nonce o = n) ∧
  tx_nonce (deref (st run) r) = n ∧
  tx_status (deref (st run) r) = Some submitted ∧
  _lockMap (st run) !! release = Some false.
Proof.
  intros Hfound. cbv zeta. unfold submitTx_claim. rewrite !bind_modify.
  set (s2 := mutate r _ (mutate r _ s)).
  assert (found r s2) as Hfound2.
  { subst s2. eapply ids_frame_found; [| exact Hfound].
    etrans; by apply ids_frame_mutate. }
  pose proof (updateTx_found r submitted s2 Hfound2) as Hok.
  pose proof (updateTx_deref_self r submitted s2) as Hself.
  pose proof (updateTx_evs r submitted s2) as Hevs.
  assert (deref s2 r = set_nonce (Some (js_or (opt_nonce (tx_options (deref s r))) nextNonce))
            (set_options (set_opt_nonce
               (Some (js_or (opt_nonce (tx_options (deref s r))) nextNonce))
               (tx_options (deref s r))) (deref s r))) as H2.
  { subst s2. by rewrite !deref_mutate. }
  rewrite (out_bind_Ok _ _ _ tt Hok), (evs_bind_Ok _ _ _ tt Hok), (st_bind_Ok _ _ _ tt Hok), Hevs.
  set (s3 := st (updateTx r submitted s2)) in *.
  rewrite bind_get, bind_emit. cbn [out st evs].
  unfold releaseNonceLock. rewrite bind_modify. cbn [emit out st evs app].
  rewrite Hself, H2. simpl. split_and!; try done.
  - eexists. split; [done |]. done.
  - unfold deref. simpl. fold (deref s3 r). rewrite Hself, H2. done.
  - unfold deref. simpl. fold (deref s3 r). rewrite Hself, H2. done.
  - by rewrite lookup_insert_eq.
Qed.

Section Submission.
Variable toChecksum : string → string.

Lemma getNonce_cases (A : string) (net : NetResp) (s : State) :
  let run := getNonce toChecksum A net s in
  (∃ nn, out run = Ok (nn, toChecksum A) ∧ evs run = [EvNonce (toChecksum A) nn]) ∨
  (evs run = [] ∧ ∀ u, out run ≠ Ok u).
Proof.
  cbv zeta. destruct (decide (_lockMap s !! toChecksum A = Some true)) as [Hheld | Hfree].
  - right. by rewrite getNonce_blocked.
  - destruct net as [n | e].
    + left. rewrite getNonce_returns by done. eauto.
    + right. unfold getNonce, _getLock, _lookupMutex, bind. simpl.
      destruct (_lockMap s !! toChecksum A) as [[|] |] eqn:E; simpl; done.
Qed.

End Submission.


(** ** The discipline of the retry loop *)








Lemma submissions_quiet_app (Q l : list Event) :
  Forall (λ e, quiet e = true) Q → submissions (Q ++ l) = submissions l.
Proof.
  unfold submissions. induction 1 as [| e Q He _ IH]; [done |].
  rewrite <- app_comm_cons. simpl. destruct e; try done.
Qed.


(** ** Quiet runs *)

Section Quiet.
Lemma quiet_ret {A} (a : A) : quiet_run (ret a).
Proof. intros s. constructor. Qed.
Lemma quiet_throw {A} e : quiet_run (@throw A e).
Proof. intros s. constructor. Qed.
Lemma quiet_blocked {A} : quiet_run (@blocked A).
Proof. intros s. constructor. Qed.
Lemma quiet_get : quiet_run get.
Proof. intros s. constructor. Qed.
Lemma quiet_modify f : quiet_run (modify f).
Proof. intros s. constructor. Qed.
Lemma quiet_emit e : quiet e = true → quiet_run (emit e).
Proof. intros H s. by repeat constructor. Qed.
Lemma quiet_bind {A B} (m : M A) (k : A → M B) :
  quiet_run m → (∀ a, quiet_run (k a)) → quiet_run (bind m k).
Proof.
  intros Hm Hk s. unfold bind. specialize (Hm s).
  destruct (out (m s)) eqn:E; simpl; try done.
  apply Forall_app. split; [done | apply Hk].
Qed.
Lemma quiet_no_events {A} (m : M A) : (∀ s, evs (m s) = []) → quiet_run m.
Proof. intros H s. rewrite H. constructor. Qed.
End Quiet.

Ltac quiet_steps :=
  repeat first
    [ simple apply @quiet_ret | simple apply @quiet_throw | simple apply @quiet_blocked
    | simple apply quiet_get | simple apply quiet_modify
    | simple apply quiet_emit; reflexivity
    | simple apply @quiet_bind; [| intros ?] ].

Lemma updateTx_quiet r status : quiet_run (updateTx r status).
Proof. apply quiet_no_events. apply updateTx_evs. Qed.

Lemma addTx_quiet r : quiet_run (addTx r).
Proof. apply quiet_no_events. intros s. apply addTx_cases. Qed.

Lemma waitQueue_loop_quiet world : quiet_run (_waitQueue_loop world).
Proof.
  induction world as [| w world IH].
  - rewrite waitQueue_loop_nil. unfold sleep. quiet_steps.
  - rewrite waitQueue_loop_cons. unfold sleep. quiet_steps.
    + apply quiet_no_events. intros s. apply settle_others_run.
    + case_match; [done | apply quiet_ret].
Qed.

Lemma waitQueue_quiet world : quiet_run (_waitQueue world).
Proof.
  unfold _waitQueue. quiet_steps.
  case_match; [apply waitQueue_loop_quiet | apply quiet_ret].
Qed.

Lemma submitTx_claim_quiet r nn release : quiet_run (submitTx_claim r nn release).
Proof.
  unfold submitTx_claim, releaseNonceLock. quiet_steps. apply updateTx_quiet.
Qed.

Lemma submitTx_claim_framed r nn release : framed ids_frame (submitTx_claim r nn release).
Proof.
  unfold submitTx_claim, releaseNonceLock. framed_steps ids_frame.
  - apply framed_modify; intros ?; by apply ids_frame_mutate.
  - apply framed_modify; intros ?; by apply ids_frame_mutate.
  - apply updateTx_framed.
Qed.

Lemma markConfirmed_found (r : ref) (result : option Result) (s : State) :
  found r s →
  let run := markConfirmed r result s in
  out run = Ok (None, result) ∧ evs run = [] ∧
  tx_status (deref (st run) r) = Some confirmed.
Proof.
  intros Hfound. cbv zeta. unfold markConfirmed. rewrite bind_get.
  case_bool_decide as Hst.
  - rewrite bind_ret. done.
  - pose proof (updateTx_found r confirmed s Hfound) as Hok.
    rewrite (out_bind_Ok _ _ _ tt Hok), (evs_bind_Ok _ _ _ tt Hok), (st_bind_Ok _ _ _ tt Hok).
    rewrite updateTx_evs. simpl. split_and!; try done. apply updateTx_status.
Qed.

Section Settlement.
Variable toChecksum : string → string.

Lemma submitTx_dispatch_quiet env r : quiet_run (submitTx_dispatch toChecksum env r).
Proof.
  unfold submitTx_dispatch. quiet_steps.
  - apply addTx_quiet.
  - intros s. destruct (getNonce_cases toChecksum
      (opt_from (tx_options (deref a0 r))) (env_net env) s) as [(nn & _ & ->) | [-> _]];
      by repeat constructor.
  - apply waitQueue_quiet.
  - apply submitTx_claim_quiet.
Qed.

Lemma submitTx_dispatch_found env r s :
  out (submitTx_dispatch toChecksum env r s) = Ok tt →
  found r (st (submitTx_dispatch toChecksum env r s)).
Proof.
  unfold submitTx_dispatch. intros H.
  pose proof H as H'. apply bind_Ok_inv in H' as ([] & Hadd & _).
  rewrite (st_bind_Ok _ _ _ tt Hadd).
  apply addTx_found in Hadd. revert Hadd. generalize (st (addTx r s)). intros s1 Hfound.
  eapply ids_frame_found; [| exact Hfound].
  cbv beta. generalize s1. change (framed ids_frame
    (let* s := get in
     let* nl := getNonce toChecksum (opt_from (tx_options (deref s r))) (env_net env) in
     _waitQueue (env_world env) >>> submitTx_claim r nl.1 nl.2)).
  framed_steps ids_frame.
  - apply getNonce_framed.
  - apply waitQueue_framed.
  - apply submitTx_claim_framed.
Qed.

Lemma submitTx_settle_framed env r : framed ids_frame (submitTx_settle toChecksum env r).
Proof.
  unfold submitTx_settle, _finalizeTx, _calculateGasExpenses.
  framed_steps ids_frame.
  - destruct (env_hash env); [| apply (framed_ret ids_frame)].
    apply framed_modify; intros ?; by apply ids_frame_mutate.
  - destruct (env_send env); framed_steps ids_frame.
    + apply framed_modify; intros ?; by apply ids_frame_mutate.
    + apply framed_modify; intros ?; by apply ids_frame_mutate.
    + apply checkError_framed.
  - apply updateTx_framed.
Qed.

(** The settlement reports the outcome once, as its last event. *)
Lemma submitTx_settle_trace env r s :
  let run := submitTx_settle toChecksum env r s in
  (∃ er, out run = Ok er ∧ evs run = [EvSettled r er.1]) ∨
  ((∀ er, out run ≠ Ok er) ∧ evs run = []).
Proof.
  cbv zeta. unfold submitTx_settle.
  set (hashEvent := match env_hash env with Some _ => _ | None => _ end).
  assert (∃ s1, hashEvent s = mkRun (Ok tt) s1 []) as [s1 Hh].
  { subst hashEvent. destruct (env_hash env); eauto. }
  assert (out (hashEvent s) = Ok tt) as Hh1 by (by rewrite Hh).
  rewrite (out_bind_Ok _ _ _ tt Hh1), (evs_bind_Ok _ _ _ tt Hh1), Hh. cbn [st evs app].
  set (sendEvents := match env_send env with inl _ => _ | inr _ => _ end).
  assert (∃ res s2, sendEvents s1 = mkRun (Ok res) s2 []) as (res & s2 & Hs).
  { subst sendEvents. destruct (env_send env) as [rc | e];
      unfold bind, modify, _calculateGasExpenses, _checkError, get, ret; simpl; eauto. }
  assert (out (sendEvents s1) = Ok res) as Hs1 by (by rewrite Hs).
  rewrite (out_bind_Ok _ _ _ _ Hs1), (evs_bind_Ok _ _ _ _ Hs1), Hs. cbn [st evs app].
  unfold _finalizeTx.
  destruct (updateTx_cases r (match res.1 with Some _ => failed | None => confirmed end) s2)
    as [Hok | Hthrow].
  - left. exists res.
    rewrite (out_bind_Ok _ _ _ tt Hok), (evs_bind_Ok _ _ _ tt Hok), updateTx_evs.
    rewrite bind_emit. done.
  - right. split.
    + intros er. by rewrite (out_bind_Throw _ _ _ _ Hthrow).
    + rewrite evs_bind_stop by (intros u; by rewrite Hthrow). apply updateTx_evs.
Qed.

(** A [submitTx] that returns has reported the outcome as its last event;
    before that, and when it does not return, its events are quiet. *)
Lemma submitTx_trace env r s :
  let run := submitTx toChecksum env r s in
  ∃ Q, Forall (λ e, quiet e = true) Q ∧
    ((∃ er, out run = Ok er ∧ evs run = Q ++ [EvSettled r er.1]) ∨
     ((∀ er, out run ≠ Ok er) ∧ evs run = Q)).
Proof.
  cbv zeta. unfold submitTx. rewrite bind_get.
  destruct (tx_txType (deref s r)).
  - exists [EvCall r]. split; [by repeat constructor |]. left.
    exists (env_call env). done.
  - pose proof (submitTx_dispatch_quiet env r s) as HQ.
    destruct (out (submitTx_dispatch toChecksum env r s)) as [[] | e |] eqn:Hd.
    + exists (evs (submitTx_dispatch toChecksum env r s)). split; [done |].
      rewrite (out_bind_Ok _ _ _ tt Hd), (evs_bind_Ok _ _ _ tt Hd).
      destruct (submitTx_settle_trace env r (st (submitTx_dispatch toChecksum env r s)))
        as [(er & Ho & He) | (Hn & He)].
      * left. exists er. by rewrite Ho, He.
      * right. rewrite He, app_nil_r. done.
    + exists (evs (submitTx_dispatch toChecksum env r s)). split; [done |]. right.
      rewrite evs_bind_stop by (intros u; by rewrite Hd). split; [| done].
      intros er. by rewrite (out_bind_Throw _ _ _ _ Hd).
    + exists (evs (submitTx_dispatch toChecksum env r s)). split; [done |]. right.
      rewrite evs_bind_stop by (intros u; by rewrite Hd). split; [| done].
      intros er. by rewrite (out_bind_Blocked _ _ _ Hd).
Qed.

(** A [send] that has returned, or a record that was in the store before:
    a record with the id of [r] is in the store afterwards. *)
Lemma submitTx_found env r s er :
  tx_txType (deref s r) = send ∨ found r s →
  out (submitTx toChecksum env r s) = Ok er →
  found r (st (submitTx toChecksum env r s)).
Proof.
  unfold submitTx. rewrite bind_get. intros Hpre.
  destruct (tx_txType (deref s r)) eqn:Ht.
  - intros _. destruct Hpre as [? | Hf]; [done |]. exact Hf.
  - intros H. pose proof H as H'. apply bind_Ok_inv in H' as ([] & Hd & _).
    rewrite (st_bind_Ok _ _ _ tt Hd).
    eapply ids_frame_found; [apply submitTx_settle_framed |].
    by apply submitTx_dispatch_found.
Qed.
End Settlement.


(** ** The retry loop (C7) *)

Lemma bind_run {A B} (m : M A) (k : A → M B) s a s' l :
  m s = mkRun (Ok a) s' l →
  bind m k s = mkRun (out (k a s')) (st (k a s')) (l ++ evs (k a s')).
Proof. intros H. unfold bind. by rewrite H. Qed.


Lemma markConfirmed_evs r result s : evs (markConfirmed r result s) = [].
Proof.
  unfold markConfirmed. rewrite bind_get. case_bool_decide.
  - by rewrite bind_ret.
  - destruct (updateTx_cases r confirmed s) as [Hok | Hthrow].
    + rewrite (evs_bind_Ok _ _ _ tt Hok), updateTx_evs. done.
    + rewrite evs_bind_stop by (intros u; by rewrite Hthrow). apply updateTx_evs.
Qed.


Section RetryLoop.
Variable toChecksum : string → string.


End RetryLoop.


(** The loop ends within [retry + 1] rounds: more fuel changes nothing. *)
Lemma bind_ext {A B} (m : M A) (k1 k2 : A → M B) s :
  (∀ a s', k1 a s' = k2 a s') → bind m k1 s = bind m k2 s.
Proof. intros H. unfold bind. destruct (out (m s)); [by rewrite H | done | done]. Qed.

Lemma retry_decide_ext (next1 next2 : M (option Error * option Result))
    ro r counter er s :
  (Nat.leb (S counter) (retry_of ro) = true → ∀ s', next1 s' = next2 s') →
  retry_decide next1 ro r counter er s = retry_decide next2 ro r counter er s.
Proof.
  intros H. unfold retry_decide.
  apply bind_ext. intros _ s1. apply bind_ext. intros ok1 s2.
  destruct ok1; [done |]. destruct (Nat.eqb _ _); [done |].
  apply bind_ext. intros _ s3. apply bind_ext. intros ok2 s4.
  destruct ok2; [done |].
  apply bind_ext. intros _ s5. apply bind_ext. intros _ s6.
  destruct (Nat.leb (S counter) (retry_of ro)) eqn:E; [by apply H | done].
Qed.

Section Fuel.
Variable toChecksum : string → string.

Lemma retry_loop_fuel ro env r fuel fuel' counter s :
  (retry_of ro - counter < fuel)%nat →
  (retry_of ro - counter < fuel')%nat →
  retry_loop toChecksum fuel ro env r counter s =
  retry_loop toChecksum fuel' ro env r counter s.
Proof.
  revert fuel' counter s. induction fuel as [| fuel IH]; intros fuel' counter s H1 H2; [lia |].
  destruct fuel' as [| fuel']; [lia |].
  cbn [retry_loop]. apply bind_ext. intros _ s1. apply bind_ext. intros _ s2.
  apply bind_ext. intros er s3. apply retry_decide_ext.
  intros Hle s4. apply Nat.leb_le in Hle. apply IH; lia.
Qed.

(** In particular the loop never runs out of the fuel that [sendWithRetry]
    gives it. *)
Lemma sendWithRetry_fuel ro env r fuel s :
  (retry_of ro < fuel)%nat →
  retry_loop toChecksum fuel ro env r 0 s = sendWithRetry toChecksum ro env r s.
Proof. intros H. unfold sendWithRetry. apply retry_loop_fuel; lia. Qed.
End Fuel.

(** ** The nonce that is sent (C6, C9) *)

Lemma js_or_nonzero (c nextNonce : Z) : c ≠ 0 → js_or (Some c) nextNonce = c.
Proof. intros H. unfold js_or. by destruct (Z.eqb_spec c 0). Qed.

Lemma js_or_zero (nextNonce : Z) : js_or (Some 0) nextNonce = nextNonce.
Proof. done. Qed.

Lemma js_or_absent (nextNonce : Z) : js_or None nextNonce = nextNonce.
Proof. done. Qed.

(** A nonce of the options that is not 0 is the one that is recorded and
    sent. *)
Lemma caller_nonce_wins_unless_zero (r : ref) (c nextNonce : Z) (release : string)
    (s : State) :
  found r s →
  opt_nonce (tx_options (deref s r)) = Some c →
  c ≠ 0 →
  let run := submitTx_claim r nextNonce release s in
  out run = Ok tt ∧
  (∃ o, evs run = [EvSubmitted r (Some c); EvSend r o] ∧ opt_nonce o = Some c) ∧
  tx_nonce (deref (st run) r) = Some c ∧
  tx_status (deref (st run) r) = Some submitted.
Proof.
  intros Hfound Hc Hc0.
  destruct (submitTx_claim_found r nextNonce release s Hfound) as (Ho & He & Hn & Hst & _).
  rewrite Hc, js_or_nonzero in * by done. done.
Qed.

(** After a mining timeout the options keep the nonce of the attempt for
    the next one; after any other failure they lose it. *)
Lemma updateNonce_timeout (msg : string) (n : option Z) :
  includes msg "Transaction was not mined within" = true → updateNonce msg n = n.
Proof. intros H. unfold updateNonce. by rewrite H. Qed.

Lemma updateNonce_other (msg : string) (n : option Z) :
  includes msg "Transaction was not mined within" = false → updateNonce msg n = None.
Proof. intros H. unfold updateNonce. by rewrite H. Qed.

(** ** Serialization (C1) *)

Section Serialization.
Variable toChecksum : string → string.


End Serialization.


(** ** The exclusion sets in every run (C10) *)

Global Instance keeps_exclusion_refl : Reflexive keeps_exclusion.
Proof. intros s H. exact H. Qed.
Global Instance keeps_exclusion_trans : Transitive keeps_exclusion.
Proof. intros s1 s2 s3 H1 H2 H. apply H2, H1, H. Qed.

Lemma keeps_exclusion_same (s s' : State) :
  _nonceInUse s' = _nonceInUse s → keeps_exclusion s s'.
Proof. intros H Hok A a Ha. apply (Hok A). by rewrite <- H. Qed.

(** Steps that do not write [_nonceInUse]. *)
Ltac same_exclusion :=
  try (apply framed_modify; intros ?); apply keeps_exclusion_same; reflexivity.

Lemma updateTx_keeps_exclusion r status : framed keeps_exclusion (updateTx r status).
Proof.
  intros s. apply keeps_exclusion_same. unfold updateTx.
  by destruct (list_find _ _) as [[i q] |].
Qed.

Lemma addTx_keeps_exclusion r : framed keeps_exclusion (addTx r).
Proof.
  intros s. apply keeps_exclusion_same.
  destruct (truthy (tx_id (deref s r))) eqn:E.
  - rewrite addTx_update by done. unfold updateTx.
    by destruct (list_find _ _) as [[i q] |].
  - by rewrite addTx_alloc.
Qed.

Lemma settle_others_keeps_exclusion w : framed keeps_exclusion (settle_others w).
Proof.
  induction w as [| qe w IH]; [apply (framed_ret keeps_exclusion) |].
  simpl. apply (framed_bind keeps_exclusion); [| done].
  intros s. apply updateTx_keeps_exclusion.
Qed.

Lemma waitQueue_loop_keeps_exclusion world :
  framed keeps_exclusion (_waitQueue_loop world).
Proof.
  induction world as [| w world IH].
  - rewrite waitQueue_loop_nil. framed_steps keeps_exclusion; try same_exclusion.
  - rewrite waitQueue_loop_cons. framed_steps keeps_exclusion; try same_exclusion.
    + apply settle_others_keeps_exclusion.
    + case_match; [done | apply (framed_ret keeps_exclusion)].
Qed.

Lemma waitQueue_keeps_exclusion world : framed keeps_exclusion (_waitQueue world).
Proof.
  unfold _waitQueue. framed_steps keeps_exclusion.
  case_match; [apply waitQueue_loop_keeps_exclusion | apply (framed_ret keeps_exclusion)].
Qed.

Lemma submitTx_claim_keeps_exclusion r nn release :
  framed keeps_exclusion (submitTx_claim r nn release).
Proof.
  unfold submitTx_claim, releaseNonceLock.
  framed_steps keeps_exclusion; try same_exclusion. apply updateTx_keeps_exclusion.
Qed.

Lemma markConfirmed_keeps_exclusion r result :
  framed keeps_exclusion (markConfirmed r result).
Proof.
  unfold markConfirmed. framed_steps keeps_exclusion.
  case_bool_decide; [apply (framed_ret keeps_exclusion) | apply updateTx_keeps_exclusion].
Qed.

Lemma verify_keeps_exclusion ro err counter afterSleep :
  framed keeps_exclusion (_verify ro err counter afterSleep).
Proof.
  unfold _verify. destruct err; [| apply (framed_ret keeps_exclusion)].
  destruct (ro_verify ro); framed_steps keeps_exclusion.
Qed.

Lemma retry_decide_keeps_exclusion next ro r counter er :
  framed keeps_exclusion next →
  framed keeps_exclusion (retry_decide next ro r counter er).
Proof.
  intros Hnext. unfold retry_decide.
  simple apply (framed_bind keeps_exclusion); [same_exclusion | intros _].
  simple apply (framed_bind keeps_exclusion); [apply verify_keeps_exclusion | intros ok1].
  destruct ok1; [apply markConfirmed_keeps_exclusion |].
  destruct (Nat.eqb _ _); [apply (framed_ret keeps_exclusion) |].
  simple apply (framed_bind keeps_exclusion);
    [apply (framed_sleep keeps_exclusion); intros ? ?; same_exclusion | intros _].
  simple apply (framed_bind keeps_exclusion); [apply verify_keeps_exclusion | intros ok2].
  destruct ok2; [apply markConfirmed_keeps_exclusion |].
  simple apply (framed_bind keeps_exclusion); [same_exclusion | intros _].
  simple apply (framed_bind keeps_exclusion); [same_exclusion | intros _].
  destruct (Nat.leb _ _); [done | apply (framed_ret keeps_exclusion)].
Qed.

Section ExclusionRuns.
Variable toChecksum : string → string.

Lemma checkError_keeps_exclusion err A r :
  framed keeps_exclusion (_checkError toChecksum err A r).
Proof. intros s Hok. by apply (checkError_exclusion toChecksum err A r s Hok). Qed.

Lemma getNonce_keeps_exclusion A net : framed keeps_exclusion (getNonce toChecksum A net).
Proof.
  intros s. apply keeps_exclusion_same.
  unfold getNonce, _getLock, _lookupMutex, bind. simpl.
  destruct (_lockMap s !! toChecksum A) as [[|] |]; destruct net; done.
Qed.

Lemma submitTx_keeps_exclusion env r : framed keeps_exclusion (submitTx toChecksum env r).
Proof.
  unfold submitTx. simple apply (framed_bind keeps_exclusion);
    [apply (framed_get keeps_exclusion) | intros s].
  destruct (tx_txType (deref s r)); [framed_steps keeps_exclusion |].
  simple apply (framed_bind keeps_exclusion); [| intros _].
  - unfold submitTx_dispatch. framed_steps keeps_exclusion.
    + apply addTx_keeps_exclusion.
    + apply getNonce_keeps_exclusion.
    + apply waitQueue_keeps_exclusion.
    + apply submitTx_claim_keeps_exclusion.
  - unfold submitTx_settle, _finalizeTx, _calculateGasExpenses.
    framed_steps keeps_exclusion.
    + destruct (env_hash env); [same_exclusion | apply (framed_ret keeps_exclusion)].
    + destruct (env_send env); framed_steps keeps_exclusion; try same_exclusion.
      apply checkError_keeps_exclusion.
    + apply updateTx_keeps_exclusion.
Qed.

Lemma retry_loop_keeps_exclusion fuel ro env r counter :
  framed keeps_exclusion (retry_loop toChecksum fuel ro env r counter).
Proof.
  revert counter. induction fuel as [| fuel IH]; intros counter.
  - apply (framed_blocked keeps_exclusion).
  - cbn [retry_loop].
    simple apply (framed_bind keeps_exclusion); [same_exclusion | intros _].
    simple apply (framed_bind keeps_exclusion);
      [apply (framed_emit keeps_exclusion) | intros _].
    simple apply (framed_bind keeps_exclusion);
      [apply submitTx_keeps_exclusion | intros er].
    apply retry_decide_keeps_exclusion. apply IH.
Qed.
End ExclusionRuns.


Section ExclusionSet.
Variable toChecksum : string → string.

(** C10. The exclusion sets hold no value twice and never more than 200
    values: the manager starts without any, every run of [submitTx] and of
    [sendWithRetry] keeps both properties, and the only code that writes
    the sets, [_checkError], works on them as follows.  A value that is
    already there changes nothing; a new one goes to the end, after the
    oldest entry has been dropped when 200 are held; the sets of other
    addresses are left alone. *)
Theorem exclusion_set_bounded (err : Error) (A : string) (r : ref) (s : State) :
  exclusion_sets_ok s →
  (∀ env r', exclusion_sets_ok (st (submitTx toChecksum env r' s))) ∧
  (∀ ro env r', exclusion_sets_ok (st (sendWithRetry toChecksum ro env r' s))) ∧
  let s' := exec (_checkError toChecksum err A r) s in
  let x := tx_nonce (deref s r) in
  let old := from_option items [] (_nonceInUse s !! toChecksum A) in
  let new := from_option items [] (_nonceInUse s' !! toChecksum A) in
  exclusion_sets_ok s' ∧
  (∀ B, B ≠ toChecksum A → _nonceInUse s' !! B = _nonceInUse s !! B) ∧
  (stuckNonce (message err) = false → _nonceInUse s' = _nonceInUse s) ∧
  (stuckNonce (message err) = true →
     x ∈ new ∧
     (x ∈ old → new = old) ∧
     (x ∉ old → (length old < 200)%nat → new = old ++ [x]) ∧
     (x ∉ old → length old = 200%nat → new = drop 1 old ++ [x])).
Proof.
  intros Hok. split_and!.
  - intros env r'. by apply (submitTx_keeps_exclusion toChecksum env r' s).
  - intros ro env r'. by apply (retry_loop_keeps_exclusion toChecksum _ ro env r' 0%nat s).
  - by apply checkError_exclusion.
Qed.
End ExclusionSet.

(** ** Beyond the specification: the bounded array *)

Section FixedLengthArrayMore.
Context {A : Type} `{EqDecision A}.
Implicit Types (a : FixedLengthArray A) (x : A) (l args : list A).

Lemma elem_of_js_Set x args : x ∈ js_Set args ↔ x ∈ args.
Proof.
  induction args as [| y args IH]; [done |]. simpl.
  rewrite !elem_of_cons, list_elem_of_filter, IH.
  destruct (decide (x = y)) as [-> | Hne]; [by split; left |].
  split; intros [? | ?]; try done; right; tauto.
Qed.

Lemma NoDup_js_Set args : NoDup (js_Set args).
Proof.
  induction args as [| y args IH]; simpl; [constructor |].
  constructor.
  - intros Hin. apply list_elem_of_filter in Hin as [Hne _]. by apply Hne.
  - by apply NoDup_filter.
Qed.

Lemma length_js_Set args : (length (js_Set args) ≤ length args)%nat.
Proof.
  induction args as [| y args IH]; simpl; [lia |].
  pose proof (length_filter (λ z, z ≠ y) (js_Set args)). lia.
Qed.

(** The items after [_truncate] and the append of [args]. *)
Lemma items_append_truncate args a :
  items (fla_append args (_truncate args a)) =
    drop (if negb (Nat.eqb (lengthLimit a) 0) && Nat.leb (lengthLimit a) (length (items a))
          then length args else 0%nat) (items a) ++ args.
Proof.
  unfold fla_append, _truncate. simpl.
  destruct (negb (Nat.eqb (lengthLimit a) 0) && Nat.leb (lengthLimit a) (length (items a)));
    simpl; [| done].
  destruct args as [| x args]; simpl; done.
Qed.

Lemma length_append_truncate args a :
  length (items (fla_append args (_truncate args a))) =
    if negb (Nat.eqb (lengthLimit a) 0) && Nat.leb (lengthLimit a) (length (items a))
    then Nat.max (length (items a)) (length args)
    else (length (items a) + length args)%nat.
Proof.
  rewrite items_append_truncate, length_app, length_drop.
  destruct (negb (Nat.eqb (lengthLimit a) 0) && Nat.leb (lengthLimit a) (length (items a)));
    lia.
Qed.

(** X11. With a limit set, a [push] of one value onto an array that is
    within its limit leaves it within its limit, whether the array is one
    of unique values or not. *)
Theorem fla_push_one_within_limit x a :
  (0 < lengthLimit a)%nat →
  (length (items a) ≤ lengthLimit a)%nat →
  (length (items (fla_push [x] a)) ≤ lengthLimit a)%nat.
Proof.
  intros Hpos Hlen. unfold fla_push, fla_add.
  assert (∀ args, (length args ≤ 1)%nat →
    (length (items (fla_append args (_truncate args a))) ≤ lengthLimit a)%nat) as Hone.
  { intros args Hargs. rewrite length_append_truncate.
    destruct (Nat.eqb_spec (lengthLimit a) 0) as [| _]; [lia |]. simpl.
    destruct (Nat.leb_spec (lengthLimit a) (length (items a))); lia. }
  destruct (unique a).
  - apply Hone. etrans; [apply length_js_Set |]. etrans; [apply length_filter |]. done.
  - by apply Hone.
Qed.

(** X12. A [push] of several values at once onto an array that takes
    duplicates: below the limit (or without one) all of them are appended,
    whatever the limit; at the limit as many of the oldest items make room
    as there are values.  The values pushed are the last items. *)
Theorem fla_push_many_length l (limit : nat) args :
  let a := mkFLA l limit false in
  length (items (fla_push args a)) =
    (if negb (Nat.eqb limit 0) && Nat.leb limit (length l)
     then Nat.max (length l) (length args)
     else (length l + length args)%nat) ∧
  (∃ older, items (fla_push args a) = older ++ args ∧ older `suffix_of` l) ∧
  lengthLimit (fla_push args a) = limit.
Proof.
  intros a. unfold fla_push. cbn [unique a]. split_and!.
  - by rewrite length_append_truncate.
  - rewrite items_append_truncate. eexists. split; [done |]. apply suffix_drop.
  - unfold fla_append, _truncate. simpl. by case_match.
Qed.

(** X13. [add], and [push] on an array of unique values, with any number
    of values: the items stay pairwise distinct, every value that was not
    in the array is in it afterwards, and nothing else gets in. *)
Theorem fla_add_keeps_distinct args a :
  NoDup (items a) →
  NoDup (items (fla_add args a)) ∧
  (∀ x, x ∈ args → x ∉ items a → x ∈ items (fla_add args a)) ∧
  (∀ x, x ∈ items (fla_add args a) → x ∈ items a ∨ x ∈ args) ∧
  (unique a = true → fla_push args a = fla_add args a).
Proof.
  intros Hnd. unfold fla_add. rewrite items_append_truncate.
  set (args' := js_Set (filter (λ x, x ∉ items a) args)).
  assert (∀ x, x ∈ args' ↔ x ∈ args ∧ x ∉ items a) as Hargs.
  { intros x. subst args'. rewrite elem_of_js_Set, list_elem_of_filter. tauto. }
  split_and!.
  - apply NoDup_app. split_and!.
    + by apply NoDup_drop.
    + intros x Hx Hx'. apply elem_of_drop in Hx. apply Hargs in Hx'. tauto.
    + apply NoDup_js_Set.
  - intros x Hx Hnin. apply elem_of_app. right. by apply Hargs.
  - intros x Hx. apply elem_of_app in Hx as [Hx | Hx].
    + left. by apply elem_of_drop in Hx.
    + right. by apply Hargs.
  - intros Hu. unfold fla_push. by rewrite Hu.
Qed.
End FixedLengthArrayMore.

(** ** Beyond the specification: the store and its filters *)

Lemma filter_all {X} (P : X → Prop) `{!∀ x, Decision (P x)} (l : list X) :
  (∀ x, P x) → filter P l = l.
Proof.
  intros HP. induction l as [| x l IH]; [done |].
  rewrite filter_cons_True by done. by rewrite IH.
Qed.

Lemma fold_left_filters (opts : list Filter) (s : State) (l : list ref) :
  fold_left (λ txList f, getTxsByMetaData f txList s) opts l =
    filter (λ q, Forall (λ f, matches f (deref s q)) opts) l.
Proof.
  revert l. induction opts as [| f opts IH]; intros l; simpl.
  - symmetry. apply filter_all. intros q. constructor.
  - rewrite IH. unfold getTxsByMetaData. rewrite list_filter_filter.
    apply list_filter_iff. intros q. rewrite Forall_cons. tauto.
Qed.

(** X15. A filter of several keys gives the records of the store that
    match every key, in the order of the store and as often as the store
    holds them. *)
Theorem getFilteredTxList_all_keys (opts : list Filter) (s : State) :
  opts ≠ [] →
  getFilteredTxList opts s =
    filter (λ q, Forall (λ f, matches f (deref s q)) opts) (tx s).
Proof. intros _. apply fold_left_filters. Qed.

Lemma length_by_status (f : ref → option Status) (l : list ref) :
  (length (filter (λ q, f q = Some submitted) l) +
   length (filter (λ q, f q = Some pending) l) +
   length (filter (λ q, f q = Some failed) l) +
   length (filter (λ q, f q = Some confirmed) l) +
   length (filter (λ q, f q = None) l) = length l)%nat.
Proof.
  induction l as [| q l IH]; [done |].
  rewrite !filter_cons. destruct (f q) as [[] |] eqn:E;
    repeat case_decide; simplify_eq; simpl; lia.
Qed.

(** X14. The four counts of [getTxStat] and the records that no
    [updateTx] has marked yet add up to the records of the store: a record
    is counted once at most, and a record that [addTx] has just appended is
    counted nowhere. *)
Theorem getTxStat_counts (s : State) :
  let stat := getTxStat s in
  (stat_submitted stat + stat_pending stat + stat_failed stat + stat_confirmed stat +
   length (unmarked s) = length (tx s))%nat ∧
  stat_retries stat = retries s ∧
  stat_totalGasUsed stat = totalGasUsed s.
Proof.
  cbv zeta. split; [| done]. unfold getTxStat, unmarked. cbn [stat_submitted stat_pending
    stat_failed stat_confirmed].
  unfold getSubmittedTransactions, getPendingTransactions, getFailedTransactions,
    getConfirmedTransactions. rewrite !filterTxByStatus_all.
  apply (length_by_status (λ q, tx_status (deref s q))).
Qed.

(** ** Beyond the specification: the highest nonce *)

Lemma fold_left_Math_max_None (l : list (option Z)) : fold_left Math_max l None = None.
Proof. induction l as [| x l IH]; [done | exact IH]. Qed.

Lemma fold_left_Math_max_inv (l : list (option Z)) (z m : Z) :
  fold_left Math_max l (Some z) = Some m →
  z ≤ m ∧ (∀ x, x ∈ l → ∃ n, x = Some n ∧ n ≤ m) ∧ (m = z ∨ Some m ∈ l).
Proof.
  revert z. induction l as [| x l IH]; intros z; simpl.
  - intros [= ->]. split_and!; [lia | | by left].
    intros x Hx. by apply elem_of_nil in Hx.
  - destruct x as [n |]; simpl; [| by rewrite fold_left_Math_max_None].
    intros H. apply IH in H as (Hz & Hall & Hm). split_and!; [lia | |].
    + intros x Hx. apply elem_of_cons in Hx as [-> | Hx]; [| by apply Hall].
      exists n. split; [done | lia].
    + destruct Hm as [-> | Hm]; [| right; by right].
      destruct (Z.max_spec z n) as [[_ ->] | [_ ->]]; [right; by left | by left].
Qed.

Lemma fold_left_Math_max_is_Some (l : list (option Z)) (z : Z) :
  (∀ x, x ∈ l → is_Some x) → is_Some (fold_left Math_max l (Some z)).
Proof.
  revert z. induction l as [| x l IH]; intros z H; simpl; [by eexists |].
  destruct (H x) as [n ->]; [by left |]. simpl. apply IH. intros y Hy. apply H. by right.
Qed.

(** X16. [_getHighestNonce] gives a number exactly when the list is not
    empty and every record of it carries a nonce, and then the highest of
    these nonces; in every other case ([null], [undefined], [NaN]) the
    caller reads 0 for the bound of the confirmed nonces. *)
Theorem getHighestNonce_is_maximum (txList : list ref) (s : State) (m : Z) :
  _getHighestNonce txList s = Some m ↔
    (∀ q, q ∈ txList → ∃ n, tx_nonce (deref s q) = Some n ∧ n ≤ m) ∧
    (∃ q, q ∈ txList ∧ tx_nonce (deref s q) = Some m).
Proof.
  unfold _getHighestNonce.
  assert (∀ x, x ∈ ((λ q, tx_nonce (deref s q)) <$> txList) ↔
               ∃ q, q ∈ txList ∧ tx_nonce (deref s q) = x) as Hfmap.
  { intros x. rewrite list_elem_of_fmap. split; intros (q & H1 & H2); eauto. }
  destruct ((λ q, tx_nonce (deref s q)) <$> txList) as [| x l] eqn:E.
  - split; [done |]. intros (_ & q & Hq & Hn).
    assert (Some m ∈ @nil (option Z)) as Hin by (apply Hfmap; eauto).
    by apply elem_of_nil in Hin.
  - split.
    + intros H. destruct x as [z |]; [| by rewrite fold_left_Math_max_None in H].
      apply fold_left_Math_max_inv in H as (Hz & Hall & Hm). split.
      * intros q Hq.
        assert (tx_nonce (deref s q) ∈ Some z :: l) as Hin by (apply Hfmap; eauto).
        apply elem_of_cons in Hin as [-> | Hin]; [exists z; split; [done | lia] |].
        by apply Hall.
      * apply Hfmap. destruct Hm as [-> | Hm]; [by left | by right].
    + intros (Hall & Hm).
      assert (∀ y, y ∈ x :: l → ∃ n, y = Some n ∧ n ≤ m) as Hall'.
      { intros y Hy. apply Hfmap in Hy as (q & Hq & <-). by apply Hall. }
      destruct (Hall' x) as (z & -> & Hz); [by left |].
      destruct (fold_left_Math_max_is_Some l z) as [m' Hm'].
      { intros y Hy. destruct (Hall' y) as (n & -> & _); [by right | by eexists]. }
      rewrite Hm'. f_equal.
      apply fold_left_Math_max_inv in Hm' as (Hz' & Hall'' & Hatt).
      apply Hfmap in Hm.
      assert (m ≤ m').
      { apply elem_of_cons in Hm as [[= ->] | Hm]; [done |].
        destruct (Hall'' _ Hm) as (n & [= <-] & Hn). done. }
      assert (m' ≤ m).
      { destruct Hatt as [-> | Hatt]; [done |].
        destruct (Hall' (Some m')) as (n & [= <-] & Hn); [by right | done]. }
      lia.
Qed.

Lemma inUseAt_true (nonces : list (option Z)) (address : string)
    (inUse : option (FixedLengthArray (option Z))) (k : Z) :
  inUseAt nonces address inUse k = true ↔
    Some k ∈ nonces ∨ (address ≠ "" ∧ ∃ arr, inUse = Some arr ∧ Some k ∈ items arr).
Proof.
  unfold inUseAt.
  rewrite orb_true_iff, andb_true_iff, negb_true_iff, bool_decide_eq_true,
    bool_decide_eq_false.
  split; intros [H | [H1 H2]]; [by left | | by left |].
  - right. split; [done |]. destruct inUse as [arr |]; [| done].
    exists arr. split; [done |]. by apply bool_decide_eq_true in H2.
  - right. split; [done |]. destruct H2 as (arr & -> & H2).
    by apply bool_decide_eq_true.
Qed.

Section LeastFree.
Variable toChecksum : string → string.

(** X1. [_getHighestContinuousFrom] ends, and on the lowest value from the
    start point on that is neither the nonce of a record of the list nor,
    when an address is given, in the exclusion set of that address. *)
Theorem getHighestContinuousFrom_least (txList : list ref) (startPoint : Z)
    (address : string) (s : State) :
  let address' := if bool_decide (address = "") then address else toChecksum address in
  let taken (k : Z) :=
    (∃ q, q ∈ txList ∧ tx_nonce (deref s q) = Some k) ∨
    (address' ≠ "" ∧ ∃ arr, _nonceInUse s !! address' = Some arr ∧ Some k ∈ items arr) in
  let highest := _getHighestContinuousFrom toChecksum txList startPoint address s in
  startPoint ≤ highest ∧ ¬ taken highest ∧ ∀ k, startPoint ≤ k < highest → taken k.
Proof.
  intros address' taken highest.
  assert (∀ k, inUseAt ((λ q, tx_nonce (deref s q)) <$> txList) address'
                 (_nonceInUse s !! address') k = true ↔ taken k) as Hused.
  { intros k. rewrite inUseAt_true, list_elem_of_fmap. unfold taken.
    split; (intros [(q & H1 & H2) | H]; [left; eauto | by right]). }
  split_and!.
  - apply getHighestContinuousFrom_ge.
  - intros H. apply Hused in H.
    pose proof (getHighestContinuousFrom_free toChecksum txList startPoint address s) as Hfree.
    cbv zeta in Hfree. fold address' highest in Hfree. congruence.
  - intros k Hk. apply Hused. eapply scan_skipped. exact Hk.
Qed.
End LeastFree.

(** ** Beyond the specification: what the steps leave alone *)

Global Instance keeps_refl {X} (f : State → X) : Reflexive (keeps f).
Proof. intros s. reflexivity. Qed.
Global Instance keeps_trans {X} (f : State → X) : Transitive (keeps f).
Proof. intros s1 s2 s3 H1 H2. unfold keeps in *. congruence. Qed.

(** The steps that write the objects, the store, the id counter, the clock
    and the exclusion sets only. *)
Section Keeps.
Context {X : Type} (f : State → X).
Hypothesis f_heap : ∀ h s, f (set_heap h s) = f s.
Hypothesis f_tx : ∀ l s, f (set_tx l s) = f s.
Hypothesis f_idCounter : ∀ c s, f (set_idCounter c s) = f s.
Hypothesis f_clock : ∀ c s, f (set_clock c s) = f s.
Hypothesis f_nonceInUse : ∀ u s, f (set_nonceInUse u s) = f s.

Lemma mutate_keeps r g s : keeps f s (mutate r g s).
Proof. apply f_heap. Qed.

Lemma modify_mutate_keeps r g : framed (keeps f) (modify (mutate r g)).
Proof. apply framed_modify. intros s. apply mutate_keeps. Qed.

Lemma updateTx_keeps r status : framed (keeps f) (updateTx r status).
Proof.
  intros s. unfold updateTx, keeps.
  destruct (list_find _ _) as [[i q] |]; cbn [st]; unfold mutate; by rewrite ?f_heap.
Qed.

Lemma addTx_keeps r : framed (keeps f) (addTx r).
Proof.
  intros s. unfold keeps. destruct (truthy (tx_id (deref s r))) eqn:E.
  - rewrite addTx_update by done. rewrite (updateTx_keeps r pending _).
    unfold mutate. by rewrite !f_heap.
  - rewrite addTx_alloc by done. cbv zeta. cbn [st]. unfold mutate.
    by rewrite f_tx, f_heap, f_idCounter, !f_heap.
Qed.

Lemma settle_others_keeps w : framed (keeps f) (settle_others w).
Proof.
  induction w as [| qe w IH]; [apply (framed_ret (keeps f)) |].
  simpl. apply (framed_bind (keeps f)); [| done].
  intros s. apply updateTx_keeps.
Qed.

Lemma sleep_keeps who ms : framed (keeps f) (sleep who ms).
Proof. apply (framed_sleep (keeps f)). intros s c. apply f_clock. Qed.

Lemma waitQueue_loop_keeps world : framed (keeps f) (_waitQueue_loop world).
Proof.
  induction world as [| w world IH].
  - rewrite waitQueue_loop_nil.
    apply (framed_bind (keeps f)); [apply sleep_keeps | intros _].
    apply (framed_blocked (keeps f)).
  - rewrite waitQueue_loop_cons.
    apply (framed_bind (keeps f)); [apply sleep_keeps | intros _].
    apply (framed_bind (keeps f)); [apply settle_others_keeps | intros _].
    apply (framed_bind (keeps f)); [apply (framed_get (keeps f)) | intros s'].
    apply (framed_bind (keeps f)); [apply (framed_emit (keeps f)) | intros _].
    case_match; [done | apply (framed_ret (keeps f))].
Qed.

Lemma waitQueue_keeps world : framed (keeps f) (_waitQueue world).
Proof.
  unfold _waitQueue.
  apply (framed_bind (keeps f)); [apply (framed_get (keeps f)) | intros s'].
  apply (framed_bind (keeps f)); [apply (framed_emit (keeps f)) | intros _].
  case_match; [apply waitQueue_loop_keeps | apply (framed_ret (keeps f))].
Qed.

Lemma markConfirmed_keeps r result : framed (keeps f) (markConfirmed r result).
Proof.
  unfold markConfirmed.
  apply (framed_bind (keeps f)); [apply (framed_get (keeps f)) | intros s'].
  apply (framed_bind (keeps f)); [| intros _; apply (framed_ret (keeps f))].
  case_bool_decide; [apply (framed_ret (keeps f)) | apply updateTx_keeps].
Qed.

Lemma verify_keeps ro err counter afterSleep :
  framed (keeps f) (_verify ro err counter afterSleep).
Proof.
  unfold _verify. destruct err; [| apply (framed_ret (keeps f))].
  destruct (ro_verify ro); [| apply (framed_ret (keeps f))].
  apply (framed_bind (keeps f)); [apply (framed_emit (keeps f)) | intros _].
  apply (framed_ret (keeps f)).
Qed.

Section KeepsEngine.
Variable toChecksum : string → string.

Lemma checkError_keeps err A r : framed (keeps f) (_checkError toChecksum err A r).
Proof.
  apply framed_modify. intros s. unfold keeps.
  destruct (stuckNonce _); [apply f_nonceInUse | done].
Qed.

(** The steps of [submitTx] after the call of [send]. *)
Lemma submitTx_settle_keeps env r :
  (∀ g w s, f (set_stat g w s) = f s) →
  framed (keeps f) (submitTx_settle toChecksum env r).
Proof.
  intros f_stat. unfold submitTx_settle, _finalizeTx, _calculateGasExpenses.
  apply (framed_bind (keeps f)); [| intros _].
  { destruct (env_hash env); [apply modify_mutate_keeps | apply (framed_ret (keeps f))]. }
  apply (framed_bind (keeps f)); [| intros res].
  { destruct (env_send env) as [rc | e].
    - apply (framed_bind (keeps f)); [apply modify_mutate_keeps | intros _].
      apply (framed_bind (keeps f)); [| intros _; apply (framed_ret (keeps f))].
      apply (framed_bind (keeps f)); [apply modify_mutate_keeps | intros _].
      apply framed_modify. intros s. apply f_stat.
    - apply (framed_bind (keeps f)); [apply (framed_get (keeps f)) | intros s'].
      apply (framed_bind (keeps f)); [apply checkError_keeps | intros _].
      apply (framed_ret (keeps f)). }
  apply (framed_bind (keeps f)); [apply updateTx_keeps | intros _].
  apply (framed_bind (keeps f)); [apply (framed_emit (keeps f)) | intros _].
  apply (framed_ret (keeps f)).
Qed.

(** The steps of [submitTx] up to the call of [send], for a part of the
    state that the mutexes are no part of. *)
Lemma getNonce_keeps A net :
  (∀ l s, f (set_lockMap l s) = f s) →
  framed (keeps f) (getNonce toChecksum A net).
Proof.
  intros f_lock s. unfold keeps, getNonce, _getLock, _lookupMutex, bind. simpl.
  destruct (_lockMap s !! toChecksum A) as [[|] |]; destruct net; simpl;
    by rewrite ?f_lock.
Qed.

Lemma submitTx_claim_keeps r nn release :
  (∀ l s, f (set_lockMap l s) = f s) →
  framed (keeps f) (submitTx_claim r nn release).
Proof.
  intros f_lock. unfold submitTx_claim, releaseNonceLock.
  apply (framed_bind (keeps f)); [apply modify_mutate_keeps | intros _].
  apply (framed_bind (keeps f)); [apply modify_mutate_keeps | intros _].
  apply (framed_bind (keeps f)); [apply updateTx_keeps | intros _].
  apply (framed_bind (keeps f)); [apply (framed_get (keeps f)) | intros s'].
  apply (framed_bind (keeps f)); [apply (framed_emit (keeps f)) | intros _].
  apply (framed_bind (keeps f)); [| intros _; apply (framed_emit (keeps f))].
  apply framed_modify. intros s. apply f_lock.
Qed.

Lemma submitTx_dispatch_keeps env r :
  (∀ l s, f (set_lockMap l s) = f s) →
  framed (keeps f) (submitTx_dispatch toChecksum env r).
Proof.
  intros f_lock. unfold submitTx_dispatch.
  apply (framed_bind (keeps f)); [apply addTx_keeps | intros _].
  apply (framed_bind (keeps f)); [apply (framed_get (keeps f)) | intros s'].
  apply (framed_bind (keeps f)); [by apply getNonce_keeps | intros nl].
  apply (framed_bind (keeps f)); [apply waitQueue_keeps | intros _].
  by apply submitTx_claim_keeps.
Qed.

Lemma submitTx_keeps env r :
  (∀ l s, f (set_lockMap l s) = f s) →
  (∀ g w s, f (set_stat g w s) = f s) →
  framed (keeps f) (submitTx toChecksum env r).
Proof.
  intros f_lock f_stat. unfold submitTx.
  apply (framed_bind (keeps f)); [apply (framed_get (keeps f)) | intros s'].
  destruct (tx_txType (deref s' r)).
  - apply (framed_bind (keeps f)); [apply (framed_emit (keeps f)) | intros _].
    apply (framed_bind (keeps f)); [apply (framed_emit (keeps f)) | intros _].
    apply (framed_ret (keeps f)).
  - apply (framed_bind (keeps f)); [by apply submitTx_dispatch_keeps | intros _].
    by apply submitTx_settle_keeps.
Qed.
End KeepsEngine.
End Keeps.

(** ** Beyond the specification: the mutexes *)

Lemma held_false (A : string) (s : State) :
  held A s = false ↔ _lockMap s !! A ≠ Some true.
Proof. unfold held. apply bool_decide_eq_false. Qed.

(** The mutexes that are held after the mutex of [A], free before, has been
    taken and given back. *)
Lemma held_released (A B : string) (s s' : State) :
  held A s = false →
  _lockMap s' = <[A := false]> (<[A := true]> (_lockMap s)) →
  held B s' = held B s.
Proof.
  intros Hfree Hs'. unfold held in *. rewrite Hs'. rewrite insert_insert_eq.
  destruct (decide (B = A)) as [-> | Hne].
  - rewrite lookup_insert_eq, Hfree. by rewrite bool_decide_eq_false_2.
  - by rewrite lookup_insert_ne.
Qed.

Lemma submitTx_claim_lockMap (r : ref) (nn : Z) (release : string) (s : State) :
  found r s →
  _lockMap (st (submitTx_claim r nn release s)) = <[release := false]> (_lockMap s).
Proof.
  intros Hfound. unfold submitTx_claim. rewrite !bind_modify.
  set (s2 := mutate r _ (mutate r _ s)).
  assert (found r s2) as Hfound2.
  { subst s2. eapply ids_frame_found; [| exact Hfound].
    etrans; by apply ids_frame_mutate. }
  pose proof (updateTx_found r submitted s2 Hfound2) as Hok.
  rewrite (st_bind_Ok _ _ _ tt Hok). rewrite bind_get, bind_emit. cbn [st].
  unfold releaseNonceLock. rewrite bind_modify. cbn [emit st]. simpl.
  by rewrite (updateTx_keeps _lockMap (λ _ _, eq_refl) r submitted s2).
Qed.

Section Mutexes.
Variable toChecksum : string → string.

(** [getNonce] on a free mutex and a failing node. *)
Lemma getNonce_throws (A : string) (e : Error) (s : State) :
  _lockMap s !! toChecksum A ≠ Some true →
  getNonce toChecksum A (NetError e) s =
    mkRun (Throw (mkError ("Error: " +:+ message e)))
      (set_lockMap (<[toChecksum A := false]> (_lockMap s)) s) [].
Proof.
  intros Hfree. unfold getNonce, _getLock, _lookupMutex, bind. simpl.
  destruct (_lockMap s !! toChecksum A) as [[|] |] eqn:E; simpl; try done.
  - unfold set_lockMap. simpl. by rewrite insert_insert_eq.
  - unfold set_lockMap. simpl. by rewrite !insert_insert_eq.
Qed.

Lemma held_set_free (A B : string) (s : State) :
  _lockMap s !! A ≠ Some true →
  held B (set_lockMap (<[A := false]> (_lockMap s)) s) = held B s.
Proof.
  intros Hfree. unfold held. simpl. destruct (decide (B = A)) as [-> | Hne].
  - rewrite lookup_insert_eq. by rewrite !bool_decide_eq_false_2.
  - by rewrite lookup_insert_ne.
Qed.

(** X2. When the node's answer fails, [getNonce] throws the error wrapped
    in a new one, and gives the mutex back first: no mutex is held that was
    not held before, nothing else has changed, and the next [getNonce] for
    the address goes through. *)
Theorem getNonce_failure_frees_mutex (A : string) (e : Error) (n : Z) (s : State) :
  held (toChecksum A) s = false →
  let run := getNonce toChecksum A (NetError e) s in
  out run = Throw (mkError ("Error: " +:+ message e)) ∧
  evs run = [] ∧
  (∀ B, held B (st run) = held B s) ∧
  tx (st run) = tx s ∧ heap (st run) = heap s ∧ _nonceInUse (st run) = _nonceInUse s ∧
  ∃ nextNonce,
    out (getNonce toChecksum A (NetCount n) (st run)) = Ok (nextNonce, toChecksum A).
Proof.
  intros Hfree run. apply held_false in Hfree.
  subst run. rewrite getNonce_throws by done. cbn [out st evs]. split_and!; try done.
  - intros B. by apply held_set_free.
  - eexists. rewrite getNonce_returns; [done |].
    simpl. by rewrite lookup_insert_eq.
Qed.

(** X4. The mutex is one per checksummed address: while a [getNonce] for
    [A] holds its mutex, a [getNonce] for [B] stays suspended exactly when
    [B] is, in checksum form, the address [A]; for every other address it
    goes on, and computes what it would have computed before. *)
Theorem mutex_is_per_address (A B : string) (n : Z) (net : NetResp) (s : State) :
  held (toChecksum A) s = false →
  held (toChecksum B) s = false →
  let s1 := st (getNonce toChecksum A (NetCount n) s) in
  (out (getNonce toChecksum B net s1) = Blocked ↔ toChecksum B = toChecksum A) ∧
  (∀ n', nextNonceOf toChecksum (toChecksum B) n' s1 =
         nextNonceOf toChecksum (toChecksum B) n' s).
Proof.
  intros HA HB s1. apply held_false in HA, HB.
  subst s1. rewrite getNonce_returns by done. cbn [st]. split; [| done].
  destruct (decide (toChecksum B = toChecksum A)) as [Heq | Hne].
  - split; [done |]. intros _. rewrite getNonce_blocked; [done |].
    simpl. rewrite Heq. by rewrite lookup_insert_eq.
  - split; [| done]. intros Hb. exfalso.
    assert (_lockMap (set_lockMap (<[toChecksum A := true]> (_lockMap s)) s)
              !! toChecksum B ≠ Some true) as Hfree.
    { simpl. by rewrite lookup_insert_ne. }
    destruct net as [n' | e'].
    + rewrite getNonce_returns in Hb by done. done.
    + destruct (getNonce_error toChecksum B e' _ Hfree) as [Ho _]. congruence.
Qed.

Lemma submitTx_dispatch_held (env : SubmitEnv) (r : ref) (s : State) :
  out (submitTx_dispatch toChecksum env r s) ≠ Blocked →
  ∀ B, held B (st (submitTx_dispatch toChecksum env r s)) = held B s.
Proof.
  unfold submitTx_dispatch. intros Hnb B.
  pose proof (addTx_keeps _lockMap (λ _ _, eq_refl) (λ _ _, eq_refl) (λ _ _, eq_refl) r s)
    as Hk0.
  destruct (addTx_cases r s) as [_ [Hok | Hthrow]].
  2:{ rewrite st_bind_stop by (intros u; by rewrite Hthrow). unfold held. by rewrite Hk0. }
  revert Hnb.
  rewrite (out_bind_Ok _ _ _ tt Hok), (st_bind_Ok _ _ _ tt Hok).
  pose proof (addTx_found r s Hok) as Hfound.
  assert (held B (st (addTx r s)) = held B s) as <- by (unfold held; by rewrite Hk0).
  clear Hk0 Hok. revert Hfound. generalize (st (addTx r s)). clear s. intros s Hfound.
  rewrite bind_get.
  set (A := opt_from (tx_options (deref s r))).
  destruct (decide (_lockMap s !! toChecksum A = Some true)) as [Hheld | Hfree].
  { rewrite (out_bind_Blocked _ _ s) by (by rewrite getNonce_blocked). done. }
  destruct (env_net env) as [n | e].
  - pose proof (getNonce_returns toChecksum A n s Hfree) as Hg.
    rewrite (out_bind_Ok _ _ _ (nextNonceOf toChecksum (toChecksum A) n s, toChecksum A))
      by (by rewrite Hg).
    rewrite (st_bind_Ok _ _ _ (nextNonceOf toChecksum (toChecksum A) n s, toChecksum A))
      by (by rewrite Hg).
    rewrite Hg. cbn [st fst snd].
    set (s2 := set_lockMap _ s).
    pose proof (waitQueue_keeps _lockMap (λ _ _, eq_refl) (λ _ _, eq_refl) (env_world env) s2)
      as Hk2.
    pose proof (waitQueue_framed (env_world env) s2) as Hf2.
    destruct (out (_waitQueue (env_world env) s2)) as [[] | e |] eqn:Hw.
    + rewrite (out_bind_Ok _ _ _ tt Hw), (st_bind_Ok _ _ _ tt Hw). intros _.
      assert (found r (st (_waitQueue (env_world env) s2))) as Hfound3.
      { eapply ids_frame_found; [exact Hf2 |]. exact Hfound. }
      apply (held_released (toChecksum A)); [by apply held_false |].
      rewrite submitTx_claim_lockMap by done. by rewrite Hk2.
    + exfalso. pose proof (waitQueue_trace (env_world env) s2) as (ks & _ & [H | H]).
      * destruct H as (Hb & _). congruence.
      * destruct H as (k & _ & Ho & _). congruence.
    + rewrite (out_bind_Blocked _ _ _ Hw). done.
  - intros _.
    rewrite st_bind_stop by (intros u; by rewrite getNonce_throws).
    rewrite getNonce_throws by done. by apply held_set_free.
Qed.

Lemma submitTx_held (env : SubmitEnv) (r : ref) (s : State) :
  out (submitTx toChecksum env r s) ≠ Blocked →
  ∀ B, held B (st (submitTx toChecksum env r s)) = held B s.
Proof.
  unfold submitTx. rewrite bind_get.
  destruct (tx_txType (deref s r)); [done |].
  intros Hnb B.
  destruct (out (submitTx_dispatch toChecksum env r s)) as [[] | e |] eqn:Hd.
  - rewrite (st_bind_Ok _ _ _ tt Hd).
    pose proof (submitTx_settle_keeps _lockMap (λ _ _, eq_refl) (λ _ _, eq_refl)
                  toChecksum env r (λ _ _ _, eq_refl)
                  (st (submitTx_dispatch toChecksum env r s))) as Hk.
    unfold held. rewrite Hk. fold (held B (st (submitTx_dispatch toChecksum env r s))).
    apply submitTx_dispatch_held. by rewrite Hd.
  - rewrite st_bind_stop by (intros u; by rewrite Hd).
    apply submitTx_dispatch_held. by rewrite Hd.
  - exfalso. apply Hnb. by rewrite (out_bind_Blocked _ _ _ Hd).
Qed.

(** X3. A [submitTx] that has come to its end, with a result or with an
    exception, holds no mutex that was not held before: between its calls
    the mutex of the sender is free. *)
Theorem submitTx_gives_mutex_back (env : SubmitEnv) (r : ref) (s : State) :
  out (submitTx toChecksum env r s) ≠ Blocked →
  ∀ B, held B (st (submitTx toChecksum env r s)) = held B s.
Proof. intros Hnb B. by apply submitTx_held. Qed.
End Mutexes.

(** ** Beyond the specification: the rounds of the retry loop *)

Lemma submissions_app (l1 l2 : list Event) :
  submissions (l1 ++ l2) = (submissions l1 + submissions l2)%nat.
Proof. unfold submissions. by rewrite List.filter_app, length_app. Qed.

Lemma backoff_sleeps_app (l1 l2 : list Event) :
  backoff_sleeps (l1 ++ l2) = backoff_sleeps l1 ++ backoff_sleeps l2.
Proof. apply omap_app. Qed.

Lemma submissions_quiet (Q : list Event) :
  Forall (λ e, quiet e = true) Q → submissions Q = 0%nat.
Proof.
  intros HQ. rewrite <- (app_nil_r Q). by rewrite submissions_quiet_app.
Qed.

Lemma backoff_sleeps_quiet (Q : list Event) :
  Forall (λ e, quiet e = true) Q → backoff_sleeps Q = [].
Proof.
  induction 1 as [| e Q He _ IH]; [done |].
  destruct e as [| | [|] | | | | | |]; first [exact IH | discriminate He].
Qed.

Lemma submissions_verify (V : list Event) :
  Forall (λ e, is_EvVerify e = true) V → submissions V = 0%nat.
Proof.
  induction 1 as [| e V He _ IH]; [done |].
  destruct e; first [done | exact IH].
Qed.

Lemma backoff_sleeps_verify (V : list Event) :
  Forall (λ e, is_EvVerify e = true) V → backoff_sleeps V = [].
Proof.
  induction 1 as [| e V He _ IH]; [done |].
  destruct e; first [done | exact IH].
Qed.

(** [_verify] returns, with the calls of the predicate for its events; it is
    not called after a submission that succeeded. *)
Lemma verify_run_cases ro err counter afterSleep s :
  ∃ b V, _verify ro err counter afterSleep s = mkRun (Ok b) s V ∧
    Forall (λ e, is_EvVerify e = true) V ∧
    (err = None → b = true ∧ V = []).
Proof.
  unfold _verify. destruct err as [e |].
  - destruct (ro_verify ro) as [verify |].
    + exists (verify counter afterSleep), [EvVerify (verify counter afterSleep)].
      split_and!; [done | by repeat constructor | done].
    + exists false, []. split_and!; [done | constructor | done].
  - exists true, []. split_and!; [done | constructor | done].
Qed.

(** The ways through the body of the loop after [submitTx] has returned:
    success at once, the budget used up, success after the sleep, or the
    next round. *)
Lemma retry_decide_cases (next : M (option Error * option Result))
    ro r counter er s :
  (counter ≤ retry_of ro)%nat →
  let run := retry_decide next ro r counter er s in
  let s1 := mutate r (λ m, set_options (set_opt_data None (tx_options m)) m) s in
  let s2 := set_clock (clock s1 + backoff_of ro counter) s1 in
  let s3 :=
    set_retries (retries s2 + 1)
      (mutate r (λ m, set_options (set_opt_nonce
         (updateNonce (from_option message "" er.1) (tx_nonce m)) (tx_options m)) m) s2) in
  ∃ V1 V2,
    Forall (λ e, is_EvVerify e = true) V1 ∧ Forall (λ e, is_EvVerify e = true) V2 ∧
    (er.1 = None → V1 = []) ∧
    (run = mkRun (out (markConfirmed r er.2 s1)) (st (markConfirmed r er.2 s1)) V1 ∨
     (run = mkRun (Ok er) s1 V1 ∧ retry_of ro = counter ∧ is_Some er.1) ∨
     (run = mkRun (out (markConfirmed r er.2 s2)) (st (markConfirmed r er.2 s2))
              (V1 ++ EvSleep Backoff (backoff_of ro counter) :: V2) ∧
      (counter < retry_of ro)%nat ∧ is_Some er.1) ∨
     (run = mkRun (out (next s3)) (st (next s3))
              (V1 ++ EvSleep Backoff (backoff_of ro counter) :: V2 ++ evs (next s3)) ∧
      (counter < retry_of ro)%nat ∧ is_Some er.1)).
Proof.
  intros Hc. cbv zeta. unfold retry_decide, backoff_of. rewrite bind_modify.
  set (s1 := mutate r _ s).
  destruct (verify_run_cases ro er.1 counter false s1) as (b1 & V1 & Hv1 & HV1 & Hnone1).
  rewrite (bind_run _ _ _ _ _ _ Hv1).
  destruct b1.
  { exists V1, []. split_and!; [done | constructor | apply Hnone1 |]. left.
    by rewrite markConfirmed_evs, app_nil_r. }
  assert (is_Some er.1) as Hsome.
  { destruct er.1; [by eexists |]. by destruct Hnone1. }
  assert (er.1 = None → V1 = []) as HV1nil by apply Hnone1.
  destruct (Nat.eqb_spec (retry_of ro) counter) as [Heq | Hne].
  { exists V1, []. split_and!; [done | constructor | done |]. right. left.
    cbn [ret out st evs]. by rewrite app_nil_r. }
  rewrite bind_sleep. cbv zeta. cbn [out st evs].
  set (s2 := set_clock _ s1).
  destruct (verify_run_cases ro er.1 counter true s2) as (b2 & V2 & Hv2 & HV2 & _).
  rewrite (bind_run _ _ _ _ _ _ Hv2). cbn [out st evs].
  destruct b2.
  { exists V1, V2. split_and!; [done | done | done |]. right. right. left.
    rewrite markConfirmed_evs, app_nil_r. split_and!; [done | lia | done]. }
  exists V1, V2. split_and!; [done | done | done |]. right. right. right.
  rewrite !bind_modify.
  replace (Nat.leb (S counter) (retry_of ro)) with true
    by (symmetry; apply Nat.leb_le; lia).
  split_and!; [reflexivity | lia | done].
Qed.

Lemma submissions_cons (e : Event) (l : list Event) :
  submissions (e :: l) = ((if is_EvSubmitTx e then 1 else 0) + submissions l)%nat.
Proof. unfold submissions. simpl. by destruct (is_EvSubmitTx e). Qed.

Lemma backoff_sleeps_cons (e : Event) (l : list Event) :
  backoff_sleeps (e :: l) =
    match e with EvSleep Backoff ms => [ms] | _ => [] end ++ backoff_sleeps l.
Proof. by destruct e as [| | [|] | | | | | |]. Qed.

Lemma updateTx_not_found (r : ref) (status : Status) (s : State) :
  ¬ found r s → out (updateTx r status s) = Throw TypeError.
Proof.
  intros Hnf. destruct (updateTx_cases r status s) as [Hok | Hthrow]; [| done].
  by apply updateTx_Ok_found in Hok.
Qed.

Lemma found_frame_back (r : ref) (s s' : State) :
  ids_frame s s' → found r s' → found r s.
Proof.
  intros [Htx Hid] (q & Hq & Hi). exists q. rewrite <- Htx. split; [done |].
  by rewrite <- !Hid.
Qed.

Section Rounds.
Variable toChecksum : string → string.

Lemma submitTx_call (env : SubmitEnv) (r : ref) (s : State) :
  tx_txType (deref s r) = call →
  submitTx toChecksum env r s =
    mkRun (Ok (env_call env)) s [EvCall r; EvSettled r (env_call env).1].
Proof. intros Ht. unfold submitTx. rewrite bind_get, Ht. done. Qed.

Lemma submitTx_retries (env : SubmitEnv) (r : ref) (s : State) :
  retries (st (submitTx toChecksum env r s)) = retries s.
Proof.
  apply (submitTx_keeps retries (λ _ _, eq_refl) (λ _ _, eq_refl) (λ _ _, eq_refl)
           (λ _ _, eq_refl) (λ _ _, eq_refl) toChecksum env r
           (λ _ _, eq_refl) (λ _ _ _, eq_refl)).
Qed.

Lemma markConfirmed_retries (r : ref) (result : option Result) (s : State) :
  retries (st (markConfirmed r result s)) = retries s.
Proof. apply (markConfirmed_keeps retries (λ _ _, eq_refl)). Qed.

(** The rounds from the attempt [c] on, counted. *)
Lemma retry_loop_counted ro env r fuel :
  ∀ c s,
    (c ≤ retry_of ro)%nat →
    (retry_of ro - c < fuel)%nat →
    rounds_counted ro c 1 s (retry_loop toChecksum fuel ro env r c s).
Proof.
  induction fuel as [| fuel IH]; intros c s Hc Hfuel; [lia |].
  cbn [retry_loop]. rewrite bind_modify, bind_emit.
  set (s0 := mutate r _ s).
  pose proof (submitTx_retries (env c) r s0) as Hsub.
  change (retries s0) with (retries s) in Hsub.
  destruct (submitTx_trace toChecksum (env c) r s0)
    as (Q & HQ & [(er & Ho & He) | (Hn & He)]).
  2:{ rewrite bind_not_Ok by done. exists 0%nat, 0%nat. cbn [out st evs]. rewrite He.
      rewrite submissions_cons, backoff_sleeps_cons, (submissions_quiet _ HQ),
        (backoff_sleeps_quiet _ HQ). cbn [is_EvSubmitTx].
      split_and!; try done; try lia; rewrite Hsub; lia. }
  rewrite (bind_Ok _ _ _ _ Ho). unfold rounds_counted. cbn [out st evs]. rewrite He.
  set (s1 := st (submitTx toChecksum (env c) r s0)) in *.
  destruct (retry_decide_cases (retry_loop toChecksum fuel ro env r (S c)) ro r c er s1 Hc)
    as (V1 & V2 & HV1 & HV2 & _ & Hcases).
  rewrite submissions_cons, backoff_sleeps_cons, !submissions_app, !backoff_sleeps_app,
    (submissions_quiet _ HQ), (backoff_sleeps_quiet _ HQ).
  cbn [is_EvSubmitTx].
  change (submissions [EvSettled r er.1]) with 0%nat.
  change (backoff_sleeps [EvSettled r er.1]) with (@nil Z).
  destruct Hcases as [Hrun | [(Hrun & Heq & _) | [(Hrun & Hlt & _) | (Hrun & Hlt & _)]]];
    rewrite Hrun; cbn [out st evs].
  - exists 0%nat, 0%nat.
    rewrite (submissions_verify _ HV1), (backoff_sleeps_verify _ HV1), markConfirmed_retries.
    change (retries (mutate r ?g s1)) with (retries s1). rewrite Hsub.
    split_and!; try done; try lia.
  - exists 0%nat, 0%nat.
    rewrite (submissions_verify _ HV1), (backoff_sleeps_verify _ HV1).
    change (retries (mutate r ?g s1)) with (retries s1). rewrite Hsub.
    split_and!; try done; try lia.
  - exists 0%nat, 1%nat.
    rewrite submissions_app, backoff_sleeps_app, submissions_cons, backoff_sleeps_cons,
      (submissions_verify _ HV1), (backoff_sleeps_verify _ HV1),
      (submissions_verify _ HV2), (backoff_sleeps_verify _ HV2), markConfirmed_retries.
    change (retries (set_clock ?t (mutate r ?g s1))) with (retries s1). rewrite Hsub.
    split_and!; try done; try lia.
  - destruct (IH (S c)
        (set_retries
           (retries (set_clock
              (clock (mutate r (λ m, set_options (set_opt_data None (tx_options m)) m) s1)
               + backoff_of ro c)
              (mutate r (λ m, set_options (set_opt_data None (tx_options m)) m) s1)) + 1)
           (mutate r
              (λ m, set_options
                 (set_opt_nonce (updateNonce (from_option message "" er.1) (tx_nonce m))
                    (tx_options m)) m)
              (set_clock
                 (clock (mutate r (λ m, set_options (set_opt_data None (tx_options m)) m) s1)
                  + backoff_of ro c)
                 (mutate r (λ m, set_options (set_opt_data None (tx_options m)) m) s1)))))
      as (m' & k' & Hn' & Hr' & Hk' & Hkb' & Hs'); [lia | lia |].
    exists (S m'), (S k').
    rewrite submissions_app, backoff_sleeps_app, submissions_cons, backoff_sleeps_cons,
      submissions_app, backoff_sleeps_app,
      (submissions_verify _ HV1), (backoff_sleeps_verify _ HV1),
      (submissions_verify _ HV2), (backoff_sleeps_verify _ HV2).
    rewrite Hn', Hr', Hs'. cbn [is_EvSubmitTx retries set_retries].
    change (retries (set_clock ?t (mutate r ?g s1))) with (retries s1). rewrite Hsub.
    split_and!; try done; try lia.
Qed.


(** X6. The sleeps of the retry loop grow by the delay (10 s when the
    option is 0 or absent) with every attempt: the sleep after the failed
    attempt [c] is [delay * (c + 1) * 1000] ms long, and there is one sleep
    between two calls of [submitTx], and at most one after the last. *)
Theorem sendWithRetry_backoff ro env r s :
  let run := sendWithRetry toChecksum ro env r s in
  ∃ k : nat,
    backoff_sleeps (evs run) = (λ c : nat, delay_of ro * (Z.of_nat c + 1) * 1000) <$> seq 0 k ∧
    (submissions (evs run) - 1 ≤ k ≤ submissions (evs run))%nat ∧
    (k ≤ retry_of ro)%nat.
Proof.
  cbv zeta. unfold sendWithRetry.
  destruct (retry_loop_counted ro env r (S (retry_of ro)) 0%nat s)
    as (m & k & Hn & _ & Hk & Hkb & Hs); [lia | lia |].
  exists k. rewrite Hn, Hs. split_and!; [done | lia | lia | lia].
Qed.
End Rounds.

(** ** Beyond the specification: what the loop returns *)

Lemma found_mutate_options (r : ref) (g : TxMeta → Options) (s : State) :
  found r s → found r (mutate r (λ m, set_options (g m) m) s).
Proof. intros H. eapply ids_frame_found; [| exact H]. by apply ids_frame_mutate. Qed.

Lemma found_set_clock (r : ref) (c : Z) (s : State) : found r s → found r (set_clock c s).
Proof. intros H. eapply ids_frame_found; [| exact H]. by split. Qed.

Lemma found_set_retries (r : ref) (n : Z) (s : State) : found r s → found r (set_retries n s).
Proof. intros H. eapply ids_frame_found; [| exact H]. by split. Qed.

Section Results.
Variable toChecksum : string → string.

(** What the rounds from the attempt [c] on return. *)
Lemma retry_loop_result ro env r fuel :
  ∀ c s err result,
    (c ≤ retry_of ro)%nat →
    (retry_of ro - c < fuel)%nat →
    tx_txType (deref s r) = send ∨ found r s →
    let run := retry_loop toChecksum fuel ro env r c s in
    out run = Ok (err, result) →
    (err = None → tx_status (deref (st run) r) = Some confirmed) ∧
    (is_Some err → submissions (evs run) = S (retry_of ro - c)).
Proof.
  induction fuel as [| fuel IH]; intros c s err result Hc Hfuel Hpre; [lia |].
  cbn [retry_loop]. rewrite bind_modify, bind_emit. cbv zeta.
  set (s0 := mutate r _ s).
  assert (tx_txType (deref s0 r) = send ∨ found r s0) as Hpre0.
  { destruct Hpre as [Ht | Hf].
    - left. subst s0. by rewrite deref_mutate.
    - right. by apply found_mutate_options. }
  destruct (submitTx_trace toChecksum (env c) r s0)
    as (Q & HQ & [(er & Ho & He) | (Hn & He)]).
  2:{ rewrite bind_not_Ok by done. cbn [out].
      destruct (out (submitTx toChecksum (env c) r s0)) eqn:E; done. }
  pose proof (submitTx_found toChecksum (env c) r s0 er Hpre0 Ho) as Hf1.
  rewrite (bind_Ok _ _ _ _ Ho). cbn [out st evs]. rewrite He.
  set (s1 := st (submitTx toChecksum (env c) r s0)) in *.
  destruct (retry_decide_cases (retry_loop toChecksum fuel ro env r (S c)) ro r c er s1 Hc)
    as (V1 & V2 & HV1 & HV2 & _ & Hcases).
  rewrite submissions_cons, !submissions_app, (submissions_quiet _ HQ).
  cbn [is_EvSubmitTx].
  change (submissions [EvSettled r er.1]) with 0%nat.
  destruct Hcases as [Hrun | [(Hrun & Heq & Hsome) | [(Hrun & Hlt & _) | (Hrun & Hlt & _)]]];
    rewrite Hrun; cbn [out st evs].
  - match goal with |- context [markConfirmed r er.2 ?s'] =>
      assert (found r s') as Hf' by (by apply found_mutate_options);
      destruct (markConfirmed_found r er.2 s' Hf') as (Hout & _ & Hst) end.
    rewrite Hout. intros [= <- <-]. split; [done |]. by intros [? ?].
  - intros [= ->]. cbn [fst] in Hsome. split.
    + intros ->. by destruct Hsome.
    + intros _. rewrite (submissions_verify _ HV1). subst c. f_equal. lia.
  - match goal with |- context [markConfirmed r er.2 ?s'] =>
      assert (found r s') as Hf'
        by (apply found_set_clock; by apply found_mutate_options);
      destruct (markConfirmed_found r er.2 s' Hf') as (Hout & _ & Hst) end.
    rewrite Hout. intros [= <- <-]. split; [done |]. by intros [? ?].
  - intros Hout.
    edestruct (IH (S c)) as [Hnone Herr]; [| | | exact Hout |]; [lia | lia | |].
    { right. apply found_set_retries. apply found_mutate_options.
      apply found_set_clock. by apply found_mutate_options. }
    split; [exact Hnone |]. intros Hsome. rewrite submissions_app, submissions_cons,
      submissions_app, (submissions_verify _ HV1), (submissions_verify _ HV2).
    rewrite (Herr Hsome). cbn [is_EvSubmitTx]. lia.
Qed.

(** X7. What [sendWithRetry] returns for a [send] tells how it went: with
    [null] for the error the record is confirmed, by the ledger or by
    [verify]; an error comes back only from the last attempt of the budget,
    after one call of [submitTx] more than [retry] says. *)
Theorem sendWithRetry_result ro env r s err result :
  tx_txType (deref s r) = send →
  out (sendWithRetry toChecksum ro env r s) = Ok (err, result) →
  (err = None →
     tx_status (deref (st (sendWithRetry toChecksum ro env r s)) r) = Some confirmed) ∧
  (is_Some err →
     submissions (evs (sendWithRetry toChecksum ro env r s)) = S (retry_of ro)).
Proof.
  intros Ht Hout.
  destruct (retry_loop_result ro env r (S (retry_of ro)) 0%nat s err result)
    as [Hnone Herr]; [lia | lia | by left | exact Hout |].
  split; [exact Hnone |]. intros Hsome. rewrite Nat.sub_0_r in Herr. by apply Herr.
Qed.

(** X8. A read-only call that goes through the retry loop: the call is
    made once, and when it has succeeded the loop marks the record
    confirmed, which is no record of the store, so that the loop ends with
    the [TypeError] of [updateTx] instead of the result. *)
Theorem sendWithRetry_call_throws ro env r s :
  tx_txType (deref s r) = call →
  tx_status (deref s r) ≠ Some confirmed →
  ¬ found r s →
  (env_call (env 0%nat)).1 = None →
  let run := sendWithRetry toChecksum ro env r s in
  out run = Throw TypeError ∧
  evs run = [EvSubmitTx r 0; EvCall r; EvSettled r None] ∧
  tx (st run) = tx s ∧
  tx_status (deref (st run) r) = Some confirmed.
Proof.
  intros Ht Hst Hnf Hnone. cbv zeta. unfold sendWithRetry. cbn [retry_loop].
  rewrite bind_modify, bind_emit.
  set (s0 := mutate r _ s).
  assert (tx_txType (deref s0 r) = call) as Ht0 by (subst s0; by rewrite deref_mutate).
  rewrite (bind_run _ _ _ _ _ _ (submitTx_call toChecksum (env 0%nat) r s0 Ht0)).
  cbn [out st evs]. rewrite Hnone.
  destruct (retry_decide_cases (retry_loop toChecksum (retry_of ro) ro env r 1) ro r 0%nat
              (env_call (env 0%nat)) s0 ltac:(lia))
    as (V1 & V2 & _ & _ & HV1 & [Hrun | [(_ & _ & Hs) | [(_ & _ & Hs) | (_ & _ & Hs)]]]);
    try (rewrite Hnone in Hs; by destruct Hs).
  rewrite Hrun, (HV1 Hnone). cbn [out st evs].
  set (s1 := mutate r _ s0).
  assert (ids_frame s s1) as Hframe.
  { subst s1 s0. etrans; by apply ids_frame_mutate. }
  assert (tx_status (deref s1 r) = tx_status (deref s r)) as Hst1.
  { subst s1 s0. by rewrite !deref_mutate. }
  assert (¬ found r s1) as Hnf1.
  { intros Hf. apply Hnf. by apply (found_frame_back r s s1). }
  unfold markConfirmed. rewrite bind_get.
  rewrite bool_decide_eq_false_2 by (by rewrite Hst1).
  pose proof (updateTx_not_found r confirmed s1 Hnf1) as Hthrow.
  rewrite (out_bind_Throw _ _ _ _ Hthrow).
  rewrite st_bind_stop by (intros u; by rewrite Hthrow).
  split_and!; [done | done | |].
  - destruct (updateTx_framed r confirmed s1) as [-> _]. apply Hframe.
  - apply updateTx_status.
Qed.
End Results.

(** ** Beyond the specification: what a submission reports *)

Lemma bind_assoc {A B C} (m : M A) (k1 : A → M B) (k2 : B → M C) (s : State) :
  bind (bind m k1) k2 s = bind m (λ a, bind (k1 a) k2) s.
Proof.
  unfold bind. destruct (out (m s)) eqn:E; simpl; [| done | done].
  destruct (out (k1 a (st (m s)))); simpl; by rewrite ?app_assoc.
Qed.

Section Reports.
Variable toChecksum : string → string.

(** A dispatch that has come through ends with the claim of the nonce, on
    a state that holds the record. *)
Lemma submitTx_dispatch_inv (env : SubmitEnv) (r : ref) (s : State) :
  out (submitTx_dispatch toChecksum env r s) = Ok tt →
  ∃ s3 nn release,
    found r s3 ∧
    st (submitTx_dispatch toChecksum env r s) = st (submitTx_claim r nn release s3).
Proof.
  unfold submitTx_dispatch. intros H.
  pose proof H as H'. apply bind_Ok_inv in H' as ([] & Hadd & H').
  rewrite (st_bind_Ok _ _ _ tt Hadd).
  pose proof (addTx_found r s Hadd) as Hfound.
  revert H' Hfound. generalize (st (addTx r s)). intros s1 H' Hfound.
  cbv beta in H' |- *. rewrite bind_get in H' |- *.
  set (A := opt_from (tx_options (deref s1 r))) in *.
  pose proof H' as H''. apply bind_Ok_inv in H'' as (nl & Hg & H'').
  rewrite (st_bind_Ok _ _ _ nl Hg).
  pose proof (getNonce_framed toChecksum A (env_net env) s1) as Hf1.
  revert H'' Hf1. generalize (st (getNonce toChecksum A (env_net env) s1)). intros s2 H'' Hf1.
  cbv beta in H'' |- *.
  pose proof H'' as H3. apply bind_Ok_inv in H3 as ([] & Hw & _).
  rewrite (st_bind_Ok _ _ _ tt Hw).
  exists (st (_waitQueue (env_world env) s2)), nl.1, nl.2. split; [| done].
  eapply ids_frame_found; [apply waitQueue_framed |].
  eapply ids_frame_found; [exact Hf1 | exact Hfound].
Qed.

(** The settlement: the events of [send] lead to a state [s2], on which
    [_finalizeTx] marks the record. *)
Lemma submitTx_settle_run (env : SubmitEnv) (r : ref) (s : State) :
  let run := submitTx_settle toChecksum env r s in
  let res :=
    match env_send env with
    | inl receipt => (None, Some (Mined receipt))
    | inr e => (Some e, None)
    end in
  let status := match env_send env with inl _ => confirmed | inr _ => failed end in
  ∃ s2,
    st run = st (updateTx r status s2) ∧
    (out (updateTx r status s2) = Ok tt → out run = Ok res) ∧
    ids_frame s s2 ∧
    (∀ er, out run = Ok er → er = res) ∧
    clock s2 = clock s ∧
    tx_nonce (deref s2 r) = tx_nonce (deref s r) ∧
    tx_options (deref s2 r) = tx_options (deref s r) ∧
    totalGasUsed s2 =
      totalGasUsed s +
      match env_send env with inl receipt => default 0 (rc_gasUsed receipt) | inr _ => 0 end ∧
    (∀ receipt, env_send env = inl receipt →
       tx_gasUsed (deref s2 r) = Some (default 0 (rc_gasUsed receipt)) ∧
       tx_blockNumber (deref s2 r) = Some (rc_blockNumber receipt)).
Proof.
  cbv zeta. unfold submitTx_settle.
  set (hashEvent := match env_hash env with Some _ => _ | None => _ end).
  assert (∃ s1, hashEvent s = mkRun (Ok tt) s1 [] ∧ ids_frame s s1 ∧ clock s1 = clock s ∧
                tx_nonce (deref s1 r) = tx_nonce (deref s r) ∧
                tx_options (deref s1 r) = tx_options (deref s r) ∧
                totalGasUsed s1 = totalGasUsed s) as (s1 & Hh & Hf1 & Hc1 & Hn1 & Ho1 & Hg1).
  { subst hashEvent. destruct (env_hash env) as [hash |].
    - eexists. split; [reflexivity |].
      split_and!; [by apply ids_frame_mutate | done | | | done];
        by rewrite deref_mutate.
    - exists s. done. }
  rewrite (bind_run _ _ _ _ _ _ Hh). cbn [out st evs app].
  destruct (env_send env) as [receipt | e].
  - unfold _calculateGasExpenses.
    repeat first [rewrite bind_assoc | rewrite bind_modify | rewrite bind_ret].
    set (s2 := updateStat _ _ _).
    exists s2. unfold _finalizeTx. cbn [fst]. split_and!.
    + destruct (updateTx_cases r confirmed s2) as [Hok | Hthrow].
      * by rewrite (st_bind_Ok _ _ _ tt Hok).
      * by rewrite st_bind_stop by (intros u; by rewrite Hthrow).
    + intros Hok. by rewrite (out_bind_Ok _ _ _ tt Hok).
    + etrans; [exact Hf1 |]. subst s2. unfold updateStat. split; [done |]. intros q.
      change (deref (set_stat ?g ?w ?s') q) with (deref s' q).
      by rewrite !deref_mutate_id.
    + intros er Her. apply bind_Ok_inv in Her as ([] & _ & Her). by injection Her as <-.
    + by rewrite <- Hc1.
    + rewrite <- Hn1. subst s2. unfold updateStat.
      change (deref (set_stat ?g ?w ?s') r) with (deref s' r). by rewrite !deref_mutate.
    + rewrite <- Ho1. subst s2. unfold updateStat.
      change (deref (set_stat ?g ?w ?s') r) with (deref s' r). by rewrite !deref_mutate.
    + subst s2. unfold updateStat. simpl. by rewrite Hg1.
    + intros receipt' [= <-]. subst s2. unfold updateStat.
      change (deref (set_stat ?g ?w ?s') r) with (deref s' r). by rewrite !deref_mutate.
  - unfold _checkError.
    repeat first [rewrite bind_assoc | rewrite bind_get | rewrite bind_modify
                 | rewrite bind_ret].
    set (s2 := if stuckNonce (message e) then _ else s1).
    assert (clock s2 = clock s1 ∧ deref s2 r = deref s1 r ∧ totalGasUsed s2 = totalGasUsed s1)
      as (Hc2 & Hd2 & Hg2).
    { subst s2. by destruct (stuckNonce (message e)). }
    exists s2. unfold _finalizeTx. cbn [fst]. split_and!.
    + destruct (updateTx_cases r failed s2) as [Hok | Hthrow].
      * by rewrite (st_bind_Ok _ _ _ tt Hok).
      * by rewrite st_bind_stop by (intros u; by rewrite Hthrow).
    + intros Hok. by rewrite (out_bind_Ok _ _ _ tt Hok).
    + etrans; [exact Hf1 |]. subst s2. destruct (stuckNonce (message e)); by split.
    + intros er Her. apply bind_Ok_inv in Her as ([] & _ & Her). by injection Her as <-.
    + congruence.
    + rewrite Hd2. done.
    + rewrite Hd2. done.
    + rewrite Hg2, Hg1. lia.
    + intros receipt' [=].
Qed.

(** X9. A [submitTx] on a [send] that returns does not throw what [send]
    has failed with: the error is the first of the pair it returns, and the
    record is marked failed; without an error the receipt is the second of
    the pair and the record is marked confirmed.  Either way the record is
    in the store, with the nonce it was sent with, and updated last at the
    time of the return. *)
Theorem submitTx_reports_send (env : SubmitEnv) (r : ref) (s : State)
    (er : option Error * option Result) :
  tx_txType (deref s r) = send →
  out (submitTx toChecksum env r s) = Ok er →
  let s' := st (submitTx toChecksum env r s) in
  er = match env_send env with
       | inl receipt => (None, Some (Mined receipt))
       | inr e => (Some e, None)
       end ∧
  tx_status (deref s' r) =
    Some (match env_send env with inl _ => confirmed | inr _ => failed end) ∧
  tx_lastUpdate (deref s' r) = Some (clock s') ∧
  is_Some (tx_nonce (deref s' r)) ∧
  opt_nonce (tx_options (deref s' r)) = tx_nonce (deref s' r) ∧
  found r s'.
Proof.
  intros Ht Hout. cbv zeta.
  pose proof (submitTx_found toChecksum env r s er (or_introl Ht) Hout) as Hfound.
  revert Hout Hfound. unfold submitTx. rewrite bind_get, Ht. intros Hout Hfound.
  pose proof Hout as Hout'. apply bind_Ok_inv in Hout' as ([] & Hd & Hs).
  revert Hfound. rewrite (st_bind_Ok _ _ _ tt Hd). intros Hfound.
  destruct (submitTx_dispatch_inv env r s Hd) as (s3 & nn & release & Hf3 & Hst).
  destruct (submitTx_claim_found r nn release s3 Hf3) as (_ & (o & _ & Hopt) & Hnonce & _).
  cbv zeta in Hnonce.
  assert (opt_nonce (tx_options (deref (st (submitTx_claim r nn release s3)) r)) =
          tx_nonce (deref (st (submitTx_claim r nn release s3)) r)) as Hsame.
  { clear -Hf3. unfold submitTx_claim. rewrite !bind_modify.
    set (s2 := mutate r _ (mutate r _ s3)).
    assert (found r s2) as Hfound2.
    { subst s2. eapply ids_frame_found; [| exact Hf3].
      etrans; by apply ids_frame_mutate. }
    pose proof (updateTx_found r submitted s2 Hfound2) as Hok.
    rewrite (st_bind_Ok _ _ _ tt Hok). rewrite bind_get, bind_emit. cbn [st].
    unfold releaseNonceLock. rewrite bind_modify. cbn [emit st].
    change (deref (set_lockMap ?l ?s') r) with (deref s' r).
    rewrite updateTx_deref_self. subst s2. rewrite !deref_mutate. done. }
  rewrite <- Hst in Hnonce, Hsame.
  revert Hs Hfound Hnonce Hsame. generalize (st (submitTx_dispatch toChecksum env r s)).
  intros sd Hs Hfound Hnonce Hsame.
  destruct (submitTx_settle_run env r sd) as (s2 & Hst2 & _ & _ & Her & Hc2 & Hn2 & Ho2 & _ & _).
  assert (clock (st (submitTx_settle toChecksum env r sd)) = clock s2) as Hclock.
  { rewrite Hst2. apply (updateTx_keeps clock (λ _ _, eq_refl)). }
  rewrite Hclock. rewrite Hst2 in Hfound |- *. rewrite updateTx_deref_self.
  split_and!.
  - by apply Her.
  - done.
  - done.
  - simpl. rewrite Hn2, Hnonce. by eexists.
  - simpl. by rewrite Ho2, Hn2.
  - done.
Qed.
End Reports.

Section Accounts.
Variable toChecksum : string → string.

(** X10. A [send] that has returned with a receipt has added the gas of
    the receipt (0 when the receipt has none) to [totalGasUsed], once, and
    has written it and the block number to the record; a [send] that has
    returned with an error has added nothing. *)
Theorem submitTx_accounts_gas (env : SubmitEnv) (r : ref) (s : State)
    (er : option Error * option Result) :
  tx_txType (deref s r) = send →
  out (submitTx toChecksum env r s) = Ok er →
  let s' := st (submitTx toChecksum env r s) in
  totalGasUsed s' =
    totalGasUsed s +
    match env_send env with inl receipt => default 0 (rc_gasUsed receipt) | inr _ => 0 end ∧
  (∀ receipt, env_send env = inl receipt →
     tx_gasUsed (deref s' r) = Some (default 0 (rc_gasUsed receipt)) ∧
     tx_blockNumber (deref s' r) = Some (rc_blockNumber receipt)).
Proof.
  intros Ht Hout. cbv zeta. revert Hout. unfold submitTx. rewrite bind_get, Ht. intros Hout.
  pose proof Hout as Hout'. apply bind_Ok_inv in Hout' as ([] & Hd & Hs).
  rewrite (st_bind_Ok _ _ _ tt Hd).
  pose proof (submitTx_dispatch_keeps totalGasUsed (λ _ _, eq_refl) (λ _ _, eq_refl)
                (λ _ _, eq_refl) (λ _ _, eq_refl) toChecksum env r (λ _ _, eq_refl) s) as Hk.
  unfold keeps in Hk. rewrite <- Hk.
  generalize (st (submitTx_dispatch toChecksum env r s)). intros sd.
  destruct (submitTx_settle_run toChecksum env r sd)
    as (s2 & Hst2 & _ & _ & _ & _ & _ & _ & Hg2 & Hrc).
  rewrite Hst2. split.
  - rewrite <- Hg2. apply (updateTx_keeps totalGasUsed (λ _ _, eq_refl)).
  - intros receipt Hr. rewrite updateTx_deref_self. simpl. by apply Hrc.
Qed.
End Accounts.

(** ** Beyond the specification: the id 0 *)

(** X17. When the id counter stands at 0 or at [Number.MAX_SAFE_INTEGER],
    the record that [addTx] appends gets the id 0, which [addTx] takes for
    no id: the next [addTx] of the record, as every retry makes it, appends
    the record once more and gives it the id 1. *)
Theorem addTx_id_zero_appended_again (r : ref) (s : State) :
  truthy (tx_id (deref s r)) = false →
  Z.rem (_idCounter s) MAX_SAFE_INTEGER = 0 →
  let first := addTx r s in
  let second := addTx r (st first) in
  out first = Ok tt ∧
  tx_id (deref (st first) r) = Some 0 ∧
  out second = Ok tt ∧
  tx (st second) = tx s ++ [r; r] ∧
  tx_id (deref (st second) r) = Some 1.
Proof.
  intros Hid Hc. cbv zeta.
  assert (out (addTx r s) = Ok tt ∧ tx (st (addTx r s)) = tx s ++ [r] ∧
          tx_id (deref (st (addTx r s)) r) = Some 0 ∧ _idCounter (st (addTx r s)) = 1)
    as (Ho1 & Htx1 & Hid1 & Hc1).
  { rewrite addTx_alloc by done. cbv zeta. cbn [out st]. rewrite Hc. split_and!; try done.
    change (deref (set_tx ?l ?s') r) with (deref s' r). by rewrite deref_mutate. }
  revert Ho1 Htx1 Hid1 Hc1. generalize (st (addTx r s)). intros s1 Ho1 Htx1 Hid1 Hc1.
  split; [done |]. split; [done |].
  assert (truthy (tx_id (deref s1 r)) = false) as Hid1' by (by rewrite Hid1).
  rewrite addTx_alloc by done. cbv zeta. cbn [out st]. rewrite Hc1, Htx1.
  split_and!; [done | by rewrite <- app_assoc |].
  change (deref (set_tx ?l ?s') r) with (deref s' r). by rewrite deref_mutate.
Qed.

(** ** Beyond the specification: returnValue *)

(** X18. [returnValue] throws in two cases only: the error itself, when
    there is an error and neither a deferred nor a callback to take it; and
    a [TypeError], when both places hold a function.  With a callback in
    either place alone, or with a deferred, it does not throw. *)
Theorem returnValue_throws (err : option Error) (result : option Result)
    (defer callback : Handler) (e' : Error) :
  (returnValue err result defer callback).2 = Thrown e' ↔
    (err = Some e' ∧ defer = NoHandler ∧ isFunction callback = false) ∨
    (isFunction callback = true ∧ isFunction defer = true ∧
     e' = match err with Some _ => NoEmitter | None => NoResolve end).
Proof.
  destruct err as [e |], defer as [| g | d n], callback as [| f | d' n']; simpl;
    (split; [intros H | intros [(H1 & H2 & H3) | (H1 & H2 & H3)]]);
    simplify_eq; auto.
Qed.

(** X19. A deferred that is handed to [returnValue] is settled once: with
    an error its rejection is scheduled and its emitter returned, without
    one it is resolved with the result.  The rejection is kept from
    surfacing exactly when there is a callback or a listener for [error];
    a callback is called once, before that. *)
Theorem returnValue_settles_once (err : option Error) (result : option Result)
    (d listeners : nat) (callback : Handler) :
  let run := returnValue err result (Deferred d listeners) callback in
  settlements d run.1 =
    [match err with Some e => RejectScheduled d e | None => Resolved d result end] ∧
  run.2 = match err with Some _ => RetEmitter d | None => RetUndefined end ∧
  (Suppressed d ∈ run.1 ↔
     is_Some err ∧ (callback ≠ NoHandler ∨ (0 < listeners)%nat)) ∧
  calls run.1 = match callback with Callback f => [(f, err, result)] | _ => [] end.
Proof.
  cbv zeta.
  destruct err as [e |], callback as [| f | d' n'], listeners as [| n]; simpl;
    rewrite ?Nat.eqb_refl; (split_and!; [done | done | | done]);
    rewrite ?elem_of_cons, ?elem_of_nil;
    (split; [intros Hin | intros [[x Hs] Hc]]);
    try discriminate Hs;
    try (split; [by eexists |]);
    intuition (first [discriminate | lia | congruence | eauto]).
Qed.

(** ** Beyond the specification: a submission that goes through *)

Lemma waitQueue_room (world : list (list (ref * option Error))) (s : State) :
  (awaiting_now s < awaitLimit)%nat →
  _waitQueue world s = mkRun (Ok tt) s [EvQueueCheck (awaiting_now s)].
Proof.
  intros Hroom. unfold _waitQueue. rewrite bind_get, bind_emit.
  replace (Nat.leb awaitLimit (awaiting_now s)) with false; [done |].
  symmetry. apply Nat.leb_gt. done.
Qed.

(** A record without a status, appended with its status left alone, is no
    submitted record more. *)
Lemma awaiting_now_append (r : ref) (s s' : State) :
  tx s' = tx s ++ [r] →
  (∀ q, tx_status (deref s' q) = tx_status (deref s q)) →
  tx_status (deref s r) = None →
  awaiting_now s' = awaiting_now s.
Proof.
  intros Htx Hst Hr. unfold awaiting_now, getSubmittedTransactions.
  rewrite !filterTxByStatus_all, Htx, filter_app.
  rewrite filter_cons_False by (by rewrite Hst, Hr). rewrite filter_nil, app_nil_r.
  f_equal. apply list_filter_iff. intros q. by rewrite Hst.
Qed.

Section Progress.
Variable toChecksum : string → string.

(** X20. A first submission of a [send] goes through, in one go, when the
    mutex of the sender is free, the node answers and fewer than 100 records
    are submitted: it takes a nonce that is at least the node's count, reads
    the queue once, marks the record submitted, sends, and returns what
    [send] has ended with. *)
Theorem submitTx_completes (env : SubmitEnv) (r : ref) (s : State) (n : Z) :
  tx_txType (deref s r) = send →
  truthy (tx_id (deref s r)) = false →
  tx_status (deref s r) = None →
  held (toChecksum (opt_from (tx_options (deref s r)))) s = false →
  env_net env = NetCount n →
  (awaiting_now s < awaitLimit)%nat →
  let run := submitTx toChecksum env r s in
  ∃ er nextNonce o,
    out run = Ok er ∧
    evs run =
      [EvNonce (toChecksum (opt_from (tx_options (deref s r)))) nextNonce;
       EvQueueCheck (awaiting_now s);
       EvSubmitted r (Some (js_or (opt_nonce (tx_options (deref s r))) nextNonce));
       EvSend r o;
       EvSettled r er.1] ∧
    n ≤ nextNonce.
Proof.
  intros Ht Hid Hst Hfree Hnet Hroom. cbv zeta. apply held_false in Hfree.
  unfold submitTx. rewrite bind_get, Ht. unfold submitTx_dispatch.
  pose proof (addTx_options r s) as Hopt.
  pose proof (addTx_found r s) as Hfound.
  assert (awaiting_now (st (addTx r s)) = awaiting_now s ∧
          _lockMap (st (addTx r s)) = _lockMap s ∧
          addTx r s = mkRun (Ok tt) (st (addTx r s)) []) as (Haw & Hlock & Hadd).
  { rewrite addTx_alloc by done. cbv zeta. cbn [st]. split_and!; [| done | done].
    apply (awaiting_now_append r); [done | | done]. intros q.
    change (deref (set_tx ?l ?s') q) with (deref s' q).
    destruct (decide (q = r)) as [-> | Hne].
    - rewrite deref_mutate.
      change (deref (set_idCounter ?c ?s') r) with (deref s' r).
      by rewrite !deref_mutate.
    - rewrite deref_mutate_ne by done.
      change (deref (set_idCounter ?c ?s') q) with (deref s' q).
      by rewrite !deref_mutate_ne. }
  specialize (Hfound ltac:(by rewrite Hadd)).
  revert Hopt Hfound Haw Hlock Hadd. generalize (st (addTx r s)).
  intros s1 Hopt Hfound Haw Hlock Hadd.
  rewrite !bind_assoc, (bind_run _ _ _ _ _ _ Hadd). cbn [out st evs app].
  rewrite ?bind_assoc, bind_get. cbv beta. rewrite Hopt, Hnet.
  set (A := opt_from (tx_options (deref s r))) in *.
  assert (_lockMap s1 !! toChecksum A ≠ Some true) as Hfree1 by (by rewrite Hlock).
  rewrite !bind_assoc, (bind_run _ _ _ _ _ _ (getNonce_returns toChecksum A n s1 Hfree1)).
  cbn [out st evs app fst snd].
  set (nn := nextNonceOf toChecksum (toChecksum A) n s1).
  set (s2 := set_lockMap _ s1).
  assert (awaiting_now s2 = awaiting_now s) as Haw2 by exact Haw.
  assert (found r s2) as Hfound2 by (eapply ids_frame_found; [| exact Hfound]; by split).
  rewrite !bind_assoc,
    (bind_run _ _ _ _ _ _ (waitQueue_room (env_world env) s2 ltac:(by rewrite Haw2))).
  cbn [out st evs app]. rewrite Haw2.
  destruct (submitTx_claim_found r nn (toChecksum A) s2 Hfound2)
    as (Hout & (o & Hevs & _) & _ & _ & _).
  cbv zeta in Hevs.
  change (tx_options (deref s2 r)) with (tx_options (deref s1 r)) in Hevs.
  rewrite Hopt in Hevs.
  rewrite (out_bind_Ok _ _ _ tt Hout), (evs_bind_Ok _ _ _ tt Hout), Hevs.
  assert (found r (st (submitTx_claim r nn (toChecksum A) s2))) as Hfound3.
  { eapply ids_frame_found; [apply submitTx_claim_framed | exact Hfound2]. }
  revert Hfound3. generalize (st (submitTx_claim r nn (toChecksum A) s2)). intros s3 Hfound3.
  destruct (submitTx_settle_run toChecksum env r s3) as (s4 & _ & Hok & Hframe & _).
  destruct (submitTx_settle_trace toChecksum env r s3) as [(er & Ho & He) | (Hno & _)].
  - exists er, nn, o. rewrite Ho, He. split_and!; [done | done |].
    subst nn. pose proof (nextNonceOf_ge toChecksum (toChecksum A) n s1). lia.
  - exfalso. eapply Hno. apply Hok. apply updateTx_found.
    eapply ids_frame_found; [exact Hframe | exact Hfound3].
Qed.
End Progress.

(** ** Beyond the specification: one object for an id *)

(** X21. [new TransactionObject] with an id (other than 0) gives one
    object for that id: constructed a second time with the same id, whatever
    the other fields, it returns the first object and makes none. *)
Theorem TransactionObject_one_per_id (m1 m2 : TxMeta) (o : Objects) :
  truthy (tx_id m1) = true →
  tx_id m2 = tx_id m1 →
  let first := TransactionObject_new m1 o in
  let second := TransactionObject_new m2 first.2 in
  second.1 = first.1 ∧ second.2 = first.2.
Proof.
  intros Hid Heq. cbv zeta. unfold TransactionObject_new. rewrite Heq, Hid.
  destruct (_ids o) as [ids |] eqn:E; simpl.
  - destruct (ids !! default 0 (tx_id m1)) as [this |] eqn:E'; simpl.
    + by rewrite E, E'.
    + by rewrite lookup_insert_eq.
  - by rewrite lookup_insert_eq.
Qed.

(** ** Beyond the specification: calls and sends by name *)

Lemma in_callStates_true (item : AbiItem) :
  in_callStates item = true ↔
    abi_stateMutability item = Some "pure" ∨ abi_stateMutability item = Some "view".
Proof.
  unfold in_callStates, _callStates. destruct (abi_stateMutability item) as [m |].
  - rewrite bool_decide_eq_true, !elem_of_cons, elem_of_nil.
    split; [intros [-> | [-> | []]]; auto | intros [[= ->] | [= ->]]; auto].
  - split; [done | intros [? | ?]; done].
Qed.

Lemma length_filter_split {X} (Q : X → Prop) `{!∀ x, Decision (Q x)}
    (b : X → bool) (l : list X) :
  (length (filter (λ x, b x = false ∧ Q x) l) + length (filter (λ x, b x = true ∧ Q x) l)
   = length (filter Q l))%nat.
Proof.
  induction l as [| x l IH]; [done |].
  rewrite !filter_cons. destruct (b x); repeat case_decide; simpl; try lia; tauto.
Qed.

(** X23. [_setProxyMethods] lists every function of the ABI once, as sent
    or as called, and the proxy answers to these names, to [_deploy] and to
    [on] followed by the name of an event, and to nothing else. *)
Theorem setProxyMethods_lists (abi : list AbiItem) :
  let pm := _setProxyMethods abi in
  (length (_sent pm) + length (_call pm) =
   length (filter (λ item, has_type "function" item = true) abi))%nat ∧
  (∀ name, name ∈ proxyMethods pm ↔
     name = "_deploy" ∨
     (∃ item, item ∈ abi ∧ abi_type item = Some "function" ∧ abi_name item = name) ∨
     (∃ item, item ∈ abi ∧ abi_type item = Some "event" ∧ name = "on" +:+ abi_name item)).
Proof.
  cbv zeta. unfold _setProxyMethods. cbn [_sent _call proxyMethods]. split.
  - rewrite !length_fmap.
    apply (length_filter_split (λ item, has_type "function" item = true) in_callStates).
  - intros name. rewrite !elem_of_app, !list_elem_of_fmap, list_elem_of_singleton.
    unfold has_type. split.
    + intros [(item & -> & Hin) | [-> | [(item & -> & Hin) | (item & -> & Hin)]]].
      * apply list_elem_of_filter in Hin as [[_ Ht] Hin]. apply bool_decide_eq_true in Ht.
        right. left. eauto.
      * by left.
      * apply list_elem_of_filter in Hin as [[_ Ht] Hin]. apply bool_decide_eq_true in Ht.
        right. left. eauto.
      * apply list_elem_of_filter in Hin as [Ht Hin]. apply bool_decide_eq_true in Ht.
        right. right. eauto.
    + intros [-> | [(item & Hin & Ht & <-) | (item & Hin & Ht & ->)]].
      * right. by left.
      * destruct (in_callStates item) eqn:E.
        -- right. right. left. exists item. split; [done |].
           apply list_elem_of_filter. split; [| done]. split; [done |].
           by apply bool_decide_eq_true.
        -- left. exists item. split; [done |].
           apply list_elem_of_filter. split; [| done]. split; [done |].
           by apply bool_decide_eq_true.
      * right. right. right. exists item. split; [done |].
        apply list_elem_of_filter. split; [| done]. by apply bool_decide_eq_true.
Qed.

(** X22. [getTxMeta] tells a call from a send by the name of the method
    alone: the method is called exactly when the ABI has a pure or view
    function of that name, whatever else it has under the name, and sent
    otherwise.  The record it makes has no id, status or nonce yet, and is
    of the sender of the options, or else of the wallet. *)
Theorem getTxMeta_type_by_name (abi : list AbiItem) (obj : MetaEnv) (method : string)
    (methodArgs : list string) (options : option Options) :
  me_call obj = _call (_setProxyMethods abi) →
  let txMeta := getTxMeta obj method methodArgs options in
  (tx_txType txMeta = call ↔
     ∃ item, item ∈ abi ∧ abi_name item = method ∧ abi_type item = Some "function" ∧
       (abi_stateMutability item = Some "pure" ∨ abi_stateMutability item = Some "view")) ∧
  (tx_txType txMeta = call ∨ tx_txType txMeta = send) ∧
  tx_id txMeta = None ∧ tx_status txMeta = None ∧ tx_nonce txMeta = None ∧
  tx_from txMeta = opt_from (tx_options txMeta) ∧
  tx_from txMeta =
    (if bool_decide (opt_from (default emptyOptions options) = "")
     then me_wallet obj else opt_from (default emptyOptions options)).
Proof.
  intros Hcall. cbv zeta. unfold getTxMeta. rewrite Hcall.
  unfold _setProxyMethods. cbn [_call].
  assert (method ∈ abi_name <$>
            filter (λ item, in_callStates item = true ∧ has_type "function" item = true) abi
          ↔ ∃ item, item ∈ abi ∧ abi_name item = method ∧ abi_type item = Some "function" ∧
              (abi_stateMutability item = Some "pure" ∨
               abi_stateMutability item = Some "view")) as Hiff.
  { rewrite list_elem_of_fmap. split.
    - intros (item & -> & Hin). apply list_elem_of_filter in Hin as [[Hc Ht] Hin].
      apply bool_decide_eq_true in Ht. apply in_callStates_true in Hc. eauto 6.
    - intros (item & Hin & <- & Ht & Hc). exists item. split; [done |].
      apply list_elem_of_filter. split; [| done]. split.
      + by apply in_callStates_true.
      + by apply bool_decide_eq_true. }
  case_bool_decide as Hm; cbn [tx_txType tx_id tx_status tx_nonce tx_from tx_options opt_from].
  - split_and!; try done; [| by left]. split; [intros _; by apply Hiff | done].
  - split_and!; try done; [| by right]. split; [done |]. intros H. by apply Hiff in H.
Qed.

(** ** Beyond the specification: the store only grows *)

Global Instance grows_refl : Reflexive grows.
Proof. intros s. unfold grows. reflexivity. Qed.
Global Instance grows_trans : Transitive grows.
Proof. intros s1 s2 s3 H1 H2. unfold grows in *. by etrans. Qed.

Lemma ids_frame_grows (s s' : State) : ids_frame s s' → grows s s'.
Proof. intros [Htx _]. unfold grows. by rewrite Htx. Qed.

Lemma framed_grows {A} (m : M A) : framed ids_frame m → framed grows m.
Proof. intros H s. apply ids_frame_grows, H. Qed.

Lemma addTx_grows (r : ref) : framed grows (addTx r).
Proof.
  intros s. destruct (truthy (tx_id (deref s r))) eqn:E.
  - rewrite addTx_update by done. apply ids_frame_grows.
    etrans; [| apply updateTx_framed]. etrans; by apply ids_frame_mutate.
  - rewrite addTx_alloc by done. cbv zeta. cbn [st]. unfold grows. simpl.
    by apply prefix_app_r.
Qed.

Lemma markConfirmed_framed (r : ref) (result : option Result) :
  framed ids_frame (markConfirmed r result).
Proof.
  unfold markConfirmed. framed_steps ids_frame.
  case_bool_decide; [apply (framed_ret ids_frame) | apply updateTx_framed].
Qed.

Lemma verify_framed ro err counter afterSleep :
  framed ids_frame (_verify ro err counter afterSleep).
Proof.
  unfold _verify. destruct err; [| apply (framed_ret ids_frame)].
  destruct (ro_verify ro); framed_steps ids_frame.
Qed.

Lemma retry_decide_grows next ro r counter er :
  framed grows next → framed grows (retry_decide next ro r counter er).
Proof.
  intros Hnext. unfold retry_decide.
  simple apply (framed_bind grows); [| intros _].
  { apply framed_grows, framed_modify. intros s. by apply ids_frame_mutate. }
  simple apply (framed_bind grows); [apply framed_grows, verify_framed | intros ok1].
  destruct ok1; [apply framed_grows, markConfirmed_framed |].
  destruct (Nat.eqb _ _); [apply (framed_ret grows) |].
  simple apply (framed_bind grows); [| intros _].
  { apply (framed_sleep grows). intros s c. unfold grows. simpl. reflexivity. }
  simple apply (framed_bind grows); [apply framed_grows, verify_framed | intros ok2].
  destruct ok2; [apply framed_grows, markConfirmed_framed |].
  simple apply (framed_bind grows); [| intros _].
  { apply framed_grows, framed_modify. intros s. by apply ids_frame_mutate. }
  simple apply (framed_bind grows); [| intros _].
  { apply framed_modify. intros s. unfold grows. simpl. reflexivity. }
  destruct (Nat.leb _ _); [done | apply (framed_ret grows)].
Qed.

Section Growth.
Variable toChecksum : string → string.

Lemma submitTx_grows env r : framed grows (submitTx toChecksum env r).
Proof.
  unfold submitTx. simple apply (framed_bind grows); [apply (framed_get grows) | intros s].
  destruct (tx_txType (deref s r)); [framed_steps grows |].
  simple apply (framed_bind grows); [| intros _; apply framed_grows, submitTx_settle_framed].
  unfold submitTx_dispatch.
  simple apply (framed_bind grows); [apply addTx_grows | intros _].
  simple apply (framed_bind grows); [apply (framed_get grows) | intros s'].
  simple apply (framed_bind grows); [apply framed_grows, getNonce_framed | intros nl].
  simple apply (framed_bind grows); [apply framed_grows, waitQueue_framed | intros _].
  apply framed_grows, submitTx_claim_framed.
Qed.

Lemma retry_loop_grows fuel ro env r counter :
  framed grows (retry_loop toChecksum fuel ro env r counter).
Proof.
  revert counter. induction fuel as [| fuel IH]; intros counter.
  - apply (framed_blocked grows).
  - cbn [retry_loop].
    simple apply (framed_bind grows); [| intros _].
    { apply framed_grows, framed_modify. intros s. by apply ids_frame_mutate. }
    simple apply (framed_bind grows); [apply (framed_emit grows) | intros _].
    simple apply (framed_bind grows); [apply submitTx_grows | intros er].
    apply retry_decide_grows. apply IH.
Qed.

(** X24. The store only grows: whatever a [submitTx] or a [sendWithRetry]
    does and however it ends, the records that were in the store are still
    there, in their places; no record is ever taken out, whether confirmed
    or failed. *)
Theorem store_only_grows (s : State) :
  (∀ env r, tx s `prefix_of` tx (st (submitTx toChecksum env r s))) ∧
  (∀ ro env r, tx s `prefix_of` tx (st (sendWithRetry toChecksum ro env r s))) ∧
  (∀ r status, tx (st (updateTx r status s)) = tx s) ∧
  (∀ r, tx (st (addTx r s)) = tx s ∨ tx (st (addTx r s)) = tx s ++ [r]).
Proof.
  split_and!.
  - intros env r. apply submitTx_grows.
  - intros ro env r. apply retry_loop_grows.
  - intros r status. apply updateTx_framed.
  - intros r. destruct (truthy (tx_id (deref s r))) eqn:E.
    + left. rewrite addTx_update by done.
      destruct (updateTx_framed r pending
        (mutate r (λ m, set_time (Some (js_or (tx_time m) (clock s))) m)
           (mutate r (λ m, set_data None (set_txHash None m)) s))) as [-> _]. done.
    + right. by rewrite addTx_alloc.
Qed.
End Growth.

(** ** Beyond the specification: the nonce that [getNonce] returns *)


Section TheNonce.
Variable toChecksum : string → string.

End TheNonce.

(** ** Beyond the specification: [updateTx] on a record that is not there *)

(** X26. [updateTx] returns exactly when a record with the id of the one
    it is given is in the store, and throws a [TypeError] otherwise; before
    it looks, it has written the status and the time to the object it was
    given.  It emits nothing and leaves the store and every id as they
    are. *)
Theorem updateTx_returns_iff_found (r : ref) (status : Status) (s : State) :
  let run := updateTx r status s in
  (out run = Ok tt ↔ found r s) ∧
  (out run = Throw TypeError ↔ ¬ found r s) ∧
  tx_status (deref (st run) r) = Some status ∧
  tx_lastUpdate (deref (st run) r) = Some (clock s) ∧
  evs run = [] ∧
  tx (st run) = tx s ∧
  (∀ q, tx_id (deref (st run) q) = tx_id (deref s q)).
Proof.
  cbv zeta. destruct (updateTx_framed r status s) as [Htx Hid].
  split_and!; try done.
  - split; [apply updateTx_Ok_found | apply updateTx_found].
  - split; [| apply updateTx_not_found].
    intros Hthrow Hfound. apply (updateTx_found r status) in Hfound. congruence.
  - apply updateTx_status.
  - by rewrite updateTx_deref_self.
  - apply updateTx_evs.
Qed.

(** ** Beyond the specification: the mutexes after the retry loop *)

Lemma held_same_locks (B : string) (s s' : State) :
  _lockMap s' = _lockMap s → held B s' = held B s.
Proof. intros H. unfold held. by rewrite H. Qed.

Section MutexesOfTheLoop.
Variable toChecksum : string → string.

Lemma retry_loop_held ro env r fuel :
  ∀ c s,
    (c ≤ retry_of ro)%nat →
    out (retry_loop toChecksum fuel ro env r c s) ≠ Blocked →
    ∀ B, held B (st (retry_loop toChecksum fuel ro env r c s)) = held B s.
Proof.
  induction fuel as [| fuel IH]; intros c s Hc; [done |].
  cbn [retry_loop]. rewrite bind_modify, bind_emit. cbn [out st].
  set (s0 := mutate r _ s).
  assert (∀ B, held B s0 = held B s) as Hs0 by done.
  pose proof (submitTx_held toChecksum (env c) r s0) as Hsub.
  destruct (out (submitTx toChecksum (env c) r s0)) as [er | e |] eqn:Ho.
  - rewrite (bind_Ok _ _ _ _ Ho). cbn [out st].
    specialize (Hsub ltac:(done)).
    set (s1 := st (submitTx toChecksum (env c) r s0)) in *.
    destruct (retry_decide_cases (retry_loop toChecksum fuel ro env r (S c)) ro r c er s1 Hc)
      as (V1 & V2 & _ & _ & _ & Hcases).
    assert (∀ res s', _lockMap (st (markConfirmed r res s')) = _lockMap s') as Hmc.
    { intros res s'. apply (markConfirmed_keeps _lockMap (λ _ _, eq_refl)). }
    destruct Hcases as [Hrun | [(Hrun & _) | [(Hrun & _) | (Hrun & Hlt & _)]]];
      rewrite Hrun; cbn [out st]; intros Hnb B.
    + rewrite <- Hs0, <- (Hsub B). apply held_same_locks. by rewrite Hmc.
    + by rewrite <- Hs0, <- (Hsub B).
    + rewrite <- Hs0, <- (Hsub B). apply held_same_locks. by rewrite Hmc.
    + rewrite (IH (S c) _ ltac:(lia) Hnb B). by rewrite <- Hs0, <- (Hsub B).
  - rewrite bind_not_Ok by (by rewrite Ho). rewrite Ho. cbn [out st]. intros _ B.
    rewrite <- Hs0. by apply Hsub.
  - rewrite bind_not_Ok by (by rewrite Ho). rewrite Ho. cbn [out]. done.
Qed.

(** X27. A [sendWithRetry] that has come to its end, with a result or with
    an exception and after however many attempts, holds no mutex that was
    not held before. *)
Theorem sendWithRetry_gives_mutex_back ro env r s :
  out (sendWithRetry toChecksum ro env r s) ≠ Blocked →
  ∀ B, held B (st (sendWithRetry toChecksum ro env r s)) = held B s.
Proof. intros Hnb B. apply retry_loop_held; [lia | exact Hnb]. Qed.
End MutexesOfTheLoop.

(** * The properties at work *)

(** ** Witnesses *)


Lemma excluded_nonce_skipped_witness :
  toChecksum_fixed (toChecksum_fixed addrA) = toChecksum_fixed addrA ∧
  toChecksum_fixed addrA ≠ "" ∧
  _lockMap s_excluded !! toChecksum_fixed addrA ≠ Some true ∧
  _nonceInUse s_excluded !! toChecksum_fixed addrA = Some (mkFLA [Some 5] 200 true) ∧
  Some 5 ∈ items (mkFLA [Some 5] 200 true) ∧
  ∃ nextNonce release,
    out (getNonce toChecksum_fixed addrA (NetCount 5) s_excluded) = Ok (nextNonce, release) ∧
    5 < nextNonce.
Proof.
  assert (toChecksum_fixed (toChecksum_fixed addrA) = toChecksum_fixed addrA) as H0
    by reflexivity.
  assert (toChecksum_fixed addrA ≠ "") as H1 by (vm_compute; discriminate).
  assert (_lockMap s_excluded !! toChecksum_fixed addrA ≠ Some true) as H2
    by (vm_compute; discriminate).
  assert (_nonceInUse s_excluded !! toChecksum_fixed addrA = Some (mkFLA [Some 5] 200 true))
    as H3 by (vm_compute; reflexivity).
  assert (Some 5 ∈ items (mkFLA [Some 5] 200 true)) as H4 by (simpl; left).
  refine (conj H0 (conj H1 (conj H2 (conj H3 (conj H4 _))))).
  exact (excluded_nonce_skipped toChecksum_fixed addrA s_excluded _ H0 H1 H2 H3 H4).
Defined.

Lemma exclusion_set_bounded_witness :
  exclusion_sets_ok s_crowded ∧
  (∀ env r', exclusion_sets_ok (st (submitTx toChecksum_fixed env r' s_crowded))) ∧
  (∀ ro env r',
     exclusion_sets_ok (st (sendWithRetry toChecksum_fixed ro env r' s_crowded))) ∧
  let s' := exec (_checkError toChecksum_fixed mining_timeout addrA 0%nat) s_crowded in
  let x := tx_nonce (deref s_crowded 0%nat) in
  let old := from_option items [] (_nonceInUse s_crowded !! toChecksum_fixed addrA) in
  let new := from_option items [] (_nonceInUse s' !! toChecksum_fixed addrA) in
  exclusion_sets_ok s' ∧
  (∀ B, B ≠ toChecksum_fixed addrA → _nonceInUse s' !! B = _nonceInUse s_crowded !! B) ∧
  (stuckNonce (message mining_timeout) = false → _nonceInUse s' = _nonceInUse s_crowded) ∧
  (stuckNonce (message mining_timeout) = true →
     x ∈ new ∧
     (x ∈ old → new = old) ∧
     (x ∉ old → (length old < 200)%nat → new = old ++ [x]) ∧
     (x ∉ old → length old = 200%nat → new = drop 1 old ++ [x])).
Proof.
  assert (exclusion_sets_ok s_crowded) as H.
  { intros A a Ha. simpl in Ha. apply lookup_singleton_Some in Ha as [_ <-].
    split_and!.
    - refine (bool_decide_unpack _ _). vm_compute. exact I.
    - vm_compute. lia.
    - reflexivity.
    - reflexivity. }
  split; [exact H |].
  exact (exclusion_set_bounded toChecksum_fixed mining_timeout addrA 0%nat s_crowded H).
Defined.




(** ** Where the claims of the specification fail *)




(** ** Where the code fails the claims *)

(** C6.  The first transaction of an address goes out with the nonce 0 and
    is not mined in time; the retry goes out with the nonce 1. *)
Theorem retry_after_timeout_leaves_nonce_0 :
  let run :=
    sendWithRetry toChecksum_fixed (retry_once None)
      (λ _, env_of 0 None (inr mining_timeout)) 0%nat s_one in
  includes (message mining_timeout) "Transaction was not mined within" = true ∧
  submissions (evs run) = 2%nat ∧
  sent_nonces (evs run) = [Some 0; Some 1].
Proof. vm_compute. repeat split. Qed.

(** C9.  The transaction with the nonce 0 is in flight and the caller asks
    for the nonce 0; the coordinator's 1 is recorded and sent. *)
Theorem caller_nonce_0_is_dropped :
  let run :=
    submitTx_dispatch toChecksum_fixed (env_of 0 None (inr reverted)) 1%nat s_replace in
  opt_nonce (tx_options (deref s_replace 1%nat)) = Some 0 ∧
  out run = Ok tt ∧
  returned_nonces (evs run) = [1] ∧
  sent_nonces (evs run) = [Some 1] ∧
  tx_nonce (deref (st run) 1%nat) = Some 1 ∧
  tx_status (deref (st run) 1%nat) = Some submitted.
Proof. vm_compute. repeat split. Qed.

(** ** Examples *)

(** A nonce that is not 0 is used again after a mining timeout, and dropped
    after another failure. *)
Example retry_after_timeout_keeps_nonce_5 :
  sent_nonces (evs (sendWithRetry toChecksum_fixed (retry_once None)
    (λ _, env_of 5 None (inr mining_timeout)) 0%nat s_one)) = [Some 5; Some 5].
Proof. vm_compute. reflexivity. Qed.

Example retry_after_revert_takes_new_nonce :
  sent_nonces (evs (sendWithRetry toChecksum_fixed (retry_once None)
    (λ _, env_of 5 None (inr reverted)) 0%nat s_one)) = [Some 5; Some 6].
Proof. vm_compute. reflexivity. Qed.

(** The scenario of the specification: a mining timeout on attempt 0,
    [retry: 1], and a [verify] that answers [true]. *)
Example retry_confirmed_by_verify :
  let run :=
    sendWithRetry toChecksum_fixed (retry_once (Some (λ _ _, true)))
      (λ _, env_of 0 (Some "0x5c504ed4") (inr mining_timeout)) 0%nat s_one in
  out run = Ok (None, None) ∧
  submissions (evs run) = 1%nat ∧
  last (evs run) = Some (EvVerify true) ∧
  tx_status (deref (st run) 0%nat) = Some confirmed.
Proof. vm_compute. repeat split. Qed.

(** A submission that waits for room: one record settles during the first
    sleep, the second check finds 99, and the record goes out. *)
Example queue_drains :
  let env := mkSubmitEnv (None, None) (NetCount 0) [[(0%nat, None)]] None (inr reverted) in
  let run := submitTx_dispatch toChecksum_fixed env 100%nat s_full in
  out run = Ok tt ∧
  (∃ o, evs run =
     [EvNonce addrA 0; EvQueueCheck 100; EvSleep Governor 60000; EvQueueCheck 99;
      EvSubmitted 100 (Some 0); EvSend 100 o]) ∧
  clock (st run) = clock s_full + 60000.
Proof. vm_compute. split_and!; [done | eexists; reflexivity | done]. Qed.

(** The oldest of 200 entries makes room for the 201st. *)
Example oldest_entry_evicted :
  let s' := exec (_checkError toChecksum_fixed mining_timeout addrA 0%nat) s_crowded in
  from_option items [] (_nonceInUse s' !! addrA) =
    ((λ i, Some (Z.of_nat i)) <$> seq 1 199) ++ [Some 200].
Proof. vm_compute. reflexivity. Qed.

(** The constructor's manager has no exclusion set, and its empty store has
    distinct ids. *)
Example new_manager_ok :
  exclusion_sets_ok (TransactionManager_new 1 0) ∧ ids_ok (TransactionManager_new 1 0).
Proof.
  split; [apply exclusion_sets_ok_new |]. split_and!.
  - constructor.
  - intros q Hq. simpl in Hq. by apply elem_of_nil in Hq.
  - done.
Qed.

(** ** Witnesses of the further properties *)

Lemma getNonce_failure_frees_mutex_witness :
  held (toChecksum_fixed addrA) s_one = false ∧
  let run := getNonce toChecksum_fixed addrA (NetError reverted) s_one in
  out run = Throw (mkError ("Error: " +:+ message reverted)) ∧
  evs run = [] ∧
  (∀ B, held B (st run) = held B s_one) ∧
  tx (st run) = tx s_one ∧ heap (st run) = heap s_one ∧
  _nonceInUse (st run) = _nonceInUse s_one ∧
  ∃ nextNonce,
    out (getNonce toChecksum_fixed addrA (NetCount 0) (st run)) = Ok (nextNonce, toChecksum_fixed addrA).
Proof.
  assert (held (toChecksum_fixed addrA) s_one = false) as H1 by (vm_compute; reflexivity).
  refine (conj H1 _).
  exact (getNonce_failure_frees_mutex toChecksum_fixed addrA reverted 0 s_one H1).
Defined.

Lemma submitTx_gives_mutex_back_witness :
  out (submitTx toChecksum_fixed (env_of 0 None (inr reverted)) 0%nat s_one) ≠ Blocked ∧
  ∀ B, held B (st (submitTx toChecksum_fixed (env_of 0 None (inr reverted)) 0%nat s_one))
       = held B s_one.
Proof.
  assert (out (submitTx toChecksum_fixed (env_of 0 None (inr reverted)) 0%nat s_one) ≠ Blocked)
    as H1 by (vm_compute; discriminate).
  refine (conj H1 _).
  exact (submitTx_gives_mutex_back toChecksum_fixed (env_of 0 None (inr reverted)) 0%nat
           s_one H1).
Defined.

Lemma mutex_is_per_address_witness :
  held (toChecksum_fixed addrA) s_one = false ∧
  held (toChecksum_fixed addrB) s_one = false ∧
  let s1 := st (getNonce toChecksum_fixed addrA (NetCount 0) s_one) in
  (out (getNonce toChecksum_fixed addrB (NetCount 0) s1) = Blocked ↔
     toChecksum_fixed addrB = toChecksum_fixed addrA) ∧
  (∀ n', nextNonceOf toChecksum_fixed (toChecksum_fixed addrB) n' s1 =
         nextNonceOf toChecksum_fixed (toChecksum_fixed addrB) n' s_one).
Proof.
  assert (held (toChecksum_fixed addrA) s_one = false) as H1 by (vm_compute; reflexivity).
  assert (held (toChecksum_fixed addrB) s_one = false) as H2 by (vm_compute; reflexivity).
  refine (conj H1 (conj H2 _)).
  exact (mutex_is_per_address toChecksum_fixed addrA addrB 0 (NetCount 0) s_one H1 H2).
Defined.

Lemma sendWithRetry_result_witness :
  let ro := retry_once None in
  let env := λ _ : nat, env_of 0 None (inr mining_timeout) in
  tx_txType (deref s_one 0%nat) = send ∧
  out (sendWithRetry toChecksum_fixed ro env 0%nat s_one) = Ok (Some mining_timeout, None) ∧
  (Some mining_timeout = None →
     tx_status (deref (st (sendWithRetry toChecksum_fixed ro env 0%nat s_one)) 0%nat)
       = Some confirmed) ∧
  (is_Some (Some mining_timeout) →
     submissions (evs (sendWithRetry toChecksum_fixed ro env 0%nat s_one)) = S (retry_of ro)).
Proof.
  intros ro env.
  assert (tx_txType (deref s_one 0%nat) = send) as H1 by (vm_compute; reflexivity).
  assert (out (sendWithRetry toChecksum_fixed ro env 0%nat s_one)
          = Ok (Some mining_timeout, None)) as H2 by (vm_compute; reflexivity).
  refine (conj H1 (conj H2 _)).
  exact (sendWithRetry_result toChecksum_fixed ro env 0%nat s_one (Some mining_timeout) None
           H1 H2).
Defined.

Lemma sendWithRetry_call_throws_witness :
  let env := λ _ : nat, env_answer in
  tx_txType (deref s_call 0%nat) = call ∧
  tx_status (deref s_call 0%nat) ≠ Some confirmed ∧
  ¬ found 0%nat s_call ∧
  (env_call (env 0%nat)).1 = None ∧
  let run := sendWithRetry toChecksum_fixed (retry_once None) env 0%nat s_call in
  out run = Throw TypeError ∧
  evs run = [EvSubmitTx 0 0; EvCall 0; EvSettled 0 None] ∧
  tx (st run) = tx s_call ∧
  tx_status (deref (st run) 0%nat) = Some confirmed.
Proof.
  intros env.
  assert (tx_txType (deref s_call 0%nat) = call) as H1 by (vm_compute; reflexivity).
  assert (tx_status (deref s_call 0%nat) ≠ Some confirmed) as H2 by (vm_compute; discriminate).
  assert (¬ found 0%nat s_call) as H3.
  { intros (q & Hq & _). vm_compute in Hq. by apply elem_of_nil in Hq. }
  assert ((env_call (env 0%nat)).1 = None) as H4 by reflexivity.
  refine (conj H1 (conj H2 (conj H3 (conj H4 _)))).
  exact (sendWithRetry_call_throws toChecksum_fixed (retry_once None) env 0%nat s_call
           H1 H2 H3 H4).
Defined.

Lemma submitTx_reports_send_witness :
  let env := env_of 0 None (inl mined) in
  let er := (None, Some (Mined mined)) in
  tx_txType (deref s_one 0%nat) = send ∧
  out (submitTx toChecksum_fixed env 0%nat s_one) = Ok er ∧
  let s' := st (submitTx toChecksum_fixed env 0%nat s_one) in
  er = match env_send env with
       | inl receipt => (None, Some (Mined receipt))
       | inr e => (Some e, None)
       end ∧
  tx_status (deref s' 0%nat) =
    Some (match env_send env with inl _ => confirmed | inr _ => failed end) ∧
  tx_lastUpdate (deref s' 0%nat) = Some (clock s') ∧
  is_Some (tx_nonce (deref s' 0%nat)) ∧
  opt_nonce (tx_options (deref s' 0%nat)) = tx_nonce (deref s' 0%nat) ∧
  found 0%nat s'.
Proof.
  intros env er.
  assert (tx_txType (deref s_one 0%nat) = send) as H1 by (vm_compute; reflexivity).
  assert (out (submitTx toChecksum_fixed env 0%nat s_one) = Ok er) as H2
    by (vm_compute; reflexivity).
  refine (conj H1 (conj H2 _)).
  exact (submitTx_reports_send toChecksum_fixed env 0%nat s_one er H1 H2).
Defined.

Lemma submitTx_accounts_gas_witness :
  let env := env_of 0 None (inl mined) in
  let er := (None, Some (Mined mined)) in
  tx_txType (deref s_one 0%nat) = send ∧
  out (submitTx toChecksum_fixed env 0%nat s_one) = Ok er ∧
  let s' := st (submitTx toChecksum_fixed env 0%nat s_one) in
  totalGasUsed s' =
    totalGasUsed s_one +
    match env_send env with inl receipt => default 0 (rc_gasUsed receipt) | inr _ => 0 end ∧
  (∀ receipt, env_send env = inl receipt →
     tx_gasUsed (deref s' 0%nat) = Some (default 0 (rc_gasUsed receipt)) ∧
     tx_blockNumber (deref s' 0%nat) = Some (rc_blockNumber receipt)).
Proof.
  intros env er.
  assert (tx_txType (deref s_one 0%nat) = send) as H1 by (vm_compute; reflexivity).
  assert (out (submitTx toChecksum_fixed env 0%nat s_one) = Ok er) as H2
    by (vm_compute; reflexivity).
  refine (conj H1 (conj H2 _)).
  exact (submitTx_accounts_gas toChecksum_fixed env 0%nat s_one er H1 H2).
Defined.

Lemma fla_push_one_within_limit_witness :
  let a := mkFLA [1; 2] 2 false in
  (0 < lengthLimit a)%nat ∧
  (length (items a) ≤ lengthLimit a)%nat ∧
  (length (items (fla_push [3%Z] a)) ≤ lengthLimit a)%nat.
Proof.
  intros a.
  assert (0 < lengthLimit a)%nat as H1 by (simpl; lia).
  assert (length (items a) ≤ lengthLimit a)%nat as H2 by (simpl; lia).
  refine (conj H1 (conj H2 _)).
  exact (fla_push_one_within_limit 3 a H1 H2).
Defined.

Lemma fla_add_keeps_distinct_witness :
  let a := mkFLA [1; 2] 2 true in
  let args := [1; 3; 3] in
  NoDup (items a) ∧
  NoDup (items (fla_add args a)) ∧
  (∀ x, x ∈ args → x ∉ items a → x ∈ items (fla_add args a)) ∧
  (∀ x, x ∈ items (fla_add args a) → x ∈ items a ∨ x ∈ args) ∧
  (unique a = true → fla_push args a = fla_add args a).
Proof.
  intros a args.
  assert (NoDup (items a)) as H1.
  { refine (bool_decide_unpack _ _). vm_compute. exact I. }
  refine (conj H1 _).
  exact (fla_add_keeps_distinct args a H1).
Defined.

Lemma getFilteredTxList_all_keys_witness :
  let opts := [ByStatus confirmed; ByFrom addrA] in
  opts ≠ [] ∧
  getFilteredTxList opts s_confirmed =
    filter (λ q, Forall (λ f, matches f (deref s_confirmed q)) opts) (tx s_confirmed).
Proof.
  intros opts.
  assert (opts ≠ []) as H1 by discriminate.
  refine (conj H1 _).
  exact (getFilteredTxList_all_keys opts s_confirmed H1).
Defined.

Lemma addTx_id_zero_appended_again_witness :
  truthy (tx_id (deref s_zero 0%nat)) = false ∧
  Z.rem (_idCounter s_zero) MAX_SAFE_INTEGER = 0 ∧
  let first := addTx 0%nat s_zero in
  let second := addTx 0%nat (st first) in
  out first = Ok tt ∧
  tx_id (deref (st first) 0%nat) = Some 0 ∧
  out second = Ok tt ∧
  tx (st second) = tx s_zero ++ [0%nat; 0%nat] ∧
  tx_id (deref (st second) 0%nat) = Some 1.
Proof.
  assert (truthy (tx_id (deref s_zero 0%nat)) = false) as H1 by (vm_compute; reflexivity).
  assert (Z.rem (_idCounter s_zero) MAX_SAFE_INTEGER = 0) as H2 by (vm_compute; reflexivity).
  refine (conj H1 (conj H2 _)).
  exact (addTx_id_zero_appended_again 0%nat s_zero H1 H2).
Defined.

Lemma submitTx_completes_witness :
  let env := env_of 0 None (inr reverted) in
  tx_txType (deref s_one 0%nat) = send ∧
  truthy (tx_id (deref s_one 0%nat)) = false ∧
  tx_status (deref s_one 0%nat) = None ∧
  held (toChecksum_fixed (opt_from (tx_options (deref s_one 0%nat)))) s_one = false ∧
  env_net env = NetCount 0 ∧
  (awaiting_now s_one < awaitLimit)%nat ∧
  let run := submitTx toChecksum_fixed env 0%nat s_one in
  ∃ er nextNonce o,
    out run = Ok er ∧
    evs run =
      [EvNonce (toChecksum_fixed (opt_from (tx_options (deref s_one 0%nat)))) nextNonce;
       EvQueueCheck (awaiting_now s_one);
       EvSubmitted 0 (Some (js_or (opt_nonce (tx_options (deref s_one 0%nat))) nextNonce));
       EvSend 0 o;
       EvSettled 0 er.1] ∧
    0 ≤ nextNonce.
Proof.
  intros env.
  assert (tx_txType (deref s_one 0%nat) = send) as H1 by (vm_compute; reflexivity).
  assert (truthy (tx_id (deref s_one 0%nat)) = false) as H2 by (vm_compute; reflexivity).
  assert (tx_status (deref s_one 0%nat) = None) as H3 by (vm_compute; reflexivity).
  assert (held (toChecksum_fixed (opt_from (tx_options (deref s_one 0%nat)))) s_one = false)
    as H4 by (vm_compute; reflexivity).
  assert (env_net env = NetCount 0) as H5 by reflexivity.
  assert (awaiting_now s_one < awaitLimit)%nat as H6 by (vm_compute; lia).
  refine (conj H1 (conj H2 (conj H3 (conj H4 (conj H5 (conj H6 _)))))).
  exact (submitTx_completes toChecksum_fixed env 0%nat s_one 0 H1 H2 H3 H4 H5 H6).
Defined.

Lemma TransactionObject_one_per_id_witness :
  let m1 := recorded addrA 1 pending 0 in
  let m2 := recorded addrB 1 failed 5 in
  let o := mkObjects [] None in
  truthy (tx_id m1) = true ∧
  tx_id m2 = tx_id m1 ∧
  let first := TransactionObject_new m1 o in
  let second := TransactionObject_new m2 first.2 in
  second.1 = first.1 ∧ second.2 = first.2.
Proof.
  intros m1 m2 o.
  assert (truthy (tx_id m1) = true) as H1 by reflexivity.
  assert (tx_id m2 = tx_id m1) as H2 by reflexivity.
  refine (conj H1 (conj H2 _)).
  exact (TransactionObject_one_per_id m1 m2 o H1 H2).
Defined.

Lemma getTxMeta_type_by_name_witness :
  let obj := token_interface in
  let options := Some (mkOptions "" None None None None None) in
  me_call obj = _call (_setProxyMethods token_abi) ∧
  let txMeta := getTxMeta obj "transfer" [addrB; "1000"] options in
  (tx_txType txMeta = call ↔
     ∃ item, item ∈ token_abi ∧ abi_name item = "transfer" ∧
       abi_type item = Some "function" ∧
       (abi_stateMutability item = Some "pure" ∨ abi_stateMutability item = Some "view")) ∧
  (tx_txType txMeta = call ∨ tx_txType txMeta = send) ∧
  tx_id txMeta = None ∧ tx_status txMeta = None ∧ tx_nonce txMeta = None ∧
  tx_from txMeta = opt_from (tx_options txMeta) ∧
  tx_from txMeta =
    (if bool_decide (opt_from (default emptyOptions options) = "")
     then me_wallet obj else opt_from (default emptyOptions options)).
Proof.
  intros obj options.
  assert (me_call obj = _call (_setProxyMethods token_abi)) as H1 by reflexivity.
  refine (conj H1 _).
  exact (getTxMeta_type_by_name token_abi obj "transfer" [addrB; "1000"] options H1).
Defined.


Lemma sendWithRetry_gives_mutex_back_witness :
  let ro := retry_once None in
  let env := λ _ : nat, env_of 0 None (inr mining_timeout) in
  out (sendWithRetry toChecksum_fixed ro env 0%nat s_one) ≠ Blocked ∧
  ∀ B, held B (st (sendWithRetry toChecksum_fixed ro env 0%nat s_one)) = held B s_one.
Proof.
  intros ro env.
  assert (out (sendWithRetry toChecksum_fixed ro env 0%nat s_one) ≠ Blocked) as H1
    by (vm_compute; discriminate).
  refine (conj H1 _).
  exact (sendWithRetry_gives_mutex_back toChecksum_fixed ro env 0%nat s_one H1).
Defined.
